(** * RRT* motion planner (MotionPlanning/RRTStarPlanner.py)

    A shallow embedding of [RRTStarPlanner] and of the tree it drives.

    - Costs and distances are Python floats in the source.  A float is
      modelled by the rational number it stands for, and every float
      operation of the planner returns its exact result rounded to the
      nearest float ([binary64]), as IEEE 754 prescribes; the planner can
      so be run inside Rocq on the values Python computes.  Infinities
      and NaN are not modelled.
    - The planner mutates [self.tree] and draws from the global NumPy
      random state; both are threaded explicitly through a small
      state-and-error monad.
    - Python's three unbounded [while] loops take a [fuel] argument;
      running out of fuel is the outcome [Diverge], which stands for a
      loop that has not finished, never for a result of the program.
    - [extend] uses [math.atan2], [math.cos] and [math.sin].  Its two
      geometric branches are parameters of the executable planner
      ([polar_step_2d], [polar_step_3d]); module [Extend] has the whole
      function, with the trigonometry in place and the floating-point
      operations of the platform as parameters. *)

From Stdlib Require Import QArith Qpower Qround Reals Lra Lqa.
From stdpp Require Import gmap list.

Local Open Scope nat_scope.

(** ** Outcomes of Python code *)

(** The exceptions the planner's own statements can raise, followed by the
    three failure kinds that only the specification names; no statement of
    the source raises one of the latter. *)
Inductive error : Set :=
  | KeyError            (* [self.tree.edges[i]] on a missing key *)
  | IndexError          (* [self.tree.vertices[i]] out of range *)
  | ValueError          (* nearest-vertex query on an empty tree *)
  | TypeError           (* [len(None)] *)
  | UnboundLocalError   (* [x_new] read before assignment in [extend] *)
  | CycleDetected
  | NoPathFound
  | InvalidDimension.

Inductive outcome (A : Type) : Type :=
  | Ok (a : A)
  | Raise (e : error)
  | Diverge.
Arguments Ok {A} a.
Arguments Raise {A} e.
Arguments Diverge {A}.

Definition obind {A B} (o : outcome A) (k : A → outcome B) : outcome B :=
  match o with
  | Ok a => k a
  | Raise e => Raise e
  | Diverge => Diverge
  end.

(** ** Comparisons and rounding to integers *)

Definition Qltb (a b : Q) : bool := negb (Qle_bool b a).

(** Round half to even, as [round] and [numpy.round] do. *)
Definition round_half_even (q : Q) : Z :=
  let f := Qfloor q in
  let r := (q - inject_Z f)%Q in
  match (r ?= 1 # 2)%Q with
  | Lt => f
  | Gt => (f + 1)%Z
  | Eq => if Z.even f then f else (f + 1)%Z
  end.

(** ** Python floats *)

Definition pow2 (e : Z) : Q := (2 ^ e)%Q.

(** [floor (log2 q)] of a positive [q]. *)
Definition ilog2 (q : Q) : Z :=
  let k := (Z.log2 (Qnum q) - Z.log2 (Zpos (Qden q)))%Z in
  if Qle_bool (pow2 k) q then k else (k - 1)%Z.

(** The exponent of the last place of the float nearest to a positive
    [q]: 53 significant bits, and no exponent below that of the subnormal
    numbers. *)
Definition ulp_exponent (q : Q) : Z := Z.max (ilog2 q - 52) (-1074).

Definition round_positive (q : Q) : Q :=
  let e := ulp_exponent q in
  Qred (inject_Z (round_half_even (q / pow2 e)) * pow2 e).

(** The float nearest to [q], halves to the even significand (IEEE 754
    binary64, the format of Python's [float] and of [numpy.float64]).
    Results beyond the largest float, which Python turns into [inf],
    are outside the model. *)
Definition binary64 (q : Q) : Q :=
  match (q ?= 0)%Q with
  | Eq => 0%Q
  | Gt => round_positive q
  | Lt => (- round_positive (- q))%Q
  end.

Arguments binary64 : simpl never.

(** [a + b] and [a * b] on floats. *)
Definition float_add (a b : Q) : Q := binary64 (a + b).
Definition float_mul (a b : Q) : Q := binary64 (a * b).
Arguments float_add : simpl never.
Arguments float_mul : simpl never.

(** Python's [round(x, 4)] on a float: the decimal number with four
    places nearest to [x], halves to even, and then the float nearest to
    that. *)
Definition py_round4 (q : Q) : Q :=
  binary64 (Qmake (round_half_even (q * inject_Z 10000)) 10000).

(** ** The environment (external collaborator)

    [planning_env] of the source: the five members the planner reads.
    [rng] is the state of the random source; [env_sample] and the planner's
    own [np.random.uniform()] both draw from it.  [compute_distance]
    returns a float. *)
Record PlanningEnv (config rng : Type) : Type := {
  compute_distance : config → config → Q;
  edge_validity_checker : config → config → bool;
  goal_criterion : config → bool;
  env_sample : rng → config * rng;
  c_space_dim : nat
}.
Arguments compute_distance {config rng} _ _ _.
Arguments edge_validity_checker {config rng} _ _ _.
Arguments goal_criterion {config rng} _ _.
Arguments env_sample {config rng} _ _.
Arguments c_space_dim {config rng} _.

(** ** The tree *)

(** Modelled from the spec: class [RRTTree] (module [RRTTree] is imported by
    the planner but is not among the sources).  Sections 3 and 4.1 of the
    specification: vertices are stored in insertion order and addressed by
    their index, edges map a child id to its parent id, the root is the
    first inserted vertex.  [path_cost] is the attribute [Plan] assigns at
    its end. *)
Record RRTTree (config : Type) : Type := {
  vertices : list config;
  edges : gmap nat nat;
  path_cost : option Q
}.
Arguments vertices {config} _.
Arguments edges {config} _.
Arguments path_cost {config} _.

Section Tree.
Context {config rng : Type}.
Variable env : PlanningEnv config rng.

Local Abbreviation dist := (compute_distance env).

(** Modelled from the spec: [RRTTree.__init__], an empty tree. *)
Definition empty_tree : RRTTree config :=
  {| vertices := []; edges := ∅; path_cost := None |}.

(** Modelled from the spec: [RRTTree.GetRootID], "the id assigned to the
    first inserted vertex". *)
Definition GetRootID (t : RRTTree config) : nat := 0.

(** Modelled from the spec: [RRTTree.AddVertex(config, cost)], "appends a
    new vertex, returns its newly assigned id"; the cost argument is not
    stored (section 3: cost is "not stored per-vertex"). *)
Definition AddVertex (x : config) (cost : Q) (t : RRTTree config)
  : nat * RRTTree config :=
  (length (vertices t),
   {| vertices := vertices t ++ [x]; edges := edges t;
      path_cost := path_cost t |}).

(** Modelled from the spec: [RRTTree.AddEdge(parent_id, child_id)],
    "sets/overwrites the parent of child_id to parent_id". *)
Definition AddEdge (parent_id child_id : nat) (t : RRTTree config)
  : RRTTree config :=
  {| vertices := vertices t; edges := <[child_id := parent_id]> (edges t);
     path_cost := path_cost t |}.

(** Linear scan behind [GetNearestVertex]: the best (id, distance) so far
    is replaced only by a strictly smaller distance, so the lowest id wins
    a tie. *)
Fixpoint nearest_scan (q : config) (vs : list config) (i : nat)
    (best : nat * Q) : nat * Q :=
  match vs with
  | [] => best
  | v :: vs' =>
      let d := dist q v in
      nearest_scan q vs' (S i) (if Qltb d (snd best) then (i, d) else best)
  end.

(** Modelled from the spec: [RRTTree.GetNearestVertex(query)], "the single
    vertex minimizing distance to query ... and that distance", ties to
    the lowest id.  [None] on an empty tree, about which the
    specification is silent. *)
Definition GetNearestVertex (t : RRTTree config) (q : config)
  : option (nat * Q) :=
  match vertices t with
  | [] => None
  | v :: vs => Some (nearest_scan q vs 1 (0, dist q v))
  end.

Fixpoint rad_scan (q : config) (rad : Q) (vs : list config) (i : nat)
  : list (nat * config) :=
  match vs with
  | [] => []
  | v :: vs' =>
      if Qle_bool (dist q v) rad
      then (i, v) :: rad_scan q rad vs' (S i)
      else rad_scan q rad vs' (S i)
  end.

(** Modelled from the spec: [RRTTree.GetNNInRad(query, radius)], "all
    vertices with distance <= radius", here in id order; the two lists of
    the source are kept zipped, as both of their uses zip them. *)
Definition GetNNInRad (t : RRTTree config) (q : config) (rad : Q)
  : list (nat * config) :=
  rad_scan q rad (vertices t) 0.

(** ** [compute_cost] (lines 23-36) *)

(** The [while node_id != root_id] loop; [cost += ...] is a float
    addition. *)
Fixpoint compute_cost_loop (fuel : nat) (t : RRTTree config)
    (node_id : nat) (node : config) (cost : Q) : outcome Q :=
  if decide (node_id = GetRootID t) then Ok cost else
  match fuel with
  | O => Diverge
  | S fuel' =>
      match edges t !! node_id with
      | None => Raise KeyError
      | Some parent_id =>
          match vertices t !! parent_id with
          | None => Raise IndexError
          | Some parent =>
              compute_cost_loop fuel' t parent_id parent
                (float_add cost (dist node parent))
          end
      end
  end.

Definition compute_cost (fuel : nat) (t : RRTTree config) (node_id : nat)
  : outcome Q :=
  match vertices t !! node_id with
  | None => Raise IndexError
  | Some node => compute_cost_loop fuel t node_id node 0%Q
  end.

End Tree.

(** ** The planner *)

(** The global NumPy random source, as far as the planner uses it. *)
Record NumpyRandom (rng : Type) : Type := {
  np_random_seed : Z → rng;
  np_random_uniform : rng → Q * rng
}.
Arguments np_random_seed {rng} _ _.
Arguments np_random_uniform {rng} _ _.

(** What a call of [Plan] reads and writes: the planner's tree and the
    random source. *)
Record state (config rng : Type) : Type := {
  tree : RRTTree config;
  np_random : rng
}.
Arguments tree {config rng} _.
Arguments np_random {config rng} _.

Definition M (config rng A : Type) : Type :=
  state config rng → outcome A * state config rng.

Section Planner.
Context {config rng : Type} `{EqDecision config}.
Variable env : PlanningEnv config rng.          (* self.env *)
Variable numpy : NumpyRandom rng.
Variables (bias eta : Q) (max_iter : nat).      (* self.bias, self.eta, self.max_iter *)
(** Lines 137-140 and 143-148 followed by line 150, given the rescaled
    distance [dist] of line 133: the new grid cell in two and in three
    dimensions. *)
Variables polar_step_2d polar_step_3d : config → config → Q → config.

Local Abbreviation dist := (compute_distance env).
Local Abbreviation valid := (edge_validity_checker env).
Local Abbreviation St := (state config rng).
Local Abbreviation Mo := (M config rng).

Definition ret {A} (a : A) : Mo A := fun s => (Ok a, s).
Definition bind {A B} (m : Mo A) (k : A → Mo B) : Mo B :=
  fun s =>
    match m s with
    | (Ok a, s') => k a s'
    | (Raise e, s') => (Raise e, s')
    | (Diverge, s') => (Diverge, s')
    end.
Definition raise {A} (e : error) : Mo A := fun s => (Raise e, s).
Definition diverge {A} : Mo A := fun s => (Diverge, s).
Definition lift {A} (o : outcome A) : Mo A := fun s => (o, s).
Definition get_tree : Mo (RRTTree config) := fun s => (Ok (tree s), s).
(** A statement that works on the tree alone. *)
Definition on_tree {A} (f : RRTTree config → outcome A * RRTTree config)
  : Mo A :=
  fun s => let '(o, t) := f (tree s) in
           (o, {| tree := t; np_random := np_random s |}).

Local Notation "'let*' x := m 'in' k" := (bind m (fun x => k))
  (at level 10, x name, m at level 100, k at level 200, only parsing).
Local Notation "'let*' ' p := m 'in' k" :=
  (bind m (fun x => let 'p := x in k))
  (at level 10, p strict pattern, m at level 100, k at level 200,
   only parsing).
Local Notation "m >> k" := (bind m (fun _ => k))
  (at level 100, k at level 200, right associativity, only parsing).

(** [sample] (lines 154-159). *)
Definition sample (goal : config) : Mo config :=
  fun s =>
    let '(u, r) := np_random_uniform numpy (np_random s) in
    if Qltb u bias
    then (Ok goal, {| tree := tree s; np_random := r |})
    else let '(x, r') := env_sample env r in
         (Ok x, {| tree := tree s; np_random := r' |}).

(** [extend] (lines 128-152).  With a dimension other than 2 or 3 neither
    branch assigns [x_new], and line 150 reads an unbound local. *)
Definition extend (x_nearest x_rand : config) : outcome config :=
  let d := float_mul (dist x_nearest x_rand) eta in
  if decide (c_space_dim env = 2) then Ok (polar_step_2d x_nearest x_rand d)
  else if decide (c_space_dim env = 3) then Ok (polar_step_3d x_nearest x_rand d)
  else Raise UnboundLocalError.

(** [GetNearestVertex] followed by [self.tree.vertices[id]]
    (lines 57-58, 95-96, 103-104). *)
Definition nearest_vertex (t : RRTTree config) (q : config)
  : outcome (nat * config) :=
  match GetNearestVertex env t q with
  | None => Raise ValueError
  | Some (vertex_id, _) =>
      match vertices t !! vertex_id with
      | None => Raise IndexError
      | Some vertex => Ok (vertex_id, vertex)
      end
  end.

(** The [while not is_edge_valid] loop (lines 53-63); it yields [x_rand],
    [x_nearest_id] and [x_nearest]. *)
Fixpoint sample_until_valid (fuel : nat) (goal : config)
  : Mo (config * nat * config) :=
  match fuel with
  | O => diverge
  | S fuel' =>
      let* x_rand := sample goal in
      let* t := get_tree in
      let* '(x_nearest_id, x_nearest) := lift (nearest_vertex t x_rand) in
      if valid x_rand x_nearest
      then ret (x_rand, x_nearest_id, x_nearest)
      else sample_until_valid fuel' goal
  end.

(** The parent-selection loop (lines 75-79) over the zipped neighbour
    lists, from the current [x_min_id], [x_min] and [cost_min]. *)
Fixpoint select_parent (fuel : nat) (t : RRTTree config) (x_new : config)
    (near : list (nat * config)) (x_min_id : nat) (x_min : config)
    (cost_min : Q) : outcome (nat * config * Q) :=
  match near with
  | [] => Ok (x_min_id, x_min, cost_min)
  | (x_near_id, x_near) :: near' =>
      if valid x_new x_near then
        obind (compute_cost env fuel t x_near_id) (fun c =>
        if Qltb (float_add c (dist x_near x_new)) cost_min then
          obind (compute_cost env fuel t x_near_id) (fun c' =>
          select_parent fuel t x_new near' x_near_id x_near
            (float_add c' (dist x_near x_new)))
        else select_parent fuel t x_new near' x_min_id x_min cost_min)
      else select_parent fuel t x_new near' x_min_id x_min cost_min
  end.

(** One round of the rewiring loop (lines 89-90). *)
Definition rewire_step (fuel : nat) (branch_id : nat) (x_new : config)
    (nb : nat * config) (t : RRTTree config)
  : outcome unit * RRTTree config :=
  let '(x_near_id, x_near) := nb in
  if valid x_new x_near then
    match compute_cost env fuel t branch_id with
    | Ok c_new =>
        match compute_cost env fuel t x_near_id with
        | Ok c_near =>
            if Qltb (float_add c_new (dist x_near x_new)) c_near
            then (Ok tt, AddEdge branch_id x_near_id t)
            else (Ok tt, t)
        | Raise e => (Raise e, t)
        | Diverge => (Diverge, t)
        end
    | Raise e => (Raise e, t)
    | Diverge => (Diverge, t)
    end
  else (Ok tt, t).

(** The rewiring loop (lines 88-90). *)
Fixpoint rewire (fuel : nat) (branch_id : nat) (x_new : config)
    (near : list (nat * config)) (t : RRTTree config)
  : outcome unit * RRTTree config :=
  match near with
  | [] => (Ok tt, t)
  | nb :: near' =>
      match rewire_step fuel branch_id x_new nb t with
      | (Ok _, t') => rewire fuel branch_id x_new near' t'
      | r => r
      end
  end.

(** Lines 82-85: the new vertex and its parent edge.  The edge is keyed by
    [branch_id], not by the id [AddVertex] returns. *)
Definition insert_vertex (x_min_id : nat) (x_min x_new : config)
    (branch_id : nat) (t : RRTTree config) : RRTTree config :=
  AddEdge x_min_id branch_id
    (snd (AddVertex x_new (dist x_min x_new) t)).

(** Lines 70-90 on the tree: neighbour query, parent selection,
    insertion, rewiring. *)
Definition connect (fuel : nat) (branch_id : nat) (rad : Q)
    (x_nearest_id : nat) (x_nearest x_new : config) (t : RRTTree config)
  : outcome unit * RRTTree config :=
  let near := GetNNInRad env t x_new rad in
  match compute_cost env fuel t x_nearest_id with
  | Ok c =>
      match select_parent fuel t x_new near x_nearest_id x_nearest
              (float_add c (dist x_nearest x_new)) with
      | Ok (x_min_id, x_min, _) =>
          rewire fuel branch_id x_new near
            (insert_vertex x_min_id x_min x_new branch_id t)
      | Raise e => (Raise e, t)
      | Diverge => (Diverge, t)
      end
  | Raise e => (Raise e, t)
  | Diverge => (Diverge, t)
  end.

(** The body of the [for] loop up to the goal check (lines 53-90). *)
Definition grow (fuel : nat) (branch_id : nat) (goal : config) (rad : Q)
  : Mo unit :=
  let* '(x_rand, x_nearest_id, x_nearest) := sample_until_valid fuel goal in
  let* x_new := lift (extend x_nearest x_rand) in
  on_tree (connect fuel branch_id rad x_nearest_id x_nearest x_new).

(** The [for branch_id in range(1, self.max_iter+1)] loop with [n] rounds
    to go; the result tells whether it was left by [break], that is with
    [path = []]. *)
Fixpoint grow_loop (fuel : nat) (n branch_id : nat) (goal : config)
    (rad : Q) : Mo bool :=
  match n with
  | O => ret false
  | S n' =>
      grow fuel branch_id goal rad >>
      if decide (branch_id mod 600 = 0) then
        let* t := get_tree in
        let* '(_, vertex) := lift (nearest_vertex t goal) in
        if goal_criterion env vertex then ret true
        else grow_loop fuel n' (S branch_id) goal rad
      else grow_loop fuel n' (S branch_id) goal rad
  end.

(** The path search (lines 111-116): [path] collects the vertices met
    from the goal end, the last one being the vertex equal to
    [start_config]. *)
Fixpoint walk_to_start (fuel : nat) (t : RRTTree config)
    (start_config : config) (vertex_id : nat) (vertex : config)
    (path : list config) : outcome (list config) :=
  if decide (vertex = start_config) then Ok (path ++ [vertex]) else
  match fuel with
  | O => Diverge
  | S fuel' =>
      match edges t !! vertex_id with
      | None => Raise KeyError
      | Some parent_id =>
          match vertices t !! parent_id with
          | None => Raise IndexError
          | Some parent =>
              walk_to_start fuel' t start_config parent_id parent
                (path ++ [vertex])
          end
      end
  end.

(** Line 121: the distances of consecutive path elements. *)
Fixpoint segment_costs (path : list config) : list Q :=
  match path with
  | a :: (b :: _) as rest => dist a b :: segment_costs rest
  | _ => []
  end.

(** Python's [sum] of floats: from 0, left to right. *)
Definition py_sum (l : list Q) : Q := fold_left float_add l 0%Q.

Definition set_path_cost (c : Q) : Mo unit :=
  fun s =>
    (Ok tt,
     {| tree := {| vertices := vertices (tree s); edges := edges (tree s);
                   path_cost := Some c |};
        np_random := np_random s |}).

(** [Plan] (lines 38-126).  The wall-clock [time_cost] is left out. *)
Definition Plan (fuel : nat) (start_config goal_config : config) (rad : Q)
  : Mo (option (list config)) :=
  on_tree (fun t => (Ok tt, snd (AddVertex start_config 0%Q t))) >>
  let* early := grow_loop fuel max_iter 1 goal_config rad in
  let* t := get_tree in
  let* '(vertex_id, vertex) := lift (nearest_vertex t goal_config) in
  let path : option (list config) :=
    if goal_criterion env vertex then Some []
    else if early then Some [] else None in
  let* path :=
    (match path with
     | Some p =>
         let* p' :=
           lift (walk_to_start fuel t start_config vertex_id vertex p) in
         ret (Some (rev p'))
     | None => ret None
     end) in
  let* cost :=
    (match path with
     | Some p => ret (segment_costs p)
     | None => raise TypeError
     end) in
  set_path_cost (py_round4 (py_sum cost)) >>
  ret path.

End Planner.

(** ** The planner object *)

Record RRTStarPlanner (config rng : Type) : Type := {
  self_env : PlanningEnv config rng;
  self_tree : RRTTree config;
  self_bias : Q;
  self_max_iter : nat;
  self_eta : Q
}.
Arguments self_env {config rng} _.
Arguments self_tree {config rng} _.
Arguments self_bias {config rng} _.
Arguments self_max_iter {config rng} _.
Arguments self_eta {config rng} _.

Section Object.
Context {config rng : Type} `{EqDecision config}.
Variable numpy : NumpyRandom rng.
Variables polar_step_2d polar_step_3d : config → config → Q → config.

(** Modelled from the spec: [RRTTree.__init__(planning_env, eta, bias,
    output_directory, rand_seed, stat_filename)].  The tree starts empty,
    and [rand_seed] seeds the "global random state (seeded sampler)" of
    sections 6 and 9, whatever state [g] it was in. *)
Definition RRTTree_init (rand_seed : Z) (g : rng) : RRTTree config * rng :=
  (empty_tree, np_random_seed numpy rand_seed).

(** [__init__] (lines 11-21); [g] is the global random state at the call.
    Nothing here looks at [c_space_dim].  The two file-name arguments
    only reach the statistics output and are left out. *)
Definition RRTStarPlanner_init (planning_env : PlanningEnv config rng)
    (rand_seed : Z) (bias eta : Q) (max_iter : nat) (g : rng)
  : outcome (RRTStarPlanner config rng) * rng :=
  let '(t, g') := RRTTree_init rand_seed g in
  (Ok {| self_env := planning_env; self_tree := t; self_bias := bias;
         self_max_iter := max_iter; self_eta := eta |}, g').

(** The method call [self.Plan(start_config, goal_config, rad)] with the
    global random state [g]: the result, the planner and the random state
    afterwards. *)
Definition call_Plan (self : RRTStarPlanner config rng) (fuel : nat)
    (start_config goal_config : config) (rad : Q) (g : rng)
  : outcome (option (list config)) * (RRTStarPlanner config rng * rng) :=
  let '(r, s) :=
    Plan (self_env self) numpy (self_bias self) (self_eta self)
      (self_max_iter self) polar_step_2d polar_step_3d fuel
      start_config goal_config rad
      {| tree := self_tree self; np_random := g |} in
  (r, ({| self_env := self_env self; self_tree := tree s;
          self_bias := self_bias self; self_max_iter := self_max_iter self;
          self_eta := self_eta self |}, np_random s)).

(** Construct a planner and plan once with it. *)
Definition construct_and_plan (planning_env : PlanningEnv config rng)
    (rand_seed : Z) (bias eta : Q) (max_iter : nat) (fuel : nat)
    (start_config goal_config : config) (rad : Q) (g : rng)
  : outcome (option (list config)) * option (RRTStarPlanner config rng) :=
  match RRTStarPlanner_init planning_env rand_seed bias eta max_iter g with
  | (Ok self, g') =>
      let '(r, (self', _)) :=
        call_Plan self fuel start_config goal_config rad g' in
      (r, Some self')
  | (Raise e, _) => (Raise e, None)
  | (Diverge, _) => (Diverge, None)
  end.

End Object.

(** ** [extend] with its trigonometry

    Lines 128-152 on arrays of floats; a float is the real number it
    stands for.  The floating-point operations the lines use are
    parameters: [fl] rounds the exact result of a sum, a difference or a
    product to a float, [math_atan2], [math_cos] and [math_sin] are the
    functions of the platform's [math] module, and [int_of_big] is what
    [astype(int)] makes of a float outside the range of a 64-bit integer,
    which NumPy leaves to the platform. *)
Module Extend.
Local Open Scope R_scope.

(** The angle [math.atan2] approximates. *)
Definition atan2 (y x : R) : R :=
  if Rlt_dec 0 x then atan (y / x)
  else if Rlt_dec x 0 then
    (if Rle_dec 0 y then atan (y / x) + PI else atan (y / x) - PI)
  else if Rlt_dec 0 y then PI / 2
  else if Rlt_dec y 0 then - (PI / 2)
  else 0.

(** [numpy.round] of a float: the nearest integer, halves to the even
    one.  The result is again a float, and no rounding error is made. *)
Definition np_round (x : R) : Z :=
  let f := Int_part x in
  let r := frac_part x in
  if Rlt_dec r (1 / 2) then f
  else if Rlt_dec (1 / 2) r then (f + 1)%Z
  else if Z.even f then f else (f + 1)%Z.


(** The grid metric of the examples below. *)
Definition manhattan (a b : list R) : R :=
  match a, b with
  | [a0; a1], [b0; b1] => Rabs (a0 - b0) + Rabs (a1 - b1)
  | _, _ => 0
  end.

Section WithFloats.
Variable fl : R → R.
Variable math_atan2 : R → R → R.
Variables math_cos math_sin : R → R.
Variable int_of_big : R → Z.
Variable compute_distance : list R → list R → R.   (* self.env.compute_distance *)
Variable c_space_dim : nat.                         (* self.env.c_space_dim *)
Variable eta : R.                                   (* self.eta *)

(** Lines 131-133: [dist] after [dist *= self.eta]. *)
Definition scaled_distance (x_nearest x_rand : list R) : R :=
  fl (compute_distance x_nearest x_rand * eta).

(** Line 137, and lines 143-144. *)
Definition angle_2d (n0 n1 r0 r1 : R) : R :=
  math_atan2 (fl (r1 - n1)) (fl (r0 - n0)).
Definition angle_3d (n0 n1 n2 r0 r1 r2 : R) : R :=
  math_atan2 (fl (r2 - n2)) (compute_distance [r0; r1] [n0; n1]).

(** The list [x_new] of lines 139-140 and 146-148. *)
Definition raw_step (x_nearest x_rand : list R) : outcome (list R) :=
  let dist := scaled_distance x_nearest x_rand in
  if decide (c_space_dim = 2%nat) then
    match x_nearest, x_rand with
    | n0 :: n1 :: _, r0 :: r1 :: _ =>
        let alpha := angle_2d n0 n1 r0 r1 in
        Ok [fl (n0 + fl (dist * math_cos alpha));
            fl (n1 + fl (dist * math_sin alpha))]
    | _, _ => Raise IndexError
    end
  else if decide (c_space_dim = 3%nat) then
    match x_nearest, x_rand with
    | n0 :: n1 :: n2 :: _, r0 :: r1 :: r2 :: _ =>
        let alpha := angle_3d n0 n1 n2 r0 r1 r2 in
        let beta := angle_2d n0 n1 r0 r1 in
        Ok [fl (n0 + fl (fl (dist * math_cos alpha) * math_cos beta));
            fl (n1 + fl (fl (dist * math_cos alpha) * math_sin beta));
            fl (n2 + fl (dist * math_sin alpha))]
    | _, _ => Raise IndexError
    end
  else Raise UnboundLocalError.


(** [numpy.round(x).astype(int)] on one element (line 150). *)
Definition astype_int (x : R) : Z :=
  let z := np_round x in
  if decide (- 2 ^ 63 ≤ z < 2 ^ 63)%Z then z else int_of_big x.

Definition extend (x_nearest x_rand : list R) : outcome (list Z) :=
  match raw_step x_nearest x_rand with
  | Ok x_new => Ok (map astype_int x_new)
  | Raise e => Raise e
  | Diverge => Diverge
  end.
End WithFloats.

Definition exact_extend :=
  extend (fun x => x) atan2 cos sin (fun _ => 0%Z).

End Extend.

(** ** Parent chains and the tree invariant *)

Section Chains.
Context {config rng : Type}.
Variable env : PlanningEnv config rng.

(** [root_path t v l]: following parent edges from [v] visits exactly the
    vertices [l] (ids with their configurations), [v] first, the root
    last. *)
Inductive root_path (t : RRTTree config)
  : nat → list (nat * config) → Prop :=
  | root_path_root x :
      vertices t !! 0 = Some x → root_path t 0 [(0, x)]
  | root_path_step v p x l :
      v ≠ 0 → vertices t !! v = Some x → edges t !! v = Some p →
      root_path t p l → root_path t v ((v, x) :: l).

(** The float sum of the distances between consecutive configurations
    of a chain, accumulated from [acc] in the order the walk meets
    them. *)
Fixpoint chain_cost (acc : Q) (l : list config) : Q :=
  match l with
  | a :: (b :: _) as rest =>
      chain_cost (float_add acc (compute_distance env a b)) rest
  | _ => acc
  end.

Definition parent_of (t : RRTTree config) (v p : nat) : Prop :=
  edges t !! v = Some p.

(** [ancestor t v a]: [a] is met from [v] after one or more parent
    edges. *)
Definition ancestor (t : RRTTree config) : nat → nat → Prop :=
  tc (parent_of t).

(** The invariant carried through a planning run. *)
Record tree_ok (t : RRTTree config) : Prop := {
  ok_root : 0 < length (vertices t);
  ok_root_free : edges t !! 0 = None;
  ok_edges : ∀ v p, edges t !! v = Some p →
               v < length (vertices t) ∧ p < length (vertices t);
  ok_reach : ∀ v, v < length (vertices t) → ∃ l, root_path t v l
}.

(** The parent edges over the inserted vertices form a tree rooted at
    vertex 0: the root is there and has no parent, edges join inserted vertices, no
    vertex is its own ancestor, and every vertex reaches the root. *)
Definition is_tree (t : RRTTree config) : Prop :=
  0 < length (vertices t) ∧
  edges t !! GetRootID t = None ∧
  (∀ v p, edges t !! v = Some p →
     v < length (vertices t) ∧ p < length (vertices t)) ∧
  (∀ v, ¬ ancestor t v v) ∧
  (∀ v, v < length (vertices t) → ∃ l, root_path t v l).

Definition metric_nonneg : Prop :=
  ∀ a b, (0 <= compute_distance env a b)%Q.

End Chains.

(** ** Statements read off the claims *)

Section Statements.
Context {config rng : Type}.
Variable env : PlanningEnv config rng.

(** "For any input [compute_cost] either returns the root-path cost sum
    or fails with [CycleDetected], never looping forever." *)
Definition returns_or_detects_cycle (t : RRTTree config) (vertex_id : nat)
  : Prop :=
  ∃ fuel,
    (∃ c, compute_cost env fuel t vertex_id = Ok c) ∨
    compute_cost env fuel t vertex_id = Raise CycleDetected.

(** "[p] is the candidate, among [cands], that minimizes cost-to-root +
    distance to [x_new] subject to the edge between the candidate and
    [x_new] being valid." *)
Definition min_cost_valid_parent (fuel : nat) (t : RRTTree config)
    (x_new : config) (cands : list (nat * config)) (p : nat * config)
  : Prop :=
  p ∈ cands ∧
  edge_validity_checker env x_new (snd p) = true ∧
  ∀ c, c ∈ cands → edge_validity_checker env x_new (snd c) = true →
    ∃ cost_p cost_c,
      compute_cost env fuel t (fst p) = Ok cost_p ∧
      compute_cost env fuel t (fst c) = Ok cost_c ∧
      (float_add cost_p (compute_distance env (snd p) x_new) <=
       float_add cost_c (compute_distance env (snd c) x_new))%Q.

(** The rewiring test of line 89 for neighbour [nb] on tree [t], with
    the new vertex [branch_id] at [x_new]. *)
Definition rewire_test (fuel : nat) (t : RRTTree config) (branch_id : nat)
    (x_new : config) (nb : nat * config) : Prop :=
  edge_validity_checker env x_new (snd nb) = true ∧
  ∃ c_new c_near,
    compute_cost env fuel t branch_id = Ok c_new ∧
    compute_cost env fuel t (fst nb) = Ok c_near ∧
    (float_add c_new (compute_distance env (snd nb) x_new) < c_near)%Q.

(** [parent_chain t v l]: [l] lists the configurations met from [v]
    along parent edges, [v]'s first. *)
Inductive parent_chain (t : RRTTree config)
  : nat → list config → Prop :=
  | parent_chain_one v x :
      vertices t !! v = Some x → parent_chain t v [x]
  | parent_chain_step v p x l :
      vertices t !! v = Some x → edges t !! v = Some p →
      parent_chain t p l → parent_chain t v (x :: l).

(** "The path is produced by walking parent edges from the
    goal-satisfying vertex back to the root and reversing." *)
Definition reverse_of_walk_to_root (t : RRTTree config) (vertex_id : nat)
    (path : list config) : Prop :=
  ∃ l, root_path t vertex_id l ∧ path = rev l.*2.

(** [t'] holds every vertex of [t] under its id, and a parent edge for
    every vertex that has one in [t]. *)
Definition tree_extends (t t' : RRTTree config) : Prop :=
  (∃ added, vertices t' = vertices t ++ added) ∧
  dom (edges t) ⊆ dom (edges t').

End Statements.

(** ** Concrete environments

    A grid world used to run the planner: configurations are cells
    ([list Z]), the random source is the list of the cells [env.sample()]
    will return, and [np.random.uniform()] always draws 1/2. *)
Module Demo.

Definition cell : Type := list Z.

Definition manhattan (a b : cell) : Q :=
  match a, b with
  | [a0; a1], [b0; b1] => inject_Z (Z.abs (a0 - b0) + Z.abs (a1 - b1))
  | _, _ => 0
  end.

(** The same metric for cells a third and a tenth of a unit wide:
    [manhattan(a, b) / 3] and [0.1 * manhattan(a, b)] in Python. *)
Definition manhattan_third (a b : cell) : Q := binary64 (manhattan a b / 3).
Definition manhattan_tenth (a b : cell) : Q :=
  float_mul (binary64 (1 # 10)) (manhattan a b).

Definition draw (g : list cell) : cell * list cell :=
  (hd [0; 0]%Z g, tl g).

Definition numpy (stream : Z → list cell) : NumpyRandom (list cell) :=
  {| np_random_seed := stream;
     np_random_uniform := fun g => (1 # 2, g) |}.

(** [round_half_even (n + v / sqrt h2)] for a positive integer [h2],
    found by integer arithmetic: [Z.sqrt (Qfloor (4 v^2 / h2))] is the
    integer part of twice the distance of the point from [n]. *)
Definition nearest_to_ratio (n : Z) (v : Q) (h2 : Z) : Z :=
  match (v ?= 0)%Q with
  | Eq => n
  | c =>
      let s := match c with Lt => (-1)%Z | _ => 1%Z end in
      let q4 := (4 * v * v / inject_Z h2)%Q in
      let m := Z.sqrt (Qfloor q4) in
      let j := (m / 2)%Z in
      if Z.even m then (n + s * j)%Z
      else if Qeq_bool q4 (inject_Z (m * m))
           then (if Z.even (n + s * j) then n + s * j else n + s * (j + 1))%Z
           else (n + s * (j + 1))%Z
  end.

(** Lines 137-140 and 150 on grid cells, with cosine and sine taken
    exactly: the cosine of [atan2 dy dx] is [dx / sqrt (dx^2 + dy^2)], and
    [atan2 0 0] is 0.  Python's floats yield the same cell unless the
    stepped point lies within the rounding error of a half-integer; on a
    row or a column of the grid, where the examples move, cosine and sine
    are 0 and +-1 and the only rounding is that of line 150. *)
Definition grid_step_2d (x_nearest x_rand : cell) (d : Q) : cell :=
  match x_nearest, x_rand with
  | n0 :: n1 :: _, r0 :: r1 :: _ =>
      let dx := (r0 - n0)%Z in
      let dy := (r1 - n1)%Z in
      let h2 := (dx * dx + dy * dy)%Z in
      if (h2 =? 0)%Z then [round_half_even (inject_Z n0 + d); n1]
      else [nearest_to_ratio n0 (d * inject_Z dx) h2;
            nearest_to_ratio n1 (d * inject_Z dy) h2]
  | _, _ => x_rand
  end.

(** The examples are two-dimensional: the step of lines 143-148 is never
    taken in them. *)
Definition no_step_3d (x_nearest x_rand : cell) (d : Q) : cell := x_rand.

(** No obstacles; the goal region is the cell [3, 0] and its four
    neighbours. *)
Definition open_env (dist : cell → cell → Q) (dim : nat)
  : PlanningEnv cell (list cell) :=
  {| compute_distance := dist;
     edge_validity_checker := fun _ _ => true;
     goal_criterion := fun v => Qle_bool (manhattan v [3; 0]%Z) 1;
     env_sample := draw;
     c_space_dim := dim |}.

(** No obstacles, two dimensions; the goal region is the cell [centre]
    and its four neighbours. *)
Definition region_env (dist : cell → cell → Q) (centre : cell)
  : PlanningEnv cell (list cell) :=
  {| compute_distance := dist;
     edge_validity_checker := fun _ _ => true;
     goal_criterion := fun v => Qle_bool (manhattan v centre) 1;
     env_sample := draw;
     c_space_dim := 2 |}.

(** One obstacle, the cell [3, 0]: a segment along row 0 is invalid when
    it covers that cell. *)
Definition crosses_wall (a b : cell) : bool :=
  match a, b with
  | [a0; a1], [b0; b1] =>
      (a1 =? 0)%Z && (b1 =? 0)%Z &&
      (Z.min a0 b0 <=? 3)%Z && (3 <=? Z.max a0 b0)%Z
  | _, _ => false
  end.

Definition wall_env : PlanningEnv cell (list cell) :=
  {| compute_distance := manhattan;
     edge_validity_checker := fun a b => negb (crosses_wall a b);
     goal_criterion := fun v => Qle_bool (manhattan v [9; 9]%Z) 1;
     env_sample := draw;
     c_space_dim := 2 |}.

Definition start_state (g : list cell) : state cell (list cell) :=
  {| tree := empty_tree; np_random := g |}.

(** A tree whose parent edges form the cycle 1 -> 2 -> 1. *)
Definition cyclic_tree : RRTTree cell :=
  {| vertices := [[0; 0]; [1; 0]; [2; 0]]%Z;
     edges := <[1 := 2]> (<[2 := 1]> ∅);
     path_cost := None |}.

(** The tree after [AddVertex [0;0]], [AddVertex [0;2]], [AddEdge 0 1]. *)
Definition two_tree : RRTTree cell :=
  AddEdge 0 1 (snd (AddVertex [0; 2]%Z 2 (snd (AddVertex [0; 0]%Z 0 empty_tree)))).

(** Four vertices in a row of parent edges 3 -> 2 -> 1 -> 0 that leads
    around to [2, 1]. *)
Definition detour_tree : RRTTree cell :=
  {| vertices := [[0; 0]; [0; 2]; [2; 2]; [2; 1]]%Z;
     edges := <[3 := 2]> (<[2 := 1]> (<[1 := 0]> ∅));
     path_cost := None |}.

End Demo.

(** ** Walks along parent edges *)

Section Walks.
Context {config : Type}.

(** [parent_walk t v l w]: the loop of [compute_cost], started at [v], goes
    through the vertices [l] ([v] first) and stands at [w]: none of [l] is
    the root, each has a parent edge, and each parent is an inserted
    vertex. *)
Inductive parent_walk (t : RRTTree config) : nat → list nat → nat → Prop :=
  | parent_walk_nil v : parent_walk t v [] v
  | parent_walk_cons v p xp l w :
      v ≠ 0 → edges t !! v = Some p → vertices t !! p = Some xp →
      parent_walk t p l w → parent_walk t v (v :: l) w.

End Walks.

(** ** An environment without valid edges

    The grid of [Demo.open_env] with a checker that rejects every edge. *)
Definition blocked_env : PlanningEnv Demo.cell (list Demo.cell) :=
  {| compute_distance := Demo.manhattan;
     edge_validity_checker := fun _ _ => false;
     goal_criterion := fun v => Qle_bool (Demo.manhattan v [3; 0]%Z) 1;
     env_sample := Demo.draw;
     c_space_dim := 2 |}.

(** * Properties *)

(** ** Rational comparisons *)

Lemma Qltb_lt (a b : Q) : Qltb a b = true ↔ (a < b)%Q.
Proof.
  unfold Qltb. rewrite negb_true_iff.
  destruct (Qle_bool b a) eqn:E.
  - apply Qle_bool_iff in E. split; [discriminate | intros H; lra].
  - split; [intros _ | reflexivity].
    apply Qnot_le_lt. intros H. apply Qle_bool_iff in H. congruence.
Qed.

Lemma Qltb_ge (a b : Q) : Qltb a b = false ↔ (b <= a)%Q.
Proof.
  unfold Qltb. rewrite negb_false_iff. apply Qle_bool_iff.
Qed.

(** ** Floats

    Rounding to the nearest float is monotone and leaves floats
    unchanged; no more is used about it below. *)

Section FloatFacts.
Local Open Scope Q_scope.

Lemma round_half_even_near (q : Q) :
  - (1 # 2) <= inject_Z (round_half_even q) - q <= 1 # 2.
Proof.
  unfold round_half_even.
  pose proof (Qfloor_le q) as Hlo. pose proof (Qlt_floor q) as Hhi.
  rewrite inject_Z_plus in Hhi. change (inject_Z 1) with 1 in Hhi.
  destruct (q - inject_Z (Qfloor q) ?= 1 # 2) eqn:Hcmp.
  - apply Qeq_alt in Hcmp.
    destruct (Z.even (Qfloor q)); [split; lra |].
    rewrite inject_Z_plus. change (inject_Z 1) with 1. split; lra.
  - apply Qlt_alt in Hcmp. split; lra.
  - apply Qgt_alt in Hcmp.
    rewrite inject_Z_plus. change (inject_Z 1) with 1. split; lra.
Qed.

Lemma round_half_even_comp (a b : Q) :
  a == b → round_half_even a = round_half_even b.
Proof.
  intros Hab. unfold round_half_even.
  rewrite (Qfloor_comp _ _ Hab).
  assert (a - inject_Z (Qfloor b) == b - inject_Z (Qfloor b)) as Hr
    by (rewrite Hab; reflexivity).
  by rewrite (Qcompare_comp _ _ Hr _ _ (Qeq_refl (1 # 2))).
Qed.

Lemma round_half_even_Z (z : Z) : round_half_even (inject_Z z) = z.
Proof.
  unfold round_half_even. rewrite Qfloor_Z.
  assert ((inject_Z z - inject_Z z ?= 1 # 2) = Lt) as ->; [| done].
  rewrite <- Qlt_alt. lra.
Qed.

Lemma round_half_even_mono (a b : Q) :
  a <= b → (round_half_even a <= round_half_even b)%Z.
Proof.
  intros Hab.
  destruct (Z.le_gt_cases (round_half_even a) (round_half_even b))
    as [Hle | Hgt]; [done |].
  pose proof (round_half_even_near a) as Ha.
  pose proof (round_half_even_near b) as Hb.
  assert (inject_Z (round_half_even b) + 1 <= inject_Z (round_half_even a))
    as Hz.
  { change 1 with (inject_Z 1). rewrite <- inject_Z_plus, <- Zle_Qle. lia. }
  assert (a == b) as Heq by lra.
  rewrite (round_half_even_comp _ _ Heq). lia.
Qed.

Lemma pow2_pos (e : Z) : 0 < pow2 e.
Proof. by apply Qpower_0_lt. Qed.

Lemma pow2_plus (a b : Z) : pow2 (a + b) == pow2 a * pow2 b.
Proof. by apply Qpower_plus. Qed.

Lemma pow2_le (a b : Z) : (a <= b)%Z → pow2 a <= pow2 b.
Proof. intros. by apply Qpower_le_compat_l. Qed.

Lemma pow2_lt_inv (a b : Z) : pow2 a < pow2 b → (a < b)%Z.
Proof. intros. by eapply Qpower_lt_compat_l_inv. Qed.

Lemma pow2_Z (n : Z) : (0 <= n)%Z → pow2 n == inject_Z (2 ^ n).
Proof. intros. unfold pow2. by rewrite Zpower_Qpower. Qed.


Lemma ilog2_spec (q : Q) :
  0 < q → pow2 (ilog2 q) <= q < pow2 (ilog2 q + 1).
Proof.
  intros Hq. destruct q as [n d]. unfold ilog2. cbn [Qnum Qden].
  assert (0 < n)%Z as Hn by (unfold Qlt in Hq; simpl in Hq; lia).
  pose proof (Z.log2_spec n Hn) as [Hn1 Hn2].
  pose proof (Z.log2_spec (Z.pos d) ltac:(lia)) as [Hd1 Hd2].
  pose proof (Z.log2_nonneg n) as Ha. pose proof (Z.log2_nonneg (Z.pos d)) as Hb.
  set (a := Z.log2 n) in *. set (b := Z.log2 (Z.pos d)) in *.
  pose proof (Qmake_Qdiv n d) as Hnd.
  assert (0 < inject_Z (Z.pos d)) as Hdpos
    by (change 0 with (inject_Z 0); rewrite <- Zlt_Qlt; lia).
  assert ((n # d) * inject_Z (Z.pos d) == inject_Z n) as Hmul
    by (rewrite Hnd; field; lra).
  assert (pow2 a <= inject_Z n) as Hqa
    by (rewrite pow2_Z by lia; by rewrite <- Zle_Qle).
  assert (inject_Z n < pow2 (a + 1)) as Hqa'
    by (rewrite pow2_Z by lia; by rewrite <- Zlt_Qlt).
  assert (pow2 b <= inject_Z (Z.pos d)) as Hqb
    by (rewrite pow2_Z by lia; by rewrite <- Zle_Qle).
  assert (inject_Z (Z.pos d) < pow2 (b + 1)) as Hqb'
    by (rewrite pow2_Z by lia; by rewrite <- Zlt_Qlt).
  pose proof (pow2_pos b) as Hpb. pose proof (pow2_pos (b + 1)) as Hpb'.
  destruct (Qle_bool (pow2 (a - b)) (n # d)) eqn:Hle.
  - apply Qle_bool_iff in Hle. split; [done |].
    pose proof (pow2_plus (a - b + 1) b) as Hp.
    replace (a - b + 1 + b)%Z with (a + 1)%Z in Hp by lia.
    pose proof (pow2_pos (a - b + 1)) as Hpk.
    set (P := pow2 (a - b + 1)) in *. set (B := pow2 b) in *.
    set (D := inject_Z (Z.pos d)) in *. set (x := n # d) in *.
    apply Qnot_le_lt. intros Hge.
    assert (P * B <= x * D) by nra. lra.
  - assert (n # d < pow2 (a - b)) as Hlt.
    { apply Qnot_le_lt. intros H. apply Qle_bool_iff in H. congruence. }
    replace (a - b - 1 + 1)%Z with (a - b)%Z by lia. split; [| done].
    pose proof (pow2_plus (a - b - 1) (b + 1)) as Hp.
    replace (a - b - 1 + (b + 1))%Z with a in Hp by lia.
    pose proof (pow2_pos (a - b - 1)) as Hpk.
    set (P := pow2 (a - b - 1)) in *. set (B := pow2 (b + 1)) in *.
    set (D := inject_Z (Z.pos d)) in *. set (x := n # d) in *.
    apply Qnot_lt_le. intros Hge.
    assert (x * D < P * B) by nra. lra.
Qed.

Lemma ilog2_unique (q : Q) (k : Z) :
  pow2 k <= q → q < pow2 (k + 1) → ilog2 q = k.
Proof.
  intros Hlo Hhi.
  assert (0 < q) as Hq by (pose proof (pow2_pos k); lra).
  destruct (ilog2_spec q Hq) as [Hlo' Hhi'].
  assert (k < ilog2 q + 1)%Z by (apply pow2_lt_inv; lra).
  assert (ilog2 q < k + 1)%Z by (apply pow2_lt_inv; lra).
  lia.
Qed.

Lemma ilog2_mono (a b : Q) : 0 < a → a <= b → (ilog2 a <= ilog2 b)%Z.
Proof.
  intros Ha Hab.
  destruct (ilog2_spec a Ha) as [Hlo _].
  destruct (ilog2_spec b ltac:(lra)) as [_ Hhi].
  assert (ilog2 a < ilog2 b + 1)%Z by (apply pow2_lt_inv; lra).
  lia.
Qed.


Lemma ulp_exponent_mono (a b : Q) :
  0 < a → a <= b → (ulp_exponent a <= ulp_exponent b)%Z.
Proof.
  intros Ha Hab. unfold ulp_exponent.
  pose proof (ilog2_mono a b Ha Hab). lia.
Qed.

(** The significand: between 0 and 2^53, and at least 2^52 for a normal
    number. *)
Lemma significand_bounds (q : Q) :
  0 < q →
  let e := ulp_exponent q in
  let m := round_half_even (q / pow2 e) in
  (0 <= m <= 2 ^ 53)%Z ∧ ((-1074 < e)%Z → (2 ^ 52 <= m)%Z).
Proof.
  intros Hq e m.
  destruct (ilog2_spec q Hq) as [Hlo Hhi].
  pose proof (pow2_pos e) as He.
  assert (q / pow2 e * pow2 e == q) as Hx by (field; lra).
  set (x := q / pow2 e) in *.
  assert (0 <= x) as Hx0 by nra.
  assert (x <= inject_Z (2 ^ 53)) as Hx53.
  { rewrite <- pow2_Z by lia.
    pose proof (pow2_plus e 53) as Hp.
    assert (pow2 (ilog2 q + 1) <= pow2 (e + 53)) as Hle
      by (apply pow2_le; unfold e, ulp_exponent; lia).
    pose proof (pow2_pos 53). nra. }
  split.
  - split.
    + rewrite <- (round_half_even_Z 0). by apply round_half_even_mono.
    + rewrite <- (round_half_even_Z (2 ^ 53)). by apply round_half_even_mono.
  - intros Hnormal.
    rewrite <- (round_half_even_Z (2 ^ 52)). apply round_half_even_mono.
    rewrite <- pow2_Z by lia.
    pose proof (pow2_plus e 52) as Hp.
    assert (e + 52 = ilog2 q)%Z as Hk by (unfold e, ulp_exponent in *; lia).
    rewrite Hk in Hp. pose proof (pow2_pos 52). nra.
Qed.

Lemma round_positive_eq (q : Q) :
  round_positive q
  == inject_Z (round_half_even (q / pow2 (ulp_exponent q)))
     * pow2 (ulp_exponent q).
Proof. unfold round_positive. apply Qred_correct. Qed.

Lemma round_positive_nonneg (q : Q) : 0 < q → 0 <= round_positive q.
Proof.
  intros Hq. rewrite round_positive_eq.
  destruct (significand_bounds q Hq) as [[Hm _] _].
  apply Qmult_le_0_compat; [| apply Qlt_le_weak, pow2_pos].
  change 0 with (inject_Z 0). by rewrite <- Zle_Qle.
Qed.

Lemma round_positive_mono (a b : Q) :
  0 < a → a <= b → round_positive a <= round_positive b.
Proof.
  intros Ha Hab. rewrite !round_positive_eq.
  pose proof (ulp_exponent_mono a b Ha Hab) as He.
  destruct (significand_bounds a Ha) as [[_ Hma] _].
  destruct (significand_bounds b ltac:(lra)) as [[Hmb0 _] Hmb].
  cbv zeta in *.
  pose proof (pow2_pos (ulp_exponent a)) as Hpa.
  pose proof (pow2_pos (ulp_exponent b)) as Hpb.
  destruct (decide (ulp_exponent a = ulp_exponent b)) as [Heq | Hne].
  - rewrite Heq in *.
    apply Qmult_le_compat_r; [| lra].
    rewrite <- Zle_Qle. apply round_half_even_mono.
    assert (a / pow2 (ulp_exponent b) * pow2 (ulp_exponent b) == a) as Hxa
      by (field; lra).
    assert (b / pow2 (ulp_exponent b) * pow2 (ulp_exponent b) == b) as Hxb
      by (field; lra).
    set (xa := a / pow2 (ulp_exponent b)) in *.
    set (xb := b / pow2 (ulp_exponent b)) in *.
    apply Qnot_lt_le. intros Hlt. nra.
  - assert (-1074 < ulp_exponent b)%Z as Hnormal
      by (unfold ulp_exponent in *; lia).
    specialize (Hmb Hnormal).
    set (ma := round_half_even (a / pow2 (ulp_exponent a))) in *.
    set (mb := round_half_even (b / pow2 (ulp_exponent b))) in *.
    apply Qle_trans with (pow2 (ulp_exponent a + 53)).
    + rewrite pow2_plus, (pow2_Z 53) by lia.
      rewrite (Qmult_comm (pow2 _)).
      apply Qmult_le_compat_r; [by rewrite <- Zle_Qle | lra].
    + apply Qle_trans with (pow2 (ulp_exponent b + 52)).
      * apply pow2_le. lia.
      * rewrite pow2_plus, (pow2_Z 52) by lia.
        rewrite (Qmult_comm (pow2 _)).
        apply Qmult_le_compat_r; [by rewrite <- Zle_Qle | lra].
Qed.

Lemma Qdiv_eq (x y c : Q) : 0 < c → x == y * c → x / c == y.
Proof. intros Hc ->. field. lra. Qed.

(** A positive multiple of a power of two with at most 53 significant
    bits is a float. *)
Lemma round_positive_fixed (m e : Z) :
  (0 < m <= 2 ^ 53)%Z → (-1074 <= e)%Z →
  round_positive (inject_Z m * pow2 e) == inject_Z m * pow2 e.
Proof.
  intros Hm He. set (p := inject_Z m * pow2 e).
  pose proof (pow2_pos e) as Hpe.
  assert (1 <= inject_Z m) as Hm1
    by (change 1 with (inject_Z 1); rewrite <- Zle_Qle; lia).
  assert (inject_Z m <= pow2 53) as Hm53
    by (rewrite pow2_Z by lia; rewrite <- Zle_Qle; lia).
  assert (0 < p) as Hp by (unfold p; nra).
  assert (p <= pow2 (e + 53)) as Hp53
    by (rewrite pow2_plus; unfold p; pose proof (pow2_pos 53); nra).
  rewrite round_positive_eq.
  assert (∃ z, p / pow2 (ulp_exponent p) == inject_Z z) as [z Hz].
  { destruct (Qlt_le_dec p (pow2 (e + 53))) as [Hlt | Hge].
    - destruct (ilog2_spec p Hp) as [Hlo _].
      assert (ilog2 p < e + 53)%Z by (apply pow2_lt_inv; lra).
      assert (ulp_exponent p <= e)%Z by (unfold ulp_exponent; lia).
      exists (m * 2 ^ (e - ulp_exponent p))%Z.
      rewrite inject_Z_mult, <- pow2_Z by lia.
      pose proof (pow2_plus (e - ulp_exponent p) (ulp_exponent p)) as Hpp.
      replace (e - ulp_exponent p + ulp_exponent p)%Z with e in Hpp by lia.
      apply Qdiv_eq; [apply pow2_pos |].
      eapply Qeq_trans; [reflexivity |]. unfold p at 1.
      eapply Qeq_trans;
        [apply Qmult_comp; [reflexivity | exact Hpp] | ring].
    - assert (p == pow2 (e + 53)) as Heq by lra.
      assert (ilog2 p = e + 53)%Z as Hk.
      { apply ilog2_unique; [lra |].
        rewrite Heq. apply Qpower_lt_compat_l; [lia | done]. }
      assert (ulp_exponent p = e + 1)%Z as -> by (unfold ulp_exponent; lia).
      exists (2 ^ 52)%Z. rewrite <- pow2_Z by lia.
      rewrite Heq.
      pose proof (pow2_plus 52 (e + 1)) as Hpp.
      replace (52 + (e + 1))%Z with (e + 53)%Z in Hpp by lia.
      apply Qdiv_eq; [apply pow2_pos | lra]. }
  rewrite (round_half_even_comp _ _ Hz), round_half_even_Z, <- Hz.
  pose proof (pow2_pos (ulp_exponent p)). field. lra.
Qed.


Lemma binary64_cases (q : Q) :
  (q < 0 ∧ binary64 q = - round_positive (- q)) ∨
  (q == 0 ∧ binary64 q = 0) ∨
  (0 < q ∧ binary64 q = round_positive q).
Proof.
  unfold binary64. destruct (q ?= 0) eqn:Hc.
  - right. left. by apply Qeq_alt in Hc.
  - left. by apply Qlt_alt in Hc.
  - right. right. apply Qgt_alt in Hc. done.
Qed.

Lemma binary64_mono (a b : Q) : a <= b → binary64 a <= binary64 b.
Proof.
  intros Hab.
  destruct (binary64_cases a) as [[Ha ->] | [[Ha ->] | [Ha ->]]];
    destruct (binary64_cases b) as [[Hb ->] | [[Hb ->] | [Hb ->]]];
    try lra.
  - pose proof (round_positive_mono (- b) (- a)). lra.
  - pose proof (round_positive_nonneg (- a)). lra.
  - pose proof (round_positive_nonneg (- a)).
    pose proof (round_positive_nonneg b). lra.
  - pose proof (round_positive_nonneg b). lra.
  - by apply round_positive_mono.
Qed.

Lemma binary64_comp (a b : Q) : a == b → binary64 a == binary64 b.
Proof.
  intros Hab. apply Qle_antisym; apply binary64_mono; lra.
Qed.

Lemma binary64_nonneg (q : Q) : 0 <= q → 0 <= binary64 q.
Proof. intros Hq. apply (binary64_mono 0 q Hq). Qed.

Lemma binary64_opp (q : Q) : binary64 (- q) == - binary64 q.
Proof.
  destruct (binary64_cases q) as [[Hq ->] | [[Hq ->] | [Hq ->]]];
    destruct (binary64_cases (- q)) as [[Hn ->] | [[Hn ->] | [Hn ->]]];
    try lra.
  assert (- - q == q) as Hqq by ring.
  pose proof (round_positive_mono (- - q) q).
  pose proof (round_positive_mono q (- - q)). lra.
Qed.

(** A float is rounded to itself. *)
Lemma binary64_idem (q : Q) : binary64 (binary64 q) == binary64 q.
Proof.
  assert (∀ x, 0 < x → binary64 (round_positive x) == round_positive x)
    as Hpos.
  { intros x Hx.
    destruct (significand_bounds x Hx) as [[Hm0 Hm53] _]. cbv zeta in *.
    pose proof (round_positive_eq x) as Heq.
    set (m := round_half_even (x / pow2 (ulp_exponent x))) in *.
    rewrite (binary64_comp _ _ Heq), Heq.
    destruct (decide (m = 0%Z)) as [Hm | Hm].
    - assert (inject_Z m * pow2 (ulp_exponent x) == 0) as H0
        by (rewrite Hm; ring).
      by rewrite (binary64_comp _ _ H0), H0.
    - destruct (binary64_cases (inject_Z m * pow2 (ulp_exponent x)))
        as [[Hq _] | [[Hq _] | [Hq ->]]].
      + pose proof (pow2_pos (ulp_exponent x)).
        assert (1 <= inject_Z m)
          by (change 1 with (inject_Z 1); rewrite <- Zle_Qle; lia).
        nra.
      + pose proof (pow2_pos (ulp_exponent x)).
        assert (1 <= inject_Z m)
          by (change 1 with (inject_Z 1); rewrite <- Zle_Qle; lia).
        nra.
      + apply round_positive_fixed; [lia |]. unfold ulp_exponent. lia. }
  destruct (binary64_cases q) as [[Hq ->] | [[Hq ->] | [Hq ->]]].
  - rewrite binary64_opp. rewrite Hpos by lra. reflexivity.
  - reflexivity.
  - by apply Hpos.
Qed.

Lemma float_add_comp (a a' b b' : Q) :
  a == a' → b == b' → float_add a b == float_add a' b'.
Proof. intros Ha Hb. apply binary64_comp. by rewrite Ha, Hb. Qed.

Lemma float_add_mono_l (a a' b : Q) :
  a <= a' → float_add a b <= float_add a' b.
Proof. intros. apply binary64_mono. lra. Qed.

Lemma float_add_nonneg (a b : Q) : 0 <= a → 0 <= b → 0 <= float_add a b.
Proof. intros. apply binary64_nonneg. lra. Qed.

(** Adding a non-negative number to a float does not make it smaller. *)
Lemma float_add_ge (a b : Q) :
  binary64 a == a → 0 <= b → a <= float_add a b.
Proof.
  intros Ha Hb. unfold float_add.
  pose proof (binary64_mono a (a + b)). lra.
Qed.

End FloatFacts.
(** ** [compute_cost] and parent chains *)

Section CostFacts.
Context {config rng : Type}.
Variable env : PlanningEnv config rng.

Local Abbreviation dist := (compute_distance env).
Local Abbreviation cc := (chain_cost env).
Implicit Types (t : RRTTree config) (l : list (nat * config)).

Lemma root_path_head t v l :
  root_path t v l → ∃ x l', l = (v, x) :: l' ∧ vertices t !! v = Some x.
Proof. destruct 1; eauto. Qed.

Lemma root_path_unique t v l1 l2 :
  root_path t v l1 → root_path t v l2 → l1 = l2.
Proof.
  intros H. revert l2. induction H as [x Hx | v p x l Hv Hx Hp Hl IH];
    intros l2 H2; inversion H2; subst; try congruence.
  assert (p = p0) by congruence. subst p0.
  f_equal; [congruence | by apply IH].
Qed.

Lemma root_path_lookup t v l i x :
  root_path t v l → (i, x) ∈ l → vertices t !! i = Some x.
Proof.
  induction 1 as [y Hy | v p y l Hv Hy Hp Hl IH]; intros Hin.
  - apply list_elem_of_singleton in Hin. by inversion Hin; subst.
  - apply elem_of_cons in Hin as [Heq | Hin]; [by inversion Heq; subst | auto].
Qed.

Lemma root_path_has_root t v l :
  root_path t v l → 0 ∈ l.*1.
Proof.
  induction 1; simpl; [apply list_elem_of_here | by apply list_elem_of_further].
Qed.

(** The chain from any vertex met on a chain is a suffix of it. *)
Lemma root_path_suffix t v l u :
  root_path t v l → u ∈ l.*1 →
  ∃ pre x rest, l = pre ++ (u, x) :: rest ∧ root_path t u ((u, x) :: rest).
Proof.
  induction 1 as [y Hy | v p y l Hv Hy Hp Hl IH]; simpl; intros Hin.
  - apply list_elem_of_singleton in Hin. subst u.
    exists [], y, []. split; [done | by constructor].
  - apply elem_of_cons in Hin as [-> | Hin].
    + exists [], y, l. split; [done | by econstructor].
    + destruct (IH Hin) as (pre & x & rest & -> & Hu).
      exists ((v, y) :: pre), x, rest. done.
Qed.

Lemma root_path_NoDup t v l : root_path t v l → NoDup l.*1.
Proof.
  induction 1 as [x Hx | v p x l Hv Hx Hp Hl IH]; simpl.
  - apply NoDup_singleton.
  - apply NoDup_cons. split; [| done]. intros Hin.
    destruct (root_path_suffix _ _ _ _ Hl Hin) as (pre & x' & rest & -> & Hv').
    assert (Hv2 : root_path t v ((v, x) :: pre ++ (v, x') :: rest))
      by (by econstructor).
    pose proof (root_path_unique _ _ _ _ Hv' Hv2) as Heq.
    apply (f_equal length) in Heq. simpl in Heq.
    rewrite length_app in Heq. simpl in Heq. lia.
Qed.

(** A chain to the root visits no vertex twice, so it is no longer than
    the tree is large. *)
Lemma root_path_length t v l :
  root_path t v l → length l ≤ length (vertices t).
Proof.
  intros Hp.
  assert (l.*1 ⊆+ seq 0 (length (vertices t))) as Hsub.
  { apply NoDup_submseteq; [by eapply root_path_NoDup |].
    intros i Hi. apply elem_of_seq. split; [lia |]. simpl.
    apply list_elem_of_fmap in Hi as ([i' x] & -> & Hin).
    eapply lookup_lt_Some, root_path_lookup; eauto. }
  apply submseteq_length in Hsub.
  by rewrite length_fmap, length_seq in Hsub.
Qed.

Lemma chain_cost_cons2 acc a b (l : list config) :
  cc acc (a :: b :: l) = cc (float_add acc (dist a b)) (b :: l).
Proof. reflexivity. Qed.

(** The float sum grows with the value it starts from. *)
Lemma chain_cost_mono acc acc' (l : list config) :
  (acc <= acc')%Q → (cc acc l <= cc acc' l)%Q.
Proof.
  revert acc acc'. induction l as [| a l IH]; intros acc acc' Hle; [done |].
  destruct l as [| b l]; [done |].
  rewrite !chain_cost_cons2. by apply IH, float_add_mono_l.
Qed.

Lemma chain_cost_nonneg_acc acc (l : list config) :
  metric_nonneg env → (0 <= acc)%Q → (0 <= cc acc l)%Q.
Proof.
  intros Hnn. revert acc. induction l as [| a l IH]; intros acc Hacc; [done |].
  destruct l as [| b l]; [done |].
  rewrite chain_cost_cons2. by apply IH, float_add_nonneg.
Qed.

Lemma chain_cost_nonneg (l : list config) :
  metric_nonneg env → (0 <= cc 0 l)%Q.
Proof. intros Hnn. by apply chain_cost_nonneg_acc. Qed.

(** A float sum that starts from a float is a float. *)
Lemma chain_cost_float acc (l : list config) :
  (binary64 acc == acc)%Q → (binary64 (cc acc l) == cc acc l)%Q.
Proof.
  revert acc. induction l as [| a l IH]; intros acc Hacc; [done |].
  destruct l as [| b l]; [done |].
  rewrite chain_cost_cons2. apply IH. apply binary64_idem.
Qed.

Lemma chain_cost_app acc (pre : list config) x rest :
  cc acc (pre ++ x :: rest) = cc (cc acc (pre ++ [x])) (x :: rest).
Proof.
  revert acc. induction pre as [| a pre IH]; intros acc; [done |].
  destruct pre as [| b pre].
  - simpl app. by rewrite !chain_cost_cons2.
  - simpl app in *. rewrite !chain_cost_cons2. apply IH.
Qed.

(** With non-negative distances the cost of a vertex is at least the
    cost of every vertex on its chain. *)
Lemma chain_cost_suffix_le pre x rest :
  metric_nonneg env →
  (cc 0 (x :: rest) <= cc 0 (pre ++ x :: rest))%Q.
Proof.
  intros Hnn. rewrite chain_cost_app.
  by apply chain_cost_mono, chain_cost_nonneg.
Qed.

(** The loop follows the chain and returns its cost. *)
Lemma compute_cost_loop_path t v x l fuel acc :
  root_path t v ((v, x) :: l) → length l ≤ fuel →
  compute_cost_loop env fuel t v x acc = Ok (cc acc (x :: l.*2)).
Proof.
  revert v x l acc. induction fuel as [| fuel IH]; intros v x l acc Hp Hlen.
  - destruct l; [| simpl in Hlen; lia].
    inversion Hp; subst; [done |].
    match goal with H : root_path _ _ [] |- _ => inversion H end.
  - inversion Hp as [y Hy | v' p y l' Hv Hy Hpar Hl]; subst.
    + simpl. by destruct fuel.
    + destruct (root_path_head _ _ _ Hl) as (z & l'' & -> & Hz).
      simpl. rewrite decide_False by done.
      rewrite Hpar, Hz. simpl in Hlen.
      rewrite (IH p z l''); [done | done | lia].
Qed.

Lemma compute_cost_loop_ok t v x fuel acc c :
  vertices t !! v = Some x →
  compute_cost_loop env fuel t v x acc = Ok c →
  ∃ l, root_path t v ((v, x) :: l) ∧ length l ≤ fuel ∧
       c = cc acc (x :: l.*2).
Proof.
  revert v x acc. induction fuel as [| fuel IH]; intros v x acc Hx; simpl.
  - case_decide as Hv; [| done]. unfold GetRootID in Hv. subst v.
    intros [= <-]. exists []. split; [by constructor | done].
  - case_decide as Hv.
    + unfold GetRootID in Hv. subst v.
      intros [= <-]. exists []. split; [by constructor | simpl; split; [lia | done]].
    + destruct (edges t !! v) as [p |] eqn:Hp; [| done].
      destruct (vertices t !! p) as [y |] eqn:Hy; [| done].
      intros Hc. destruct (IH _ _ _ Hy Hc) as (l & Hl & Hlen & ->).
      exists ((p, y) :: l). split; [by econstructor |].
      split; [simpl; lia | done].
Qed.

Lemma compute_cost_path t v l fuel :
  root_path t v l → length l ≤ S fuel →
  compute_cost env fuel t v = Ok (cc 0 l.*2).
Proof.
  intros Hp Hlen. destruct (root_path_head _ _ _ Hp) as (x & l' & -> & Hx).
  unfold compute_cost. rewrite Hx.
  apply compute_cost_loop_path; [done | simpl in Hlen; lia].
Qed.

Lemma compute_cost_ok t v fuel c :
  compute_cost env fuel t v = Ok c →
  ∃ l, root_path t v l ∧ length l ≤ S fuel ∧ c = cc 0 l.*2.
Proof.
  unfold compute_cost. destruct (vertices t !! v) as [x |] eqn:Hx; [| done].
  intros Hc. destruct (compute_cost_loop_ok _ _ _ _ _ _ Hx Hc)
    as (l & Hl & Hlen & ->).
  exists ((v, x) :: l). split; [done |]. split; [simpl; lia | done].
Qed.

Lemma compute_cost_loop_not_cycle_detected fuel t v x acc :
  compute_cost_loop env fuel t v x acc ≠ Raise CycleDetected.
Proof.
  revert v x acc. induction fuel as [| fuel IH]; intros v x acc; simpl.
  - by case_decide.
  - case_decide; [done |].
    destruct (edges t !! v); [| done].
    destruct (vertices t !! _); [apply IH | done].
Qed.

End CostFacts.

(** ** The tree invariant under the planner's mutations *)

Section TreeFacts.
Context {config rng : Type}.
Variable env : PlanningEnv config rng.
Hypothesis dist_nonneg : metric_nonneg env.

Local Abbreviation dist := (compute_distance env).
Local Abbreviation cc := (chain_cost env).
Implicit Types (t : RRTTree config) (l : list (nat * config)).

(** A chain survives any change that leaves its own vertices and edges
    alone. *)
Lemma root_path_frame t t' u l :
  root_path t u l →
  (∀ i, i ∈ l.*1 → edges t' !! i = edges t !! i) →
  (∀ i x, vertices t !! i = Some x → vertices t' !! i = Some x) →
  root_path t' u l.
Proof.
  induction 1 as [x Hx | v p x l Hv Hx Hp Hl IH]; intros He Hvs.
  - constructor. auto.
  - econstructor; eauto.
    + rewrite He; [done | simpl; apply list_elem_of_here].
    + apply IH; [| done]. intros i Hi. apply He. simpl.
      by apply list_elem_of_further.
Qed.

Lemma root_path_ids_lt t u l i :
  root_path t u l → i ∈ l.*1 → i < length (vertices t).
Proof.
  intros Hp Hi. apply list_elem_of_fmap in Hi as ([i' x] & -> & Hin).
  eapply lookup_lt_Some, root_path_lookup; eauto.
Qed.

(** The invariant only reads the vertices and the edges. *)
Lemma tree_ok_ext t t' :
  vertices t' = vertices t → edges t' = edges t → tree_ok t → tree_ok t'.
Proof.
  intros Hv He [Hroot Hfree Hedges Hreach].
  split; rewrite ?Hv, ?He; try done.
  intros v Hlt. destruct (Hreach v Hlt) as [l Hl]. exists l.
  eapply root_path_frame; [done | |].
  - intros. by rewrite He.
  - intros. by rewrite Hv.
Qed.

Lemma tree_ok_seed (start_config : config) cost t :
  vertices t = [] → edges t = ∅ →
  tree_ok (snd (AddVertex start_config cost t)).
Proof.
  intros Hv He. split; simpl; rewrite ?Hv, ?He; simpl.
  - lia.
  - done.
  - intros v p Hl. by rewrite lookup_empty in Hl.
  - intros v Hlt. assert (v = 0) as -> by lia.
    exists [(0, start_config)]. constructor. simpl. by rewrite ?Hv.
Qed.

(** Lines 82-85 when [branch_id] is the id of the new vertex. *)
Lemma tree_ok_insert t x_min_id (x_min x_new : config) :
  tree_ok t → x_min_id < length (vertices t) →
  tree_ok (insert_vertex env x_min_id x_min x_new (length (vertices t)) t).
Proof.
  intros [Hroot Hfree Hedges Hreach] Hlt.
  assert (Hold : ∀ u l, root_path t u l →
    root_path (insert_vertex env x_min_id x_min x_new
                 (length (vertices t)) t) u l).
  { intros u l Hp. eapply root_path_frame; [done | |].
    - intros i Hi. simpl. apply lookup_insert_ne.
      pose proof (root_path_ids_lt _ _ _ _ Hp Hi). lia.
    - intros i x Hx. simpl. by apply lookup_app_l_Some. }
  split; simpl.
  - rewrite length_app. lia.
  - rewrite lookup_insert_ne by lia. done.
  - intros v p. rewrite length_app. simpl.
    destruct (decide (length (vertices t) = v)) as [<- | Hne].
    + rewrite lookup_insert_eq. intros [= <-]. lia.
    + rewrite lookup_insert_ne by done. intros Hl.
      destruct (Hedges _ _ Hl). lia.
  - intros v. rewrite length_app. simpl. intros Hv.
    destruct (decide (v = length (vertices t))) as [-> | Hne].
    + destruct (Hreach _ Hlt) as [lp Hlp]. apply Hold in Hlp.
      exists ((length (vertices t), x_new) :: lp).
      econstructor; [lia | | | exact Hlp].
      * simpl. rewrite lookup_app_r by lia.
        by rewrite Nat.sub_diag.
      * simpl. apply lookup_insert_eq.
    + destruct (Hreach v) as [l Hl]; [lia |]. eauto.
Qed.

(** Re-parenting [v] to [n] keeps the invariant when [v] is not on the
    chain from [n] to the root. *)
Lemma tree_ok_reparent t n v ln :
  tree_ok t → root_path t n ln → v ∉ ln.*1 →
  v < length (vertices t) →
  tree_ok (AddEdge n v t).
Proof.
  intros [Hroot Hfree Hedges Hreach] Hn Hv Hlt.
  assert (v ≠ 0) as Hv0.
  { intros ->. apply Hv. eapply root_path_has_root; eauto. }
  assert (Hn' : root_path (AddEdge n v t) n ln).
  { eapply root_path_frame; [done | | done].
    intros i Hi. simpl. apply lookup_insert_ne. intros ->. done. }
  split; simpl.
  - done.
  - by rewrite lookup_insert_ne.
  - intros u p. destruct (decide (v = u)) as [<- | Hne].
    + rewrite lookup_insert_eq. intros [= <-]. split; [done |].
      destruct (root_path_head _ _ _ Hn) as (x & l' & _ & Hx).
      by eapply lookup_lt_Some.
    + rewrite lookup_insert_ne by done. apply Hedges.
  - intros u Hu. destruct (Hreach u Hu) as [l Hl].
    clear Hu. induction Hl as [x Hx | u p x l Hu0 Hx Hp Hl IH].
    + exists [(0, x)]. by constructor.
    + destruct (decide (u = v)) as [-> | Hne].
      * exists ((v, x) :: ln). econstructor; eauto.
        simpl. apply lookup_insert_eq.
      * destruct IH as [l' Hl'].
        exists ((u, x) :: l'). econstructor; eauto.
        simpl. by rewrite lookup_insert_ne.
Qed.

(** The rewiring test fails for every vertex on the chain of the new
    vertex: its cost is a part of the new vertex's cost. *)
Lemma rewire_test_off_chain t fuel n v c_new c_near d ln :
  compute_cost env fuel t n = Ok c_new →
  compute_cost env fuel t v = Ok c_near →
  (0 <= d)%Q → (float_add c_new d < c_near)%Q →
  root_path t n ln → v ∉ ln.*1.
Proof.
  intros Hcn Hcv Hd Hlt Hn Hin.
  destruct (compute_cost_ok _ _ _ _ _ Hcn) as (ln' & Hn' & _ & ->).
  rewrite (root_path_unique _ _ _ _ Hn' Hn) in *. clear Hn'.
  destruct (compute_cost_ok _ _ _ _ _ Hcv) as (lv & Hlv & _ & ->).
  destruct (root_path_suffix _ _ _ _ Hn Hin) as (pre & x & rest & -> & Hv).
  rewrite (root_path_unique _ _ _ _ Hlv Hv) in Hlt.
  rewrite fmap_app, !fmap_cons in Hlt.
  pose proof (chain_cost_suffix_le env pre.*2 x rest.*2 dist_nonneg).
  pose proof (float_add_ge (cc 0 (pre.*2 ++ x :: rest.*2)) d
                (chain_cost_float env 0 _ (binary64_idem 0)) Hd).
  cbn [snd] in Hlt. lra.
Qed.

Lemma compute_cost_ok_lt t fuel v c :
  compute_cost env fuel t v = Ok c → v < length (vertices t).
Proof.
  unfold compute_cost. destruct (vertices t !! v) eqn:E; [| done].
  intros _. by eapply lookup_lt_Some.
Qed.

Lemma rewire_step_vertices fuel n (x_new : config) nb t :
  vertices (snd (rewire_step env fuel n x_new nb t)) = vertices t.
Proof.
  unfold rewire_step. destruct nb as [v xv].
  repeat (case_match; simpl; try done).
Qed.

Lemma tree_ok_rewire_step fuel n (x_new : config) nb t :
  tree_ok t → tree_ok (snd (rewire_step env fuel n x_new nb t)).
Proof.
  intros Hok. unfold rewire_step. destruct nb as [v xv].
  destruct (edge_validity_checker env x_new xv); [| done].
  destruct (compute_cost env fuel t n) as [c_new | |] eqn:Hcn; [| done ..].
  destruct (compute_cost env fuel t v) as [c_near | |] eqn:Hcv; [| done ..].
  destruct (Qltb _ _) eqn:Hlt; [| done]. simpl.
  apply Qltb_lt in Hlt.
  destruct (ok_reach _ Hok n) as [ln Hn];
    [by eapply compute_cost_ok_lt |].
  eapply tree_ok_reparent; [done | exact Hn | | by eapply compute_cost_ok_lt].
  eapply (rewire_test_off_chain t fuel n v c_new c_near (dist xv x_new));
    eauto.
Qed.

Lemma rewire_vertices fuel n (x_new : config) near t :
  vertices (snd (rewire env fuel n x_new near t)) = vertices t.
Proof.
  revert t. induction near as [| nb near IH]; intros t; simpl; [done |].
  pose proof (rewire_step_vertices fuel n x_new nb t) as Hs.
  destruct (rewire_step env fuel n x_new nb t) as [[[] | e |] t'];
    simpl in *; [| done ..].
  by rewrite IH.
Qed.

Lemma tree_ok_rewire fuel n (x_new : config) near t :
  tree_ok t → tree_ok (snd (rewire env fuel n x_new near t)).
Proof.
  revert t. induction near as [| nb near IH]; intros t Hok; simpl; [done |].
  pose proof (tree_ok_rewire_step fuel n x_new nb t Hok) as Hs.
  destruct (rewire_step env fuel n x_new nb t) as [[[] | e |] t'];
    simpl in *; [| done ..].
  by apply IH.
Qed.

(** The parent picked by the selection loop has a computed cost, hence is
    an inserted vertex. *)
Lemma select_parent_has_cost fuel t (x_new : config) near id0 x0 c0 id x c :
  select_parent env fuel t x_new near id0 x0 c0 = Ok (id, x, c) →
  (∃ c', compute_cost env fuel t id0 = Ok c') →
  ∃ c', compute_cost env fuel t id = Ok c'.
Proof.
  revert id0 x0 c0. induction near as [| [v xv] near IH];
    intros id0 x0 c0; simpl.
  - intros [= <- <- <-]. done.
  - destruct (edge_validity_checker env x_new xv); [| apply IH].
    destruct (compute_cost env fuel t v) as [cv | |] eqn:Hcv; simpl;
      [| done ..].
    destruct (Qltb _ _); [| apply IH].
    intros Hs _. eapply IH; eauto.
Qed.

(** Lines 70-90 keep the invariant when [branch_id] is the next free id;
    a completed round adds exactly one vertex. *)
Lemma tree_ok_connect fuel rad id0 (x0 x_new : config) t :
  tree_ok t →
  let r := connect env fuel (length (vertices t)) rad id0 x0 x_new t in
  tree_ok (snd r) ∧
  (∀ u, fst r = Ok u → length (vertices (snd r)) = S (length (vertices t))) ∧
  (length (vertices t) ≤ length (vertices (snd r))).
Proof.
  intros Hok. unfold connect.
  destruct (compute_cost env fuel t id0) as [c0 | |] eqn:Hc0; simpl;
    [| by (split; [| split]) ..].
  destruct (select_parent _ _ _ _ _ _ _ _) as [[[id x] c] | |] eqn:Hs; simpl;
    [| by (split; [| split]) ..].
  destruct (select_parent_has_cost _ _ _ _ _ _ _ _ _ _ Hs) as [c' Hc'];
    [eauto |].
  apply compute_cost_ok_lt in Hc'.
  split; [| split].
  - by apply tree_ok_rewire, tree_ok_insert.
  - intros _ _. rewrite rewire_vertices. simpl. rewrite length_app. simpl. lia.
  - rewrite rewire_vertices. simpl. rewrite length_app. lia.
Qed.

(** Acyclicity: along a parent edge the chain to the root gets
    shorter. *)
Lemma ancestor_shorter t v a l :
  tree_ok t → ancestor t v a → root_path t v l →
  ∃ la, root_path t a la ∧ length la < length l.
Proof.
  intros Hok Hanc. revert l.
  induction Hanc as [v p Hp | v p a Hp Hanc IH]; intros l Hl.
  - inversion Hl as [x Hx | v' p' x l' Hv Hx Hp' Hl']; subst.
    + unfold parent_of in Hp. rewrite (ok_root_free _ Hok) in Hp. done.
    + unfold parent_of in Hp. assert (p' = p) as -> by congruence.
      exists l'. split; [done | simpl; lia].
  - inversion Hl as [x Hx | v' p' x l' Hv Hx Hp' Hl']; subst.
    + unfold parent_of in Hp. rewrite (ok_root_free _ Hok) in Hp. done.
    + unfold parent_of in Hp. assert (p' = p) as -> by congruence.
      destruct (IH _ Hl') as (la & Hla & Hlen).
      exists la. split; [done | simpl; lia].
Qed.

Lemma tree_ok_is_tree t : tree_ok t → is_tree t.
Proof.
  intros Hok. pose proof Hok as [Hroot Hfree Hedges Hreach].
  split; [done |]. split; [done |]. split; [done |]. split; [| done].
  intros v Hanc.
  assert (is_Some (edges t !! v)) as [p Hp].
  { inversion Hanc; subst; unfold parent_of in *; eauto. }
  destruct (Hreach v) as [l Hl]; [by destruct (Hedges _ _ Hp) |].
  destruct (ancestor_shorter _ _ _ _ Hok Hanc Hl) as (la & Hla & Hlen).
  rewrite (root_path_unique _ _ _ _ Hla Hl) in Hlen. lia.
Qed.

Lemma is_tree_tree_ok t : is_tree t → tree_ok t.
Proof. intros (? & ? & ? & ? & ?). by split. Qed.

End TreeFacts.

(** ** The invariant along [Plan] *)

Section PlanInvariant.
Context {config rng : Type} `{EqDecision config}.
Variable env : PlanningEnv config rng.
Variable numpy : NumpyRandom rng.
Variables (bias eta : Q) (max_iter : nat).
Variables polar_step_2d polar_step_3d : config → config → Q → config.
Hypothesis dist_nonneg : metric_nonneg env.

Local Abbreviation St := (state config rng).
Local Abbreviation grow' :=
  (grow env numpy bias eta polar_step_2d polar_step_3d).
Local Abbreviation grow_loop' :=
  (grow_loop env numpy bias eta polar_step_2d polar_step_3d).
Local Abbreviation Plan' :=
  (Plan env numpy bias eta max_iter polar_step_2d polar_step_3d).

Lemma sample_tree goal (s : St) :
  tree (snd (sample env numpy bias goal s)) = tree s.
Proof.
  unfold sample. destruct (np_random_uniform numpy _) as [u r].
  destruct (Qltb u bias); [done |]. by destruct (env_sample env r).
Qed.

Lemma sample_until_valid_tree fuel goal (s : St) :
  tree (snd (sample_until_valid env numpy bias fuel goal s)) = tree s.
Proof.
  revert s. induction fuel as [| fuel IH]; intros s; simpl; [done |].
  unfold bind at 1. pose proof (sample_tree goal s) as Hs.
  destruct (sample env numpy bias goal s) as [[x_rand | e |] s1];
    simpl in *; [| done ..].
  unfold bind, get_tree, lift. simpl.
  destruct (nearest_vertex env (tree s1) x_rand) as [[id x] | e |];
    simpl; [| done ..].
  destruct (edge_validity_checker env x_rand x); simpl; [done |].
  by rewrite IH.
Qed.

(** One round of the loop, started with [branch_id] the next free id. *)
Lemma grow_tree_ok fuel goal rad (s s' : St) o :
  tree_ok (tree s) →
  grow' fuel (length (vertices (tree s))) goal rad s = (o, s') →
  tree_ok (tree s') ∧
  (o = Ok tt →
     length (vertices (tree s')) = S (length (vertices (tree s)))).
Proof.
  intros Hok. unfold grow. unfold bind at 1.
  pose proof (sample_until_valid_tree fuel goal s) as Hs.
  destruct (sample_until_valid env numpy bias fuel goal s)
    as [[[[x_rand id] x_nearest] | e |] s1]; simpl in Hs;
    [| intros [= <- <-]; by rewrite Hs ..].
  unfold bind, lift.
  destruct (extend env eta polar_step_2d polar_step_3d x_nearest x_rand)
    as [x_new | e |]; [| intros [= <- <-]; by rewrite Hs ..].
  unfold on_tree. rewrite <- Hs in Hok |- *.
  destruct (tree_ok_connect env dist_nonneg fuel rad id x_nearest x_new
              (tree s1) Hok) as (Hok' & Hlen & _).
  destruct (connect _ _ _ _ _ _ _ _) as [o' t']. simpl in *.
  intros [= <- <-]. simpl. split; [done |]. intros ->. eauto.
Qed.

Lemma grow_loop_tree_ok fuel n goal rad (s : St) :
  tree_ok (tree s) →
  tree_ok (tree (snd
    (grow_loop' fuel n (length (vertices (tree s))) goal rad s))).
Proof.
  revert s. induction n as [| n IH]; intros s Hok; simpl; [done |].
  unfold bind at 1.
  destruct (grow' fuel _ goal rad s) as [o s1] eqn:Hg.
  destruct (grow_tree_ok _ _ _ _ _ _ Hok Hg) as [Hok1 Hlen].
  destruct o as [[] | e |]; [| done ..].
  rewrite <- (Hlen eq_refl).
  case_decide; [| by apply IH].
  unfold bind, get_tree, lift. simpl.
  destruct (nearest_vertex env (tree s1) goal) as [[id x] | e |];
    simpl; [| done ..].
  destruct (goal_criterion env x); [done | by apply IH].
Qed.

Lemma Plan_tree_ok fuel start_config goal_config rad (s : St) :
  vertices (tree s) = [] → edges (tree s) = ∅ →
  tree_ok (tree (snd (Plan' fuel start_config goal_config rad s))).
Proof.
  intros Hv He. unfold Plan. unfold bind at 1. unfold on_tree at 1.
  cbn [fst snd].
  pose proof (tree_ok_seed start_config 0%Q (tree s) Hv He) as Hok.
  set (s0 := {| tree := snd (AddVertex start_config 0 (tree s));
                np_random := np_random s |}) in *.
  assert (length (vertices (tree s0)) = 1) as Hlen.
  { simpl. rewrite Hv. done. }
  pose proof (grow_loop_tree_ok fuel max_iter goal_config rad s0 Hok) as Hg.
  rewrite Hlen in Hg. unfold bind at 1.
  destruct (grow_loop' fuel max_iter 1 goal_config rad s0)
    as [[early | e |] s1]; simpl in *; [| done ..].
  unfold bind at 1, get_tree at 1. unfold bind at 1, lift at 1.
  destruct (nearest_vertex env (tree s1) goal_config) as [[id x] | e |];
    simpl; [| done ..].
  assert (∀ c, tree_ok {| vertices := vertices (tree s1);
                          edges := edges (tree s1);
                          path_cost := c |}) as Hset.
  { intros c. eapply tree_ok_ext; [| | exact Hg]; done. }
  destruct (goal_criterion env x); [| destruct early].
  all: unfold bind, lift, ret, raise, set_path_cost; simpl.
  all: try destruct (walk_to_start _ _ _ _ _ _) as [p | e |]; simpl; done.
Qed.

End PlanInvariant.

(** ** Neighbour query and parent selection *)

Section SelectFacts.
Context {config rng : Type}.
Variable env : PlanningEnv config rng.

Local Abbreviation dist := (compute_distance env).
Local Abbreviation valid := (edge_validity_checker env).
Implicit Types (t : RRTTree config) (near : list (nat * config)).

Lemma rad_scan_elem q rad (vs : list config) i v xv :
  (v, xv) ∈ rad_scan env q rad vs i ↔
  ∃ j, v = i + j ∧ vs !! j = Some xv ∧ (dist q xv <= rad)%Q.
Proof.
  revert i. induction vs as [| x vs IH]; intros i; simpl.
  - split; [intros Hin; by apply elem_of_nil in Hin |].
    intros (j & _ & Hj & _). done.
  - destruct (Qle_bool (dist q x) rad) eqn:Hle.
    + rewrite elem_of_cons, IH. split.
      * intros [[= -> ->] | (j & -> & Hj & Hd)].
        -- exists 0. rewrite Nat.add_0_r. by apply Qle_bool_iff in Hle.
        -- exists (S j). split; [lia | done].
      * intros ([| j] & -> & Hj & Hd); simpl in Hj.
        -- left. rewrite Nat.add_0_r. congruence.
        -- right. exists j. split; [lia | done].
    + rewrite IH. split.
      * intros (j & -> & Hj & Hd). exists (S j). split; [lia | done].
      * intros ([| j] & -> & Hj & Hd); simpl in Hj.
        -- injection Hj as ->. apply Qle_bool_iff in Hd. congruence.
        -- exists j. split; [lia | done].
Qed.

Lemma rad_scan_NoDup q rad (vs : list config) i :
  NoDup (rad_scan env q rad vs i).*1.
Proof.
  revert i. induction vs as [| x vs IH]; intros i; simpl.
  - apply NoDup_nil_2.
  - destruct (Qle_bool (dist q x) rad); [| apply IH].
    simpl. apply NoDup_cons. split; [| apply IH].
    intros Hin. apply list_elem_of_fmap in Hin as ([v xv] & Hv & Hin).
    simpl in Hv. subst v.
    apply rad_scan_elem in Hin as (j & Hj & _). lia.
Qed.

Lemma GetNNInRad_elem t q rad v xv :
  (v, xv) ∈ GetNNInRad env t q rad ↔
  vertices t !! v = Some xv ∧ (dist q xv <= rad)%Q.
Proof.
  unfold GetNNInRad. rewrite rad_scan_elem. split.
  - intros (j & -> & Hj & Hd). done.
  - intros [Hv Hd]. exists v. done.
Qed.

Lemma GetNNInRad_NoDup t q rad : NoDup (GetNNInRad env t q rad).*1.
Proof. apply rad_scan_NoDup. Qed.

(** What the selection loop returns: the starting candidate or a
    neighbour with a valid edge, its cost, and that no neighbour with a
    valid edge does better. *)
Lemma select_parent_spec fuel t (x_new : config) near id0 x0 c0 id x c :
  select_parent env fuel t x_new near id0 x0 c0 = Ok (id, x, c) →
  ((id, x, c) = (id0, x0, c0) ∨
   ((id, x) ∈ near ∧ valid x_new x = true ∧
    ∃ c', compute_cost env fuel t id = Ok c' ∧ c = float_add c' (dist x x_new))) ∧
  (c <= c0)%Q ∧
  (∀ v xv, (v, xv) ∈ near → valid x_new xv = true →
     ∃ cv, compute_cost env fuel t v = Ok cv ∧ (c <= float_add cv (dist xv x_new))%Q).
Proof.
  revert id0 x0 c0. induction near as [| [v xv] near IH];
    intros id0 x0 c0; simpl.
  - intros [= <- <- <-]. split; [by left |]. split; [apply Qle_refl |].
    intros v xv Hin. by apply elem_of_nil in Hin.
  - destruct (valid x_new xv) eqn:Hval.
    + destruct (compute_cost env fuel t v) as [cv | |] eqn:Hcv; simpl;
        [| done ..].
      destruct (Qltb (float_add cv (dist xv x_new)) c0) eqn:Hlt.
      * intros Hs. destruct (IH _ _ _ Hs) as (Hwho & Hle & Hall).
        apply Qltb_lt in Hlt.
        split; [| split].
        -- right. destruct Hwho as [[= -> -> ->] | (Hin & Hv & Hc)].
           ++ split; [apply list_elem_of_here |]. eauto.
           ++ split; [by apply list_elem_of_further | done].
        -- lra.
        -- intros u xu Hin Hu.
           apply elem_of_cons in Hin as [[= -> ->] | Hin]; [| eauto].
           exists cv. done.
      * intros Hs. destruct (IH _ _ _ Hs) as (Hwho & Hle & Hall).
        apply Qltb_ge in Hlt.
        split; [| split].
        -- destruct Hwho as [Heq | (Hin & Hv & Hc)]; [by left |].
           right. split; [by apply list_elem_of_further | done].
        -- done.
        -- intros u xu Hin Hu.
           apply elem_of_cons in Hin as [[= -> ->] | Hin]; [| eauto].
           exists cv. split; [done | lra].
    + intros Hs. destruct (IH _ _ _ Hs) as (Hwho & Hle & Hall).
      split; [| split].
      * destruct Hwho as [Heq | (Hin & Hv & Hc)]; [by left |].
        right. split; [by apply list_elem_of_further | done].
      * done.
      * intros u xu Hin Hu.
        apply elem_of_cons in Hin as [[= -> ->] | Hin]; [congruence | eauto].
Qed.

Lemma select_parent_returns fuel t (x_new : config) near id0 x0 c0 :
  (∀ v xv, (v, xv) ∈ near → ∃ cv, compute_cost env fuel t v = Ok cv) →
  ∃ r, select_parent env fuel t x_new near id0 x0 c0 = Ok r.
Proof.
  revert id0 x0 c0. induction near as [| [v xv] near IH];
    intros id0 x0 c0 Hall; simpl; [eauto |].
  assert (∀ v xv, (v, xv) ∈ near → ∃ cv, compute_cost env fuel t v = Ok cv)
    as Hall' by (intros; eapply Hall; by apply list_elem_of_further).
  destruct (valid x_new xv); [| by apply IH].
  destruct (Hall v xv) as [cv ->]; [apply list_elem_of_here |]. simpl.
  destruct (Qltb _ _); by apply IH.
Qed.

(** The starting candidate stays when no neighbour with a valid edge is
    strictly cheaper. *)
Lemma select_parent_keeps fuel t (x_new : config) near id0 x0 c0 :
  (∀ v xv, (v, xv) ∈ near → valid x_new xv = true →
     ∃ cv, compute_cost env fuel t v = Ok cv ∧
           (c0 <= float_add cv (dist xv x_new))%Q) →
  select_parent env fuel t x_new near id0 x0 c0 = Ok (id0, x0, c0).
Proof.
  induction near as [| [v xv] near IH]; intros Hall; simpl; [done |].
  assert (select_parent env fuel t x_new near id0 x0 c0 = Ok (id0, x0, c0))
    as Hrest.
  { apply IH. intros u xu Hin. apply Hall. by apply list_elem_of_further. }
  destruct (valid x_new xv) eqn:Hval; [| done].
  destruct (Hall v xv (list_elem_of_here _ _) Hval) as (cv & -> & Hle).
  simpl. by rewrite (proj2 (Qltb_ge _ _) Hle).
Qed.

(** On a well-formed tree every inserted vertex has a cost, found within
    as many rounds as the tree has vertices. *)
Lemma compute_cost_returns fuel t v :
  tree_ok t → v < length (vertices t) → length (vertices t) ≤ S fuel →
  ∃ c, compute_cost env fuel t v = Ok c.
Proof.
  intros Hok Hv Hfuel. destruct (ok_reach _ Hok v Hv) as [l Hl].
  exists (chain_cost env 0 l.*2). apply compute_cost_path; [done |].
  pose proof (root_path_length _ _ _ Hl). lia.
Qed.

End SelectFacts.

(** ** The rewiring loop *)

Section RewireFacts.
Context {config rng : Type}.
Variable env : PlanningEnv config rng.
Hypothesis dist_nonneg : metric_nonneg env.

Local Abbreviation dist := (compute_distance env).
Local Abbreviation valid := (edge_validity_checker env).
Local Abbreviation cc := (chain_cost env).
Implicit Types (t : RRTTree config) (near : list (nat * config)).

Lemma rewire_step_edges_other fuel n (x_new : config) nb t u :
  u ≠ fst nb →
  edges (snd (rewire_step env fuel n x_new nb t)) !! u = edges t !! u.
Proof.
  intros Hne. unfold rewire_step. destruct nb as [v xv].
  repeat (case_match; simpl; try done).
  by apply lookup_insert_ne.
Qed.

Lemma rewire_edges_other fuel n (x_new : config) near t u :
  u ∉ near.*1 →
  edges (snd (rewire env fuel n x_new near t)) !! u = edges t !! u.
Proof.
  revert t. induction near as [| nb near IH]; intros t Hu; [done |].
  rewrite fmap_cons in Hu. apply not_elem_of_cons in Hu as [Hne Hu].
  pose proof (rewire_step_edges_other fuel n x_new nb t u Hne) as Hs.
  cbn [rewire].
  destruct (rewire_step env fuel n x_new nb t) as [[[] | e |] t'];
    simpl in *; [| done ..].
  by rewrite IH.
Qed.

(** A completed loop over [pre ++ nb :: post] is a completed loop over
    [pre], a completed round for [nb], and a completed loop over
    [post]. *)
Lemma rewire_split fuel n (x_new : config) pre nb post t t_fin :
  rewire env fuel n x_new (pre ++ nb :: post) t = (Ok tt, t_fin) →
  ∃ t_v t_v',
    rewire env fuel n x_new pre t = (Ok tt, t_v) ∧
    rewire_step env fuel n x_new nb t_v = (Ok tt, t_v') ∧
    rewire env fuel n x_new post t_v' = (Ok tt, t_fin).
Proof.
  revert t. induction pre as [| nb' pre IH]; intros t; cbn [rewire app].
  - destruct (rewire_step env fuel n x_new nb t) as [[[] | e |] t'] eqn:Hs;
      [| done ..].
    intros Hr. eauto.
  - destruct (rewire_step env fuel n x_new nb' t) as [[[] | e |] t'] eqn:Hs;
      [| done ..].
    intros Hr. destruct (IH _ Hr) as (t_v & t_v' & H1 & H2 & H3). eauto.
Qed.

(** A completed round re-parents its neighbour exactly when the test of
    line 89 holds. *)
Lemma rewire_step_cases fuel n (x_new : config) v xv t t' :
  rewire_step env fuel n x_new (v, xv) t = (Ok tt, t') →
  (rewire_test env fuel t n x_new (v, xv) ∧ t' = AddEdge n v t) ∨
  (¬ rewire_test env fuel t n x_new (v, xv) ∧ t' = t).
Proof.
  unfold rewire_step, rewire_test. simpl.
  destruct (valid x_new xv) eqn:Hval.
  - destruct (compute_cost env fuel t n) as [c_new | |] eqn:Hcn; [| done ..].
    destruct (compute_cost env fuel t v) as [c_near | |] eqn:Hcv;
      [| done ..].
    destruct (Qltb _ _) eqn:Hlt; intros [= <-].
    + left. apply Qltb_lt in Hlt. split; [| done].
      split; [done |]. eauto.
    + right. apply Qltb_ge in Hlt. split; [| done].
      intros (_ & c1 & c2 & [= <-] & [= <-] & Hlt'). lra.
  - intros [= <-]. right. split; [| done]. intros [? _]. done.
Qed.

(** Right after re-parenting [v] under [n]: the chain of [n] is the one
    it was, the chain of [v] is [v] followed by it, and the costs are the
    float sums along these chains. *)
Lemma reparent_chain fuel t n v (x_new xv : config) c_new c_near :
  vertices t !! n = Some x_new → vertices t !! v = Some xv →
  compute_cost env fuel t n = Ok c_new →
  compute_cost env fuel t v = Ok c_near →
  (float_add c_new (dist xv x_new) < c_near)%Q →
  ∃ ln, root_path t n ln ∧
        root_path (AddEdge n v t) n ln ∧
        root_path (AddEdge n v t) v ((v, xv) :: ln) ∧
        compute_cost env (S fuel) (AddEdge n v t) n = Ok c_new ∧
        compute_cost env (S fuel) (AddEdge n v t) v
          = Ok (cc 0 (xv :: ln.*2)).
Proof.
  intros Hxn Hxv Hcn Hcv Hlt.
  destruct (compute_cost_ok _ _ _ _ _ Hcn) as (ln & Hn & Hlen & Hc).
  assert (v ∉ ln.*1) as Hoff.
  { eapply (rewire_test_off_chain env dist_nonneg t fuel n v c_new c_near
              (dist xv x_new)); eauto. }
  assert (v ≠ 0) as Hv0.
  { intros ->. apply Hoff. eapply root_path_has_root; eauto. }
  assert (Hn' : root_path (AddEdge n v t) n ln).
  { eapply root_path_frame; [done | | done].
    intros i Hi. simpl. apply lookup_insert_ne. intros ->. done. }
  assert (Hv' : root_path (AddEdge n v t) v ((v, xv) :: ln)).
  { econstructor; [done | done | | done]. simpl. apply lookup_insert_eq. }
  exists ln. split; [done |]. split; [done |]. split; [done |]. split.
  - rewrite Hc. apply compute_cost_path; [done | lia].
  - change (xv :: ln.*2) with (((v, xv) :: ln).*2).
    apply compute_cost_path; [done | simpl; lia].
Qed.

(** The parent of the new vertex never passes the test. *)
Lemma parent_fails_rewire_test fuel t n p (x_new xp : config) :
  n ≠ 0 → edges t !! n = Some p →
  ¬ rewire_test env fuel t n x_new (p, xp).
Proof.
  intros Hn0 Hp (_ & c_new & c_near & Hcn & Hcv & Hlt). simpl in *.
  destruct (compute_cost_ok _ _ _ _ _ Hcn) as (ln & Hn & _ & _).
  eapply (rewire_test_off_chain env dist_nonneg t fuel n p c_new c_near
            (dist xp x_new)); eauto.
  inversion Hn as [| n' p' x l' _ _ Hp' Hl']; subst; [done |].
  assert (p' = p) as -> by congruence.
  destruct (root_path_head _ _ _ Hl') as (y & l'' & -> & _).
  simpl. apply list_elem_of_further, list_elem_of_here.
Qed.

Lemma rewire_returns fuel n (x_new : config) near t :
  tree_ok t → n < length (vertices t) →
  (∀ v xv, (v, xv) ∈ near → v < length (vertices t)) →
  length (vertices t) ≤ S fuel →
  ∃ t', rewire env fuel n x_new near t = (Ok tt, t').
Proof.
  revert t. induction near as [| [v xv] near IH];
    intros t Hok Hn Hnear Hfuel; [simpl; eauto |].
  cbn [rewire].
  assert (∃ t', rewire_step env fuel n x_new (v, xv) t = (Ok tt, t'))
    as [t' Hs].
  { unfold rewire_step. destruct (valid x_new xv); [| eauto].
    destruct (compute_cost_returns env fuel t n Hok Hn Hfuel) as [c1 ->].
    destruct (compute_cost_returns env fuel t v Hok) as [c2 ->];
      [eapply Hnear, list_elem_of_here | done |].
    destruct (Qltb _ _); eauto. }
  pose proof (tree_ok_rewire_step env dist_nonneg fuel n x_new (v, xv) t Hok)
    as Hok'.
  pose proof (rewire_step_vertices env fuel n x_new (v, xv) t) as Hvs.
  rewrite Hs in *. simpl in *.
  apply IH; rewrite ?Hvs; try done.
  intros u xu Hin. eapply Hnear. by apply list_elem_of_further.
Qed.

End RewireFacts.

(** ** What [Plan] returns and what it leaves in the tree *)

Section PlanResult.
Context {config rng : Type} `{EqDecision config}.
Variable env : PlanningEnv config rng.
Variable numpy : NumpyRandom rng.
Variables (bias eta : Q) (max_iter : nat).
Variables polar_step_2d polar_step_3d : config → config → Q → config.

Local Abbreviation St := (state config rng).
Local Abbreviation grow' :=
  (grow env numpy bias eta polar_step_2d polar_step_3d).
Local Abbreviation grow_loop' :=
  (grow_loop env numpy bias eta polar_step_2d polar_step_3d).
Local Abbreviation Plan' :=
  (Plan env numpy bias eta max_iter polar_step_2d polar_step_3d).
Implicit Types (t : RRTTree config) (s : St).

(** The state [Plan] enters its loop with. *)
Local Abbreviation seeded := (fun start_config s =>
  {| tree := snd (AddVertex start_config 0%Q (tree s));
     np_random := np_random s |}).

Lemma parent_chain_ext t t' v (l : list config) :
  vertices t' = vertices t → edges t' = edges t →
  parent_chain t v l → parent_chain t' v l.
Proof.
  intros Hv He. induction 1.
  - constructor. by rewrite Hv.
  - econstructor; eauto; by rewrite ?Hv, ?He.
Qed.

(** The path search follows parent edges from its vertex and stops at
    the first configuration equal to [start_config]. *)
Lemma walk_to_start_spec fuel t start_config vid v (path chain : list config) :
  vertices t !! vid = Some v →
  walk_to_start fuel t start_config vid v path = Ok chain →
  ∃ c, chain = path ++ v :: c ∧ parent_chain t vid (v :: c) ∧
       last (v :: c) = Some start_config.
Proof.
  revert vid v path. induction fuel as [| fuel IH]; intros vid v path Hv;
    simpl.
  - case_decide as Heq; [| done]. intros [= <-]. subst v.
    exists []. split; [done |]. split; [by constructor | done].
  - case_decide as Heq.
    + intros [= <-]. subst v.
      exists []. split; [done |]. split; [by constructor | done].
    + destruct (edges t !! vid) as [p |] eqn:Hp; [| done].
      destruct (vertices t !! p) as [pv |] eqn:Hpv; [| done].
      intros Hw. destruct (IH _ _ _ Hpv Hw) as (c & -> & Hc & Hlast).
      exists (pv :: c). split; [by rewrite <- app_assoc |].
      split; [by econstructor |]. done.
Qed.

(** No configuration met before the last one equals [start_config]. *)
Lemma walk_to_start_first fuel t start_config vid v (path chain : list config) :
  walk_to_start fuel t start_config vid v path = Ok chain →
  ∃ mid, chain = path ++ mid ++ [start_config] ∧ start_config ∉ mid.
Proof.
  revert vid v path. induction fuel as [| fuel IH]; intros vid v path;
    simpl.
  - case_decide as Heq; [| done]. intros [= <-]. subst v.
    exists []. split; [done | apply not_elem_of_nil].
  - case_decide as Heq.
    + intros [= <-]. subst v.
      exists []. split; [done | apply not_elem_of_nil].
    + destruct (edges t !! vid) as [p |] eqn:Hp; [| done].
      destruct (vertices t !! p) as [pv |] eqn:Hpv; [| done].
      intros Hw. destruct (IH _ _ _ Hw) as (mid & -> & Hmid).
      exists (v :: mid). split; [by rewrite <- app_assoc |].
      apply not_elem_of_cons. split; [congruence | done].
Qed.

Lemma nearest_vertex_lookup t q vid v :
  nearest_vertex env t q = Ok (vid, v) → vertices t !! vid = Some v.
Proof.
  unfold nearest_vertex. destruct (GetNearestVertex env t q) as [[i d] |];
    [| done].
  destruct (vertices t !! i) eqn:E; [| done]. by intros [= <- <-].
Qed.

(** Leaving the loop by [break] means the goal check has just
    succeeded on the tree the loop leaves. *)
Lemma grow_loop_early fuel n branch_id goal rad s s1 :
  grow_loop' fuel n branch_id goal rad s = (Ok true, s1) →
  ∃ vid v, nearest_vertex env (tree s1) goal = Ok (vid, v) ∧
           goal_criterion env v = true.
Proof.
  revert branch_id s. induction n as [| n IH]; intros branch_id s; simpl;
    [done |].
  unfold bind at 1.
  destruct (grow' fuel branch_id goal rad s) as [[[] | e |] s0];
    [| done ..].
  case_decide; [| apply IH].
  unfold bind, get_tree, lift. simpl.
  destruct (nearest_vertex env (tree s0) goal) as [[vid v] | e |] eqn:Hn;
    [| done ..].
  destruct (goal_criterion env v) eqn:Hg; [| apply IH].
  unfold ret. intros [= <-]. eauto.
Qed.

(** The ways [Plan] can end once its loop has ended. *)
Lemma Plan_after_loop fuel start_config goal_config rad s early s1 :
  grow_loop' fuel max_iter 1 goal_config rad (seeded start_config s)
    = (Ok early, s1) →
  Plan' fuel start_config goal_config rad s =
  match nearest_vertex env (tree s1) goal_config with
  | Ok (vertex_id, vertex) =>
      if goal_criterion env vertex || early then
        match walk_to_start fuel (tree s1) start_config vertex_id vertex []
        with
        | Ok chain =>
            (Ok (Some (rev chain)),
             {| tree :=
                  {| vertices := vertices (tree s1);
                     edges := edges (tree s1);
                     path_cost :=
                       Some (py_round4
                               (py_sum (segment_costs env (rev chain)))) |};
                np_random := np_random s1 |})
        | Raise e => (Raise e, s1)
        | Diverge => (Diverge, s1)
        end
      else (Raise TypeError, s1)
  | Raise e => (Raise e, s1)
  | Diverge => (Diverge, s1)
  end.
Proof.
  intros Hloop. unfold Plan. unfold bind at 1, on_tree at 1. cbn [fst snd].
  unfold bind at 1. rewrite Hloop.
  unfold bind at 1, get_tree at 1. unfold bind at 1, lift at 1.
  destruct (nearest_vertex env (tree s1) goal_config) as [[vid v] | e |];
    [| done ..].
  destruct (goal_criterion env v); simpl.
  - unfold bind, lift, ret, set_path_cost.
    by destruct (walk_to_start _ _ _ _ _ _).
  - destruct early; [| done].
    unfold bind, lift, ret, set_path_cost.
    by destruct (walk_to_start _ _ _ _ _ _).
Qed.

Lemma Plan_loop_fails fuel start_config goal_config rad s o s1 :
  grow_loop' fuel max_iter 1 goal_config rad (seeded start_config s)
    = (o, s1) →
  (∀ early, o ≠ Ok early) →
  ∃ o', Plan' fuel start_config goal_config rad s = (o', s1) ∧
        ∀ p, o' ≠ Ok p.
Proof.
  intros Hloop Hno. unfold Plan. unfold bind at 1, on_tree at 1.
  cbn [fst snd]. unfold bind at 1. rewrite Hloop.
  destruct o as [early | e |]; [by destruct (Hno early) | |]; eauto.
Qed.

End PlanResult.

(** ** Nothing is removed from the tree *)

Section FrameFacts.
Context {config rng : Type} `{EqDecision config}.
Variable env : PlanningEnv config rng.
Variable numpy : NumpyRandom rng.
Variables (bias eta : Q) (max_iter : nat).
Variables polar_step_2d polar_step_3d : config → config → Q → config.

Local Abbreviation St := (state config rng).
Implicit Types (t : RRTTree config) (s : St).

Lemma tree_extends_refl t : tree_extends t t.
Proof. split; [exists []; by rewrite app_nil_r | done]. Qed.

Lemma tree_extends_trans t1 t2 t3 :
  tree_extends t1 t2 → tree_extends t2 t3 → tree_extends t1 t3.
Proof.
  intros [[a1 H1] D1] [[a2 H2] D2]. split.
  - exists (a1 ++ a2). by rewrite H2, H1, app_assoc.
  - set_solver.
Qed.

Lemma tree_extends_AddEdge p c t : tree_extends t (AddEdge p c t).
Proof.
  split; [exists []; simpl; by rewrite app_nil_r |].
  simpl. rewrite dom_insert_L. set_solver.
Qed.

Lemma tree_extends_AddVertex (x : config) cost t :
  tree_extends t (snd (AddVertex x cost t)).
Proof. split; [by exists [x] | done]. Qed.

Lemma tree_extends_rewire_step fuel n (x_new : config) nb t :
  tree_extends t (snd (rewire_step env fuel n x_new nb t)).
Proof.
  unfold rewire_step. destruct nb as [v xv].
  repeat (case_match; simpl; try apply tree_extends_refl).
  apply tree_extends_AddEdge.
Qed.

Lemma tree_extends_rewire fuel n (x_new : config) near t :
  tree_extends t (snd (rewire env fuel n x_new near t)).
Proof.
  revert t. induction near as [| nb near IH]; intros t;
    [apply tree_extends_refl |].
  cbn [rewire].
  pose proof (tree_extends_rewire_step fuel n x_new nb t) as Hs.
  destruct (rewire_step env fuel n x_new nb t) as [[[] | e |] t'];
    simpl in *; [| done ..].
  eapply tree_extends_trans; [exact Hs | apply IH].
Qed.

Lemma tree_extends_connect fuel branch_id rad id0 (x0 x_new : config) t :
  tree_extends t (snd (connect env fuel branch_id rad id0 x0 x_new t)).
Proof.
  unfold connect.
  destruct (compute_cost env fuel t id0); simpl;
    try apply tree_extends_refl.
  destruct (select_parent _ _ _ _ _ _ _ _) as [[[id x] c] | |]; simpl;
    try apply tree_extends_refl.
  eapply tree_extends_trans; [| apply tree_extends_rewire].
  unfold insert_vertex.
  eapply tree_extends_trans;
    [apply tree_extends_AddVertex | apply tree_extends_AddEdge].
Qed.

Lemma tree_extends_grow fuel branch_id goal rad s :
  tree_extends (tree s)
    (tree (snd (grow env numpy bias eta polar_step_2d polar_step_3d
                  fuel branch_id goal rad s))).
Proof.
  unfold grow. unfold bind at 1.
  pose proof (sample_until_valid_tree env numpy bias fuel goal s) as Hs.
  destruct (sample_until_valid env numpy bias fuel goal s)
    as [[[[x_rand id] x_nearest] | e |] s1]; simpl in Hs;
    [| simpl; rewrite Hs; apply tree_extends_refl ..].
  unfold bind, lift.
  destruct (extend env eta polar_step_2d polar_step_3d x_nearest x_rand)
    as [x_new | e |]; [| simpl; rewrite Hs; apply tree_extends_refl ..].
  unfold on_tree. rewrite <- Hs.
  pose proof (tree_extends_connect fuel branch_id rad id x_nearest x_new
                (tree s1)) as Hc.
  by destruct (connect _ _ _ _ _ _ _ _).
Qed.

Lemma tree_extends_grow_loop fuel n branch_id goal rad s :
  tree_extends (tree s)
    (tree (snd (grow_loop env numpy bias eta polar_step_2d polar_step_3d
                  fuel n branch_id goal rad s))).
Proof.
  revert branch_id s. induction n as [| n IH]; intros branch_id s;
    [apply tree_extends_refl |].
  cbn [grow_loop]. unfold bind at 1.
  pose proof (tree_extends_grow fuel branch_id goal rad s) as Hg.
  destruct (grow _ _ _ _ _ _ _ _ _ _ s) as [[[] | e |] s1]; simpl in Hg;
    [| done ..].
  case_decide; [| eapply tree_extends_trans; [exact Hg | apply IH]].
  unfold bind, get_tree, lift. simpl.
  destruct (nearest_vertex env (tree s1) goal) as [[vid v] | e |];
    simpl; [| done ..].
  destruct (goal_criterion env v); [done |].
  eapply tree_extends_trans; [exact Hg | apply IH].
Qed.

(** [Plan] appends its start configuration and then only appends
    vertices and adds or overwrites parent edges. *)
Lemma Plan_appends fuel start_config goal_config rad s o s' :
  Plan env numpy bias eta max_iter polar_step_2d polar_step_3d fuel
    start_config goal_config rad s = (o, s') →
  (∃ added,
     vertices (tree s') = vertices (tree s) ++ start_config :: added) ∧
  dom (edges (tree s)) ⊆ dom (edges (tree s')).
Proof.
  set (s0 := {| tree := snd (AddVertex start_config 0 (tree s));
                np_random := np_random s |}).
  assert (∀ t1, tree_extends (tree s0) t1 →
    (∃ added, vertices t1 = vertices (tree s) ++ start_config :: added) ∧
    dom (edges (tree s)) ⊆ dom (edges t1)) as Hfin.
  { intros t1 [[added Hv] Hd]. split; [| done].
    exists added. rewrite Hv. simpl. by rewrite <- app_assoc. }
  pose proof (tree_extends_grow_loop fuel max_iter 1 goal_config rad s0)
    as Hg.
  destruct (grow_loop env numpy bias eta polar_step_2d polar_step_3d fuel
              max_iter 1 goal_config rad s0) as [o1 s1] eqn:Hloop.
  simpl in Hg.
  destruct o1 as [early | e |]; cycle 1.
  { destruct (Plan_loop_fails env numpy bias eta max_iter polar_step_2d
                polar_step_3d _ _ _ _ _ _ _ Hloop) as (o' & Ho' & _);
      [done |].
    rewrite Ho'. intros [= _ <-]. by apply Hfin. }
  { destruct (Plan_loop_fails env numpy bias eta max_iter polar_step_2d
                polar_step_3d _ _ _ _ _ _ _ Hloop) as (o' & Ho' & _);
      [done |].
    rewrite Ho'. intros [= _ <-]. by apply Hfin. }
  rewrite (Plan_after_loop env numpy bias eta max_iter polar_step_2d
             polar_step_3d _ _ _ _ _ _ _ Hloop).
  destruct (nearest_vertex env (tree s1) goal_config) as [[vid v] | e |];
    [| intros [= _ <-]; by apply Hfin ..].
  destruct (goal_criterion env v || early);
    [| intros [= _ <-]; by apply Hfin].
  destruct (walk_to_start _ _ _ _ _ _) as [chain | e |];
    intros [= _ <-]; [| by apply Hfin ..].
  apply Hfin. destruct Hg as [Hv Hd]. by split.
Qed.

End FrameFacts.

(** ** More fuel never changes a finished run

    An outcome other than [Diverge] is the outcome of the program: it is
    the same for every larger amount of fuel. *)

Section FuelFacts.
Context {config rng : Type} `{EqDecision config}.
Variable env : PlanningEnv config rng.
Variable numpy : NumpyRandom rng.
Variables (bias eta : Q) (max_iter : nat).
Variables polar_step_2d polar_step_3d : config → config → Q → config.

Local Abbreviation St := (state config rng).
Implicit Types (t : RRTTree config) (s : St).

Lemma compute_cost_loop_mono fuel fuel' t v (x : config) acc :
  fuel ≤ fuel' →
  compute_cost_loop env fuel t v x acc ≠ Diverge →
  compute_cost_loop env fuel' t v x acc = compute_cost_loop env fuel t v x acc.
Proof.
  revert fuel' v x acc. induction fuel as [| fuel IH];
    intros fuel' v x acc Hle Hfin.
  - simpl in *. case_decide; [| done]. destruct fuel'; simpl; by case_decide.
  - destruct fuel' as [| fuel']; [lia |]. simpl in *.
    case_decide; [done |].
    destruct (edges t !! v); [| done].
    destruct (vertices t !! _); [| done].
    apply IH; [lia | done].
Qed.

Lemma compute_cost_mono fuel fuel' t v :
  fuel ≤ fuel' →
  compute_cost env fuel t v ≠ Diverge →
  compute_cost env fuel' t v = compute_cost env fuel t v.
Proof.
  unfold compute_cost. destruct (vertices t !! v); [| done].
  apply compute_cost_loop_mono.
Qed.

Lemma select_parent_mono fuel fuel' t (x_new : config) near id0 x0 c0 :
  fuel ≤ fuel' →
  select_parent env fuel t x_new near id0 x0 c0 ≠ Diverge →
  select_parent env fuel' t x_new near id0 x0 c0
  = select_parent env fuel t x_new near id0 x0 c0.
Proof.
  intros Hle. revert id0 x0 c0.
  induction near as [| [v xv] near IH]; intros id0 x0 c0; simpl; [done |].
  destruct (edge_validity_checker env x_new xv); [| apply IH].
  destruct (compute_cost env fuel t v) as [c | e |] eqn:Hc; simpl;
    [| | done].
  - rewrite (compute_cost_mono fuel fuel' t v Hle) by (by rewrite Hc).
    rewrite Hc. simpl. destruct (Qltb _ _); apply IH.
  - rewrite (compute_cost_mono fuel fuel' t v Hle) by (by rewrite Hc).
    by rewrite Hc.
Qed.

Lemma rewire_step_mono fuel fuel' n (x_new : config) nb t :
  fuel ≤ fuel' →
  fst (rewire_step env fuel n x_new nb t) ≠ Diverge →
  rewire_step env fuel' n x_new nb t = rewire_step env fuel n x_new nb t.
Proof.
  intros Hle. unfold rewire_step. destruct nb as [v xv].
  destruct (edge_validity_checker env x_new xv); [| done].
  destruct (compute_cost env fuel t n) as [c1 | e |] eqn:H1; [| | done].
  - rewrite (compute_cost_mono fuel fuel' t n Hle) by (by rewrite H1).
    rewrite H1.
    destruct (compute_cost env fuel t v) as [c2 | e |] eqn:H2; [| | done].
    + rewrite (compute_cost_mono fuel fuel' t v Hle) by (by rewrite H2).
      by rewrite H2.
    + rewrite (compute_cost_mono fuel fuel' t v Hle) by (by rewrite H2).
      by rewrite H2.
  - rewrite (compute_cost_mono fuel fuel' t n Hle) by (by rewrite H1).
    by rewrite H1.
Qed.

Lemma rewire_mono fuel fuel' n (x_new : config) near t :
  fuel ≤ fuel' →
  fst (rewire env fuel n x_new near t) ≠ Diverge →
  rewire env fuel' n x_new near t = rewire env fuel n x_new near t.
Proof.
  intros Hle. revert t. induction near as [| nb near IH]; intros t; [done |].
  cbn [rewire].
  destruct (rewire_step env fuel n x_new nb t) as [[[] | e |] t'] eqn:Hs.
  - rewrite (rewire_step_mono fuel fuel' n x_new nb t Hle) by (by rewrite Hs).
    rewrite Hs. apply IH.
  - rewrite (rewire_step_mono fuel fuel' n x_new nb t Hle) by (by rewrite Hs).
    by rewrite Hs.
  - done.
Qed.

Lemma connect_mono fuel fuel' branch_id rad id0 (x0 x_new : config) t :
  fuel ≤ fuel' →
  fst (connect env fuel branch_id rad id0 x0 x_new t) ≠ Diverge →
  connect env fuel' branch_id rad id0 x0 x_new t
  = connect env fuel branch_id rad id0 x0 x_new t.
Proof.
  intros Hle. unfold connect.
  destruct (compute_cost env fuel t id0) as [c | e |] eqn:Hc; [| | done].
  - rewrite (compute_cost_mono fuel fuel' t id0 Hle) by (by rewrite Hc).
    rewrite Hc.
    destruct (select_parent env fuel t x_new _ id0 x0 _)
      as [[[id x] cm] | e |] eqn:Hs; [| | done].
    + rewrite (select_parent_mono fuel fuel' _ _ _ _ _ _ Hle)
        by (by rewrite Hs).
      rewrite Hs. apply rewire_mono. done.
    + rewrite (select_parent_mono fuel fuel' _ _ _ _ _ _ Hle)
        by (by rewrite Hs).
      by rewrite Hs.
  - rewrite (compute_cost_mono fuel fuel' t id0 Hle) by (by rewrite Hc).
    by rewrite Hc.
Qed.

Lemma sample_until_valid_mono fuel fuel' goal s :
  fuel ≤ fuel' →
  fst (sample_until_valid env numpy bias fuel goal s) ≠ Diverge →
  sample_until_valid env numpy bias fuel' goal s
  = sample_until_valid env numpy bias fuel goal s.
Proof.
  revert fuel' s. induction fuel as [| fuel IH]; intros fuel' s Hle; [done |].
  destruct fuel' as [| fuel']; [lia |]. simpl.
  unfold bind, get_tree, lift.
  destruct (sample env numpy bias goal s) as [[x_rand | e |] s1];
    [| done ..].
  simpl. destruct (nearest_vertex env (tree s1) x_rand) as [[id x] | e |];
    [| done ..].
  destruct (edge_validity_checker env x_rand x); [done |].
  apply IH. lia.
Qed.

Lemma bind_mono {A B} (m m' : M config rng A) (k k' : A → M config rng B) s :
  (fst (m s) ≠ Diverge → m' s = m s) →
  (∀ a s1, m s = (Ok a, s1) →
     fst (k a s1) ≠ Diverge → k' a s1 = k a s1) →
  fst (bind m k s) ≠ Diverge → bind m' k' s = bind m k s.
Proof.
  intros Hm Hk. unfold bind.
  destruct (m s) as [[a | e |] s1] eqn:Hs; simpl in *.
  - rewrite Hm by done. intros Hfin. by apply Hk.
  - by rewrite Hm.
  - done.
Qed.

Lemma on_tree_mono {A}
    (f f' : RRTTree config → outcome A * RRTTree config) s :
  (fst (f (tree s)) ≠ Diverge → f' (tree s) = f (tree s)) →
  fst (on_tree f s) ≠ Diverge → on_tree f' s = on_tree f s.
Proof.
  intros Hf. unfold on_tree.
  destruct (f (tree s)) as [o t'] eqn:Hft. simpl in *.
  intros Hfin. by rewrite Hf.
Qed.

Lemma grow_mono fuel fuel' branch_id goal rad s :
  fuel ≤ fuel' →
  fst (grow env numpy bias eta polar_step_2d polar_step_3d
         fuel branch_id goal rad s) ≠ Diverge →
  grow env numpy bias eta polar_step_2d polar_step_3d
    fuel' branch_id goal rad s
  = grow env numpy bias eta polar_step_2d polar_step_3d
      fuel branch_id goal rad s.
Proof.
  intros Hle. unfold grow. apply bind_mono.
  - by apply sample_until_valid_mono.
  - intros [[x_rand id] x_nearest] s1 _. apply bind_mono; [done |].
    intros x_new s2 _. apply on_tree_mono. by apply connect_mono.
Qed.

Lemma grow_loop_mono fuel fuel' n branch_id goal rad s :
  fuel ≤ fuel' →
  fst (grow_loop env numpy bias eta polar_step_2d polar_step_3d
         fuel n branch_id goal rad s) ≠ Diverge →
  grow_loop env numpy bias eta polar_step_2d polar_step_3d
    fuel' n branch_id goal rad s
  = grow_loop env numpy bias eta polar_step_2d polar_step_3d
      fuel n branch_id goal rad s.
Proof.
  intros Hle. revert branch_id s. induction n as [| n IH];
    intros branch_id s; [done |].
  cbn [grow_loop]. apply bind_mono.
  - by apply grow_mono.
  - intros [] s1 _. case_decide; [| apply IH].
    apply bind_mono; [done |]. intros t s2 _.
    apply bind_mono; [done |]. intros [vid v] s3 _.
    destruct (goal_criterion env v); [done | apply IH].
Qed.

Lemma walk_to_start_mono fuel fuel' t (start_config : config) vid v path :
  fuel ≤ fuel' →
  walk_to_start fuel t start_config vid v path ≠ Diverge →
  walk_to_start fuel' t start_config vid v path
  = walk_to_start fuel t start_config vid v path.
Proof.
  revert fuel' vid v path. induction fuel as [| fuel IH];
    intros fuel' vid v path Hle Hfin.
  - simpl in *. case_decide; [| done]. destruct fuel'; simpl; by case_decide.
  - destruct fuel' as [| fuel']; [lia |]. simpl in *.
    case_decide; [done |].
    destruct (edges t !! vid); [| done].
    destruct (vertices t !! _); [| done].
    apply IH; [lia | done].
Qed.

Lemma Plan_mono fuel fuel' start_config goal_config rad s :
  fuel ≤ fuel' →
  fst (Plan env numpy bias eta max_iter polar_step_2d polar_step_3d
         fuel start_config goal_config rad s) ≠ Diverge →
  Plan env numpy bias eta max_iter polar_step_2d polar_step_3d
    fuel' start_config goal_config rad s
  = Plan env numpy bias eta max_iter polar_step_2d polar_step_3d
      fuel start_config goal_config rad s.
Proof.
  intros Hle. unfold Plan. apply bind_mono; [done |].
  intros [] s0 _. apply bind_mono; [by apply grow_loop_mono |].
  intros early s1 _. apply bind_mono; [done |].
  intros t s2 _. apply bind_mono; [done |].
  intros [vid v] s3 _. apply bind_mono; [| done].
  destruct (if goal_criterion env v then Some []
            else if early then Some [] else None) as [p |]; [| done].
  apply bind_mono; [| done].
  unfold lift. simpl. intros Hfin.
  by rewrite (walk_to_start_mono fuel fuel' _ _ _ _ _ Hle).
Qed.

End FuelFacts.

(** * The claims *)

Section ClaimsOnTree.
Context {config rng : Type} `{EqDecision config}.
Variable env : PlanningEnv config rng.

Local Abbreviation dist := (compute_distance env).

(** C3 (as amended): when the parent chain of [vertex_id] reaches the
    root, [compute_cost] walks it and returns the sum of the distances
    along it, taking one round of its loop per edge, which is fewer
    rounds than the tree has vertices.  The sum is the float sum in the
    order of the walk.  The loop has no bound on its rounds, and no
    input makes [compute_cost] fail with [CycleDetected]. *)
Theorem compute_cost_follows_chain (t : RRTTree config) (vertex_id : nat)
    (l : list (nat * config)) (fuel : nat) :
  root_path t vertex_id l → length l ≤ S fuel →
  compute_cost env fuel t vertex_id = Ok (chain_cost env 0 l.*2) ∧
  length l ≤ length (vertices t) ∧
  (∀ fuel' (t' : RRTTree config) v',
     compute_cost env fuel' t' v' ≠ Raise CycleDetected).
Proof.
  intros Hp Hlen. split; [by apply compute_cost_path |].
  split; [by eapply root_path_length |].
  intros fuel' t' v'. unfold compute_cost.
  destruct (vertices t' !! v'); [| done].
  apply compute_cost_loop_not_cycle_detected.
Qed.

End ClaimsOnTree.

(** C3, the guard the claim describes is not in the code: on the parent
    cycle 1 -> 2 -> 1 the walk from vertex 1 neither returns nor fails,
    whatever number of rounds it is given. *)
Lemma compute_cost_cycle_never_ends :
  ¬ returns_or_detects_cycle Demo.wall_env Demo.cyclic_tree 1.
Proof.
  assert (Hloop : ∀ fuel acc,
    compute_cost_loop Demo.wall_env fuel Demo.cyclic_tree 1 [1; 0]%Z acc
      = Diverge ∧
    compute_cost_loop Demo.wall_env fuel Demo.cyclic_tree 2 [2; 0]%Z acc
      = Diverge).
  { induction fuel as [| fuel IH]; intros acc; [done |].
    split.
    - change (compute_cost_loop Demo.wall_env fuel Demo.cyclic_tree 2
                [2; 0]%Z (float_add acc (Demo.manhattan [1; 0]%Z [2; 0]%Z))
              = Diverge).
      apply IH.
    - change (compute_cost_loop Demo.wall_env fuel Demo.cyclic_tree 1
                [1; 0]%Z (float_add acc (Demo.manhattan [2; 0]%Z [1; 0]%Z))
              = Diverge).
      apply IH. }
  intros [fuel [[c Hc] | Hc]]; unfold compute_cost in Hc; simpl in Hc;
    rewrite (proj1 (Hloop fuel 0%Q)) in Hc; discriminate.
Qed.

Lemma compute_cost_follows_chain_witness :
  root_path Demo.two_tree 1 [(1, [0; 2]%Z); (0, [0; 0]%Z)] ∧
  compute_cost Demo.wall_env 1 Demo.two_tree 1
    = Ok (chain_cost Demo.wall_env 0 [[0; 2]; [0; 0]]%Z).
Proof.
  assert (Hp : root_path Demo.two_tree 1 [(1, [0; 2]%Z); (0, [0; 0]%Z)]).
  { apply root_path_step with (p := 0);
      [lia | reflexivity | reflexivity | apply root_path_root; reflexivity]. }
  split; [exact Hp |].
  apply (compute_cost_follows_chain Demo.wall_env Demo.two_tree 1
           [(1, [0; 2]%Z); (0, [0; 0]%Z)] 1 Hp).
  simpl. lia.
Defined.

Lemma manhattan_nonneg (a b : Demo.cell) : (0 <= Demo.manhattan a b)%Q.
Proof.
  unfold Demo.manhattan.
  destruct a as [| a0 [| a1 [| ? ?]]]; try apply Qle_refl;
    destruct b as [| b0 [| b1 [| ? ?]]]; try apply Qle_refl.
  change 0%Q with (inject_Z 0). rewrite <- Zle_Qle. lia.
Qed.

Lemma wall_env_nonneg : metric_nonneg Demo.wall_env.
Proof. intros a b. apply manhattan_nonneg. Qed.

Section ClaimsOnPlan.
Context {config rng : Type} `{EqDecision config}.
Variable env : PlanningEnv config rng.
Variable numpy : NumpyRandom rng.
Variables (bias eta : Q).
Variables polar_step_2d polar_step_3d : config → config → Q → config.

Local Abbreviation dist := (compute_distance env).
Local Abbreviation Plan' :=
  (fun max_iter =>
     Plan env numpy bias eta max_iter polar_step_2d polar_step_3d).

(** C1 (as amended): with non-negative distances, the parent edges over
    the inserted vertices form a tree rooted at vertex 0 (no vertex is
    its own ancestor, every vertex reaches the root) at every point of
    the first planning run of a planner, which starts on the empty tree:
    after the root insertion; after the insertion of a new vertex under
    the parent the selection loop returned; after every round of the
    rewiring loop; after the whole of lines 70-90, which add exactly one
    vertex, so that the loop counter [branch_id] stays the id of the next
    vertex, as it is in such a run; after any number of iterations; and
    so in the tree [Plan] leaves behind, whatever its iteration budget
    and however it ends. *)
Theorem plan_keeps_parent_tree :
  metric_nonneg env →
  (∀ start_config cost (t : RRTTree config),
     vertices t = [] → edges t = ∅ →
     is_tree (snd (AddVertex start_config cost t))) ∧
  (∀ fuel (t : RRTTree config) x_new rad x_nearest_id x_nearest c
     x_min_id x_min cost_min,
     is_tree t →
     compute_cost env fuel t x_nearest_id = Ok c →
     select_parent env fuel t x_new (GetNNInRad env t x_new rad)
       x_nearest_id x_nearest (float_add c (dist x_nearest x_new))
       = Ok (x_min_id, x_min, cost_min) →
     is_tree (insert_vertex env x_min_id x_min x_new
                (length (vertices t)) t)) ∧
  (∀ fuel (t : RRTTree config) branch_id x_new nb,
     is_tree t →
     is_tree (snd (rewire_step env fuel branch_id x_new nb t))) ∧
  (∀ fuel (t : RRTTree config) rad x_nearest_id x_nearest x_new,
     is_tree t →
     let r := connect env fuel (length (vertices t)) rad
                x_nearest_id x_nearest x_new t in
     is_tree (snd r) ∧
     (fst r = Ok tt →
      length (vertices (snd r)) = S (length (vertices t)))) ∧
  (∀ fuel n goal_config rad (s : state config rng),
     is_tree (tree s) →
     is_tree (tree (snd
       (grow_loop env numpy bias eta polar_step_2d polar_step_3d fuel n
          (length (vertices (tree s))) goal_config rad s)))) ∧
  (∀ max_iter fuel start_config goal_config rad (s : state config rng),
     vertices (tree s) = [] → edges (tree s) = ∅ →
     is_tree (tree (snd
       (Plan' max_iter fuel start_config goal_config rad s)))).
Proof.
  intros Hnn. split; [| split; [| split; [| split; [| split]]]].
  - intros. by apply tree_ok_is_tree, tree_ok_seed.
  - intros fuel t x_new rad id0 x0 c idm xm cm Ht Hc Hs.
    apply tree_ok_is_tree, tree_ok_insert; [by apply is_tree_tree_ok |].
    destruct (select_parent_has_cost env _ _ _ _ _ _ _ _ _ _ Hs) as [c' Hc'];
      [eauto |].
    by eapply compute_cost_ok_lt.
  - intros. by apply tree_ok_is_tree, tree_ok_rewire_step, is_tree_tree_ok.
  - intros fuel t rad id0 x0 x_new Ht. cbv zeta.
    destruct (tree_ok_connect env Hnn fuel rad id0 x0 x_new t
                (is_tree_tree_ok t Ht)) as (Hok & Hlen & _).
    split; [by apply tree_ok_is_tree | apply Hlen].
  - intros fuel n goal_config rad s Ht.
    by apply tree_ok_is_tree, grow_loop_tree_ok, is_tree_tree_ok.
  - intros. by apply tree_ok_is_tree, Plan_tree_ok.
Qed.

End ClaimsOnPlan.

(** C1, a later run on the same planner: [Plan] appends its start
    configuration to the tree of the first run, as vertex 2, without a
    parent edge, and the first cost walk from it raises [KeyError].  The
    vertex does not reach the root. *)
Lemma second_plan_breaks_parent_tree :
  let env := Demo.open_env Demo.manhattan 2 in
  let plan := Plan env (Demo.numpy (fun _ => [])) 1 1 1
                Demo.grid_step_2d Demo.no_step_3d 10 [0; 0]%Z [3; 0]%Z 10 in
  let first := plan (Demo.start_state []) in
  let second := plan (snd first) in
  metric_nonneg env ∧
  fst first = Ok (Some [[0; 0]; [3; 0]]%Z) ∧
  is_tree (tree (snd first)) ∧
  fst second = Raise KeyError ∧
  vertices (tree (snd second)) = [[0; 0]; [3; 0]; [0; 0]]%Z ∧
  edges (tree (snd second)) !! 2 = None ∧
  ¬ is_tree (tree (snd second)).
Proof.
  cbv zeta.
  assert (Hnn : metric_nonneg (Demo.open_env Demo.manhattan 2))
    by (intros a b; apply manhattan_nonneg).
  split; [exact Hnn |]. split; [vm_compute; reflexivity |].
  split; [by apply tree_ok_is_tree, Plan_tree_ok |].
  split; [vm_compute; reflexivity |].
  split; [vm_compute; reflexivity |].
  split; [vm_compute; reflexivity |].
  intros (_ & _ & _ & _ & Hreach).
  destruct (Hreach 2) as [l Hl]; [vm_compute; lia |].
  inversion Hl as [| v p x l' _ _ Hp _]; subst.
  vm_compute in Hp. discriminate.
Qed.

Lemma plan_keeps_parent_tree_witness :
  metric_nonneg Demo.wall_env ∧
  is_tree (tree (snd
    (Plan Demo.wall_env (Demo.numpy (fun _ => [])) 0 2 2
       Demo.grid_step_2d Demo.no_step_3d 10 [0; 0]%Z [9; 9]%Z 10
       (Demo.start_state [[0; 1]; [2; 0]]%Z)))).
Proof.
  split; [exact wall_env_nonneg |].
  apply (plan_keeps_parent_tree Demo.wall_env (Demo.numpy (fun _ => [])) 0 2
           Demo.grid_step_2d Demo.no_step_3d wall_env_nonneg);
    reflexivity.
Defined.
Section ClaimOnSelection.
Context {config rng : Type}.
Variable env : PlanningEnv config rng.

Local Abbreviation dist := (compute_distance env).
Local Abbreviation valid := (edge_validity_checker env).

(** C2: lines 72-74 take the nearest vertex as the first candidate
    without asking the checker about its edge to [x_new]; only the
    radius-neighbours are checked (line 76), and the sampling loop checked
    the edge to [x_rand], not to [x_new].  So when the checker rejects the
    edge between the nearest vertex and [x_new], and no neighbour with a
    valid edge is strictly cheaper, the nearest vertex still becomes the
    parent: the new vertex [n] hangs on an invalid edge.  Here [n] is the
    id the new vertex gets, which is what the loop counter [branch_id] is
    in the first run of a planner. *)
Theorem unchecked_nearest_becomes_parent (fuel : nat)
    (t : RRTTree config) (x_new : config) (rad : Q) (x_nearest_id : nat)
    (x_nearest : config) (c : Q) :
  let near := GetNNInRad env t x_new rad in
  let n := length (vertices t) in
  let cost_nearest := float_add c (dist x_nearest x_new) in
  valid x_new x_nearest = false →
  compute_cost env fuel t x_nearest_id = Ok c →
  (∀ v xv, (v, xv) ∈ near → valid x_new xv = true →
     ∃ cv, compute_cost env fuel t v = Ok cv ∧
           (cost_nearest <= float_add cv (dist xv x_new))%Q) →
  select_parent env fuel t x_new near x_nearest_id x_nearest cost_nearest
    = Ok (x_nearest_id, x_nearest, cost_nearest) ∧
  ∀ t_fin,
    connect env fuel n rad x_nearest_id x_nearest x_new t = (Ok tt, t_fin) →
    vertices t_fin !! n = Some x_new ∧
    edges t_fin !! n = Some x_nearest_id.
Proof.
  intros near n cost_nearest Hinvalid Hc Hall.
  pose proof (select_parent_keeps env fuel t x_new near x_nearest_id
                x_nearest cost_nearest Hall) as Hsel.
  split; [exact Hsel |].
  intros t_fin. unfold connect. fold near. rewrite Hc. fold cost_nearest.
  rewrite Hsel. intros Hr.
  assert (n ∉ near.*1) as Hn.
  { intros Hin. apply list_elem_of_fmap in Hin as ([v xv] & Hv & Hin).
    simpl in Hv. subst v. apply GetNNInRad_elem in Hin as [Hin _].
    apply lookup_lt_Some in Hin. unfold n in Hin. lia. }
  pose proof (rewire_vertices env fuel n x_new near
                (insert_vertex env x_nearest_id x_nearest x_new n t)) as Hv.
  pose proof (rewire_edges_other env fuel n x_new near
                (insert_vertex env x_nearest_id x_nearest x_new n t) n Hn)
    as He.
  rewrite Hr in Hv, He. cbn [snd] in Hv, He. split.
  - rewrite Hv. simpl. rewrite lookup_app_r by done.
    unfold n. by rewrite Nat.sub_diag.
  - rewrite He. simpl. apply lookup_insert_eq.
Qed.

End ClaimOnSelection.

(** C2 on an obstacle grid, with [eta = 2] and an obstacle at cell
    [3, 0]: the second iteration samples [2, 0], whose edge to the nearest
    vertex, the root [0, 0], is valid, and extends from the root past the
    obstacle to [4, 0].  The only candidate with a valid edge to [4, 0]
    is vertex 1, at cost 8; the root, at cost 4, becomes the parent of the
    new vertex 2.  It is not the candidate the claim describes. *)
Lemma unchecked_nearest_becomes_parent_witness :
  let run := fun max_iter =>
    snd (Plan Demo.wall_env (Demo.numpy (fun _ => [])) 0 2 max_iter
           Demo.grid_step_2d Demo.no_step_3d 10 [0; 0]%Z [9; 9]%Z 10
           (Demo.start_state [[0; 1]; [2; 0]]%Z)) in
  let t1 := tree (run 1) in
  let t2 := tree (run 2) in
  let cands := (0, [0; 0]%Z) :: GetNNInRad Demo.wall_env t1 [4; 0]%Z 10 in
  vertices t1 = [[0; 0]; [0; 2]]%Z ∧
  edge_validity_checker Demo.wall_env [2; 0]%Z [0; 0]%Z = true ∧
  edge_validity_checker Demo.wall_env [4; 0]%Z [0; 0]%Z = false ∧
  select_parent Demo.wall_env 10 t1 [4; 0]%Z
    (GetNNInRad Demo.wall_env t1 [4; 0]%Z 10) 0 [0; 0]%Z 4
    = Ok (0, [0; 0]%Z, 4%Q) ∧
  vertices t2 = vertices t1 ++ [[4; 0]%Z] ∧
  edges t2 !! 2 = Some 0 ∧
  ¬ min_cost_valid_parent Demo.wall_env 10 t1 [4; 0]%Z cands (0, [0; 0]%Z) ∧
  min_cost_valid_parent Demo.wall_env 10 t1 [4; 0]%Z cands (1, [0; 2]%Z).
Proof.
  cbv zeta.
  split; [vm_compute; reflexivity |]. split; [reflexivity |].
  split; [reflexivity |].
  split.
  { set (t1 := tree (snd (Plan Demo.wall_env (Demo.numpy (fun _ => [])) 0
             2 1 Demo.grid_step_2d Demo.no_step_3d 10 [0; 0]%Z [9; 9]%Z 10
             (Demo.start_state [[0; 1]; [2; 0]]%Z)))).
    assert (Hc : compute_cost Demo.wall_env 10 t1 0 = Ok 0%Q)
      by (vm_compute; reflexivity).
    assert (H4 : float_add 0 (Demo.manhattan [0; 0]%Z [4; 0]%Z) = 4%Q)
      by (vm_compute; reflexivity).
    rewrite <- H4.
    apply (unchecked_nearest_becomes_parent Demo.wall_env 10 t1 [4; 0]%Z 10
             0 [0; 0]%Z 0 eq_refl Hc).
    intros v xv Hin Hval. vm_compute in Hin.
    apply elem_of_cons in Hin as [[= -> ->] | Hin];
      [vm_compute in Hval; discriminate |].
    apply list_elem_of_singleton in Hin as [= -> ->].
    exists 2%Q. split; [vm_compute; reflexivity |]. vm_compute. discriminate. }
  split; [vm_compute; reflexivity |]. split; [vm_compute; reflexivity |].
  split.
  - intros (_ & Hv & _). vm_compute in Hv. discriminate.
  - split; [| split; [reflexivity |]].
    + vm_compute.
      apply list_elem_of_further, list_elem_of_further, list_elem_of_here.
    + intros c Hin Hc. vm_compute in Hin.
      apply elem_of_cons in Hin as [-> | Hin];
        [vm_compute in Hc; discriminate |].
      apply elem_of_cons in Hin as [-> | Hin];
        [vm_compute in Hc; discriminate |].
      apply list_elem_of_singleton in Hin as ->.
      eexists _, _. split; [vm_compute; reflexivity |].
      split; [vm_compute; reflexivity |].
      vm_compute. discriminate.
Defined.

Section ClaimOnRewiring.
Context {config rng : Type}.
Variable env : PlanningEnv config rng.

Local Abbreviation dist := (compute_distance env).

(** C6 (as amended): with non-negative distances, take a Growing
    iteration of a planner's first run that has inserted the new vertex
    [n] at [x_new] under the chosen parent [x_min_id]; [near] are the
    radius-neighbours of [x_new], and [n] is the loop counter.  The
    rewiring loop, once completed, has re-parented to [n] exactly the
    neighbours for which, on the tree as it stands at their turn, the
    edge to [x_new] is valid and the float sum cost-to-root(n) +
    distance(neighbour, x_new) is strictly less than
    cost-to-root(neighbour); every other neighbour, the chosen parent and
    all vertices outside [near] keep their parent.  Right after a
    neighbour [v] is re-parented, the chain and the cost of [n] are
    unchanged, the chain of [v] is [v] followed by the chain of [n], and
    the cost of [v] is the float sum along that chain, which starts with
    the edge from [v] to [n]: nothing is said about how it compares with
    cost(n) + distance or with the cost before.  On a well-formed tree
    with enough rounds for the cost walks the loop completes. *)
Theorem rewire_reparents_cheaper_neighbours (fuel : nat)
    (t0 : RRTTree config) (x_new : config) (rad : Q) (x_min_id : nat)
    (x_min : config) :
  metric_nonneg env →
  x_min_id < length (vertices t0) →
  let n := length (vertices t0) in
  let near := GetNNInRad env t0 x_new rad in
  let t := insert_vertex env x_min_id x_min x_new n t0 in
  (tree_ok t0 → n ≤ fuel →
   ∃ t_fin, rewire env fuel n x_new near t = (Ok tt, t_fin)) ∧
  (∀ t_fin, rewire env fuel n x_new near t = (Ok tt, t_fin) →
     (∀ pre v xv post, near = pre ++ (v, xv) :: post →
        let t_v := snd (rewire env fuel n x_new pre t) in
        (rewire_test env fuel t_v n x_new (v, xv) →
           edges t_fin !! v = Some n) ∧
        (¬ rewire_test env fuel t_v n x_new (v, xv) →
           edges t_fin !! v = edges t0 !! v) ∧
        (∀ c_new c_near,
           compute_cost env fuel t_v n = Ok c_new →
           compute_cost env fuel t_v v = Ok c_near →
           (float_add c_new (dist xv x_new) < c_near)%Q →
           ∃ ln, root_path t_v n ln ∧
                 root_path (AddEdge n v t_v) n ln ∧
                 root_path (AddEdge n v t_v) v ((v, xv) :: ln) ∧
                 compute_cost env (S fuel) (AddEdge n v t_v) n
                   = Ok c_new ∧
                 compute_cost env (S fuel) (AddEdge n v t_v) v
                   = Ok (chain_cost env 0 (xv :: ln.*2)))) ∧
     edges t_fin !! x_min_id = edges t0 !! x_min_id ∧
     edges t_fin !! n = Some x_min_id ∧
     (∀ u, u ∉ near.*1 → u ≠ n → edges t_fin !! u = edges t0 !! u)).
Proof.
  intros Hnn Hmin n near t.
  assert (Hnear : ∀ v xv, (v, xv) ∈ near →
            vertices t !! v = Some xv ∧ v < n).
  { intros v xv Hin. apply GetNNInRad_elem in Hin as [Hv _].
    split; [| by eapply lookup_lt_Some].
    simpl. by apply lookup_app_l_Some. }
  assert (Hn_near : n ∉ near.*1).
  { intros Hin. apply list_elem_of_fmap in Hin as ([v xv] & Hv & Hin).
    simpl in Hv. subst v. apply Hnear in Hin as [_ Hlt]. lia. }
  assert (Hxn : vertices t !! n = Some x_new).
  { simpl. rewrite lookup_app_r by done. subst n. by rewrite Nat.sub_diag. }
  assert (Hen : edges t !! n = Some x_min_id)
    by (simpl; apply lookup_insert_eq).
  assert (Hother : ∀ u, u ≠ n → edges t !! u = edges t0 !! u)
    by (intros u Hu; simpl; by apply lookup_insert_ne).
  assert (Hn0 : n ≠ 0) by (subst n; lia).
  pose proof (GetNNInRad_NoDup env t0 x_new rad) as Hnd. fold near in Hnd.
  split.
  { intros Hok Hfuel.
    apply rewire_returns; [done | | | |].
    - by apply tree_ok_insert.
    - simpl. rewrite length_app. simpl. lia.
    - intros v xv Hin. apply Hnear in Hin as [Hv _].
      by eapply lookup_lt_Some.
    - simpl. rewrite length_app. simpl. fold n. lia. }
  intros t_fin Hr.
  assert (Hturn : ∀ pre v xv post, near = pre ++ (v, xv) :: post →
    let t_v := snd (rewire env fuel n x_new pre t) in
    (rewire_test env fuel t_v n x_new (v, xv) → edges t_fin !! v = Some n) ∧
    (¬ rewire_test env fuel t_v n x_new (v, xv) →
       edges t_fin !! v = edges t0 !! v) ∧
    vertices t_v = vertices t ∧ edges t_v !! n = Some x_min_id).
  { intros pre v xv post Hsplit t_v.
    rewrite Hsplit in Hr.
    destruct (rewire_split env _ _ _ _ _ _ _ _ Hr)
      as (t_v0 & t_v' & Hpre & Hstep & Hpost).
    assert (t_v = t_v0) as -> by (subst t_v; by rewrite Hpre).
    rewrite Hsplit, fmap_app, fmap_cons in Hnd, Hn_near. simpl in *.
    apply NoDup_app in Hnd as (_ & Hdisj & Hnd').
    apply NoDup_cons in Hnd' as [Hv_post _].
    assert (v ∉ pre.*1) as Hv_pre.
    { intros Hin. apply (Hdisj _ Hin), list_elem_of_here. }
    assert (v ≠ n) as Hvn.
    { intros ->. apply Hn_near, elem_of_app. right. apply list_elem_of_here. }
    assert (edges t_fin !! v = edges t_v' !! v) as Hfin.
    { replace t_fin with (snd (rewire env fuel n x_new post t_v'))
        by (by rewrite Hpost).
      by apply rewire_edges_other. }
    assert (edges t_v0 !! v = edges t0 !! v) as Hv0.
    { replace t_v0 with (snd (rewire env fuel n x_new pre t))
        by (by rewrite Hpre).
      rewrite rewire_edges_other by done. by apply Hother. }
    assert (edges t_v0 !! n = Some x_min_id) as Hn_v.
    { replace t_v0 with (snd (rewire env fuel n x_new pre t))
        by (by rewrite Hpre).
      rewrite rewire_edges_other; [exact Hen |].
      intros Hin. apply Hn_near, elem_of_app. by left. }
    assert (vertices t_v0 = vertices t) as Hvs.
    { replace t_v0 with (snd (rewire env fuel n x_new pre t))
        by (by rewrite Hpre).
      apply rewire_vertices. }
    destruct (rewire_step_cases env _ _ _ _ _ _ _ Hstep)
      as [[Htest ->] | [Htest ->]].
    - split; [| split; [| done]].
      + intros _. rewrite Hfin. simpl. apply lookup_insert_eq.
      + intros Hno. done.
    - split; [| split; [| done]].
      + intros Hyes. done.
      + intros _. by rewrite Hfin. }
  split; [| split; [| split]].
  - intros pre v xv post Hsplit t_v.
    destruct (Hturn pre v xv post Hsplit) as (Hyes & Hno & Hvs & Hn_v).
    split; [done |]. split; [done |].
    intros c_new c_near Hcn Hcv Hlt.
    apply (reparent_chain env Hnn fuel t_v n v x_new xv c_new c_near);
      try done.
    + fold t_v in Hvs. by rewrite Hvs.
    + fold t_v in Hvs. rewrite Hvs. apply Hnear. rewrite Hsplit.
      apply elem_of_app. right. apply list_elem_of_here.
  - destruct (decide (x_min_id ∈ near.*1)) as [Hin | Hout].
    + apply list_elem_of_fmap in Hin as ([p xp] & Hp & Hin).
      simpl in Hp. subst p.
      apply list_elem_of_split in Hin as (pre & post & Hsplit).
      destruct (Hturn pre x_min_id xp post Hsplit) as (_ & Hno & _ & Hn_v).
      apply Hno. by apply parent_fails_rewire_test.
    + replace t_fin with (snd (rewire env fuel n x_new near t))
        by (by rewrite Hr).
      rewrite rewire_edges_other by done. apply Hother. lia.
  - replace t_fin with (snd (rewire env fuel n x_new near t))
      by (by rewrite Hr).
    by rewrite rewire_edges_other.
  - intros u Hu Hun.
    replace t_fin with (snd (rewire env fuel n x_new near t))
      by (by rewrite Hr).
    rewrite rewire_edges_other by done. by apply Hother.
Qed.

End ClaimOnRewiring.

(** C6, the costs are float sums and the test is made at each
    neighbour's turn.  Cells are a tenth of a unit wide, [eta] is 10.
    In the first run the fifth iteration inserts vertex 5 at [7, 0] and
    re-parents vertex 3, at [9, 0]: 0.7 + 0.2 gives 0.8999999999999999,
    less than its cost 0.9; along its new chain the walk sums
    0.2 + 0.2 + 0.3 + 0.2 to 0.9000000000000001, which is more than
    before and not cost(5) + distance.  In the second run the third
    iteration inserts vertex 3 at [1, 0]; on the tree entering the
    rewiring loop vertex 2 passes the test, but the loop first re-parents
    vertex 1, its parent, and at its turn vertex 2 fails the test and
    keeps its parent. *)
Lemma rewired_cost_can_rise :
  let env := Demo.open_env Demo.manhattan_tenth 2 in
  let run := fun samples k =>
    tree (snd (Plan env (Demo.numpy (fun _ => [])) 0 10 k
                 Demo.grid_step_2d Demo.no_step_3d 10 [0; 0]%Z [50; 0]%Z 10
                 (Demo.start_state samples))) in
  let a := run [[2; 0]; [5; 0]; [9; 0]; [0; 0]; [7; 0]]%Z in
  let b := run [[6; 0]; [6; 0]; [1; 0]]%Z in
  let c_before := (8106479329266893 # 9007199254740992)%Q in
  let c_after := (4053239664633447 # 4503599627370496)%Q in
  let c_new := (3152519739159347 # 4503599627370496)%Q in
  let t_in := insert_vertex env 0 [0; 0]%Z [1; 0]%Z 3 (b 2) in
  (vertices (a 5) !! 5 = Some [7; 0]%Z ∧
   edges (a 4) !! 3 = Some 4 ∧ edges (a 5) !! 3 = Some 5 ∧
   compute_cost env 10 (a 4) 3 = Ok c_before ∧
   compute_cost env 10 (a 5) 5 = Ok c_new ∧
   compute_cost env 10 (a 5) 3 = Ok c_after ∧
   (float_add c_new (Demo.manhattan_tenth [9; 0]%Z [7; 0]%Z) < c_before)%Q ∧
   (c_before < c_after)%Q ∧
   ¬ (c_after == float_add c_new (Demo.manhattan_tenth [9; 0]%Z [7; 0]%Z))%Q
  ) ∧
  (vertices (b 3) = vertices t_in ∧
   edges t_in !! 3 = Some 0 ∧ edges (b 3) !! 3 = Some 0 ∧
   (2, [6; 0]%Z) ∈ GetNNInRad env (b 2) [1; 0]%Z 10 ∧
   rewire_test env 10 t_in 3 [1; 0]%Z (2, [6; 0]%Z) ∧
   edges (b 3) !! 1 = Some 3 ∧
   edges (b 3) !! 2 = Some 1 ∧ edges (b 2) !! 2 = Some 1).
Proof.
  cbv zeta. split.
  - repeat (split; [vm_compute; reflexivity |]).
    vm_compute. discriminate.
  - split; [vm_compute; reflexivity |].
    split; [vm_compute; reflexivity |].
    split; [vm_compute; reflexivity |].
    split.
    { vm_compute. apply list_elem_of_further, list_elem_of_further,
        list_elem_of_here. }
    split.
    { split; [vm_compute; reflexivity |].
      eexists _, _. split; [vm_compute; reflexivity |].
      split; [vm_compute; reflexivity |]. vm_compute. reflexivity. }
    repeat split; vm_compute; reflexivity.
Qed.

Lemma rewire_reparents_cheaper_neighbours_witness :
  metric_nonneg Demo.wall_env ∧
  0 < length (vertices Demo.detour_tree) ∧
  ∃ t_fin,
    rewire Demo.wall_env 10 4 [2; 0]%Z
      (GetNNInRad Demo.wall_env Demo.detour_tree [2; 0]%Z 10)
      (insert_vertex Demo.wall_env 0 [0; 0]%Z [2; 0]%Z 4 Demo.detour_tree)
      = (Ok tt, t_fin) ∧
    edges t_fin !! 3 = Some 4 ∧
    edges t_fin !! 0 = edges Demo.detour_tree !! 0.
Proof.
  split; [exact wall_env_nonneg |].
  split; [simpl; lia |].
  assert (Hlt : 0 < length (vertices Demo.detour_tree)) by (simpl; lia).
  destruct (rewire_reparents_cheaper_neighbours Demo.wall_env 10
              Demo.detour_tree [2; 0]%Z 10 0 [0; 0]%Z
              wall_env_nonneg Hlt) as [_ Hall].
  set (r := rewire Demo.wall_env 10 4 [2; 0]%Z
              (GetNNInRad Demo.wall_env Demo.detour_tree [2; 0]%Z 10)
              (insert_vertex Demo.wall_env 0 [0; 0]%Z [2; 0]%Z 4
                 Demo.detour_tree)).
  assert (Hr : r = (Ok tt, snd r)) by (vm_compute; reflexivity).
  exists (snd r). split; [exact Hr |].
  destruct (Hall _ Hr) as (Hturn & Hparent & _).
  split; [| exact Hparent].
  apply (Hturn [(0, [0; 0]%Z); (1, [0; 2]%Z); (2, [2; 2]%Z)] 3 [2; 1]%Z []);
    [vm_compute; reflexivity |].
  split; [vm_compute; reflexivity |].
  eexists _, _. split; [vm_compute; reflexivity |].
  split; [vm_compute; reflexivity |]. vm_compute. reflexivity.
Defined.

Lemma rev_is_reverse {A} (l : list A) : rev l = reverse l.
Proof. apply rev_alt. Qed.

Section ClaimsOnResult.
Context {config rng : Type} `{EqDecision config}.
Variable env : PlanningEnv config rng.
Variable numpy : NumpyRandom rng.
Variables (bias eta : Q) (max_iter : nat).
Variables polar_step_2d polar_step_3d : config → config → Q → config.

Local Abbreviation grow_loop' :=
  (grow_loop env numpy bias eta polar_step_2d polar_step_3d).
Local Abbreviation Plan' :=
  (Plan env numpy bias eta max_iter polar_step_2d polar_step_3d).
Local Abbreviation seeded := (fun start_config (s : state config rng) =>
  {| tree := snd (AddVertex start_config 0%Q (tree s));
     np_random := np_random s |}).

(** C7 (as amended): whenever [Plan] returns a path, the path is the
    reverse of the walk along parent edges from the vertex nearest to the
    goal, which satisfies the goal criterion, to the first vertex whose
    configuration equals the start configuration; so its first element
    is the start configuration, no later element is, and its last
    element satisfies the goal criterion.  The reported path cost is the
    float sum of the distances of consecutive path elements, taken left
    to right in path order, rounded to four decimal places. *)
Theorem returned_path_and_cost (fuel : nat)
    (start_config goal_config : config) (rad : Q)
    (s s' : state config rng) (path : list config) :
  Plan' fuel start_config goal_config rad s = (Ok (Some path), s') →
  ∃ vertex_id vertex chain,
    nearest_vertex env (tree s') goal_config = Ok (vertex_id, vertex) ∧
    goal_criterion env vertex = true ∧
    parent_chain (tree s') vertex_id chain ∧
    path = rev chain ∧
    head path = Some start_config ∧
    (∃ rest, path = start_config :: rest ∧ start_config ∉ rest) ∧
    last path = Some vertex ∧
    path_cost (tree s')
      = Some (py_round4 (py_sum (segment_costs env path))).
Proof.
  intros HP.
  destruct (grow_loop' fuel max_iter 1 goal_config rad
              (seeded start_config s)) as [o s1] eqn:Hloop.
  destruct o as [early | e |]; cycle 1.
  { destruct (Plan_loop_fails env numpy bias eta max_iter polar_step_2d
                polar_step_3d _ _ _ _ _ _ _ Hloop) as (o' & Ho' & Hno);
      [done |].
    rewrite HP in Ho'. injection Ho' as <- _. by destruct (Hno (Some path)). }
  { destruct (Plan_loop_fails env numpy bias eta max_iter polar_step_2d
                polar_step_3d _ _ _ _ _ _ _ Hloop) as (o' & Ho' & Hno);
      [done |].
    rewrite HP in Ho'. injection Ho' as <- _. by destruct (Hno (Some path)). }
  rewrite (Plan_after_loop env numpy bias eta max_iter polar_step_2d
             polar_step_3d _ _ _ _ _ _ _ Hloop) in HP.
  destruct (nearest_vertex env (tree s1) goal_config)
    as [[vid v] | e |] eqn:Hnear; [| done ..].
  assert (goal_criterion env v = true) as Hgoal.
  { destruct (goal_criterion env v) eqn:Hg; [done |].
    destruct early; [| done].
    destruct (grow_loop_early env numpy bias eta polar_step_2d
                polar_step_3d _ _ _ _ _ _ _ Hloop) as (vid' & v' & Hn' & Hg').
    congruence. }
  rewrite Hgoal in HP. simpl in HP.
  destruct (walk_to_start fuel (tree s1) start_config vid v [])
    as [chain | e |] eqn:Hwalk; [| done ..].
  injection HP as <- <-.
  pose proof (nearest_vertex_lookup env _ _ _ _ Hnear) as Hv.
  destruct (walk_to_start_first _ _ _ _ _ _ _ Hwalk)
    as (mid & Hmid & Hfirst).
  destruct (walk_to_start_spec _ _ _ _ _ _ _ Hv Hwalk)
    as (c & -> & Hchain & Hlast).
  exists vid, v, (v :: c). simpl app in *.
  split; [exact Hnear |]. split; [done |].
  split; [by eapply parent_chain_ext; [| | exact Hchain] |].
  split; [done |].
  split; [by rewrite rev_is_reverse, head_reverse |].
  split.
  { exists (rev mid). rewrite Hmid, rev_app_distr. split; [done |].
    by rewrite rev_is_reverse, elem_of_reverse. }
  split; [by rewrite rev_is_reverse, last_reverse |].
  done.
Qed.

(** C5: when the loop has used up its budget without an early goal-check
    success, [Plan] looks up the vertex nearest to the goal once more.  If
    it meets the goal criterion, a path is still searched for.  If it
    does not, [path] is still [None] at line 121, and [Plan] ends by
    raising [TypeError]: it returns nothing, and sets no path cost. *)
Theorem exhausted_plan_raises_TypeError (fuel : nat)
    (start_config goal_config : config) (rad : Q)
    (s s1 : state config rng) (vertex_id : nat) (vertex : config) :
  grow_loop' fuel max_iter 1 goal_config rad (seeded start_config s)
    = (Ok false, s1) →
  nearest_vertex env (tree s1) goal_config = Ok (vertex_id, vertex) →
  goal_criterion env vertex = false →
  Plan' fuel start_config goal_config rad s = (Raise TypeError, s1).
Proof.
  intros Hloop Hnear Hgoal.
  rewrite (Plan_after_loop env numpy bias eta max_iter polar_step_2d
             polar_step_3d _ _ _ _ _ _ _ Hloop).
  by rewrite Hnear, Hgoal.
Qed.

End ClaimsOnResult.

(** C7, the walk stops at the first copy of the start, and the reported
    cost is rounded.  Cells are a third of a unit wide and [eta] is 3.
    The fourth iteration samples the start cell itself and inserts it
    again, as vertex 4; vertex 3, at [8, 0], is re-parented to it, as
    0 + 8/3 = 2.6666666666666665 is less than the float sum
    6/3 + 1/3 + 1/3 = 2.666666666666667 along its old chain.  The walk
    back from vertex 3 stops at vertex 4: the returned path has two
    elements, while the chain to the root has three vertices.  Its cost
    2.6666666666666665 is reported as 2.6667. *)
Lemma path_stops_early_and_cost_is_rounded :
  let env := Demo.region_env Demo.manhattan_third [8; 0]%Z in
  let r := Plan env (Demo.numpy (fun _ => [])) 0 3 4
             Demo.grid_step_2d Demo.no_step_3d 10 [0; 0]%Z [8; 0]%Z 10
             (Demo.start_state [[1; 0]; [2; 0]; [8; 0]; [0; 0]]%Z) in
  let path := [[0; 0]; [8; 0]]%Z in
  fst r = Ok (Some path) ∧
  nearest_vertex env (tree (snd r)) [8; 0]%Z = Ok (3, [8; 0]%Z) ∧
  root_path (tree (snd r)) 3
    [(3, [8; 0]%Z); (4, [0; 0]%Z); (0, [0; 0]%Z)] ∧
  ¬ reverse_of_walk_to_root (tree (snd r)) 3 path ∧
  py_sum (segment_costs env path) = (6004799503160661 # 2251799813685248)%Q ∧
  path_cost (tree (snd r)) = Some (binary64 (26667 # 10000)) ∧
  ¬ (binary64 (26667 # 10000) == py_sum (segment_costs env path))%Q.
Proof.
  cbv zeta.
  set (r := Plan _ _ _ _ _ _ _ _ _ _ _ _).
  assert (Hroot : root_path (tree (snd r)) 3
            [(3, [8; 0]%Z); (4, [0; 0]%Z); (0, [0; 0]%Z)]).
  { apply root_path_step with (p := 4);
      [lia | vm_compute; reflexivity | vm_compute; reflexivity |].
    apply root_path_step with (p := 0);
      [lia | vm_compute; reflexivity | vm_compute; reflexivity |].
    apply root_path_root. vm_compute. reflexivity. }
  split; [vm_compute; reflexivity |].
  split; [vm_compute; reflexivity |].
  split; [exact Hroot |].
  split.
  { intros (l & Hl & Hp).
    rewrite (root_path_unique _ _ _ _ Hl Hroot) in Hp. discriminate. }
  split; [vm_compute; reflexivity |].
  split; [vm_compute; reflexivity |].
  vm_compute. discriminate.
Qed.

Lemma returned_path_and_cost_witness :
  let env := Demo.open_env Demo.manhattan 2 in
  let r := Plan env (Demo.numpy (fun _ => [])) 1 1 1
             Demo.grid_step_2d Demo.no_step_3d 10 [0; 0]%Z [3; 0]%Z 10
             (Demo.start_state []) in
  r = (Ok (Some [[0; 0]; [3; 0]]%Z), snd r) ∧
  ∃ vertex_id vertex chain,
    nearest_vertex env (tree (snd r)) [3; 0]%Z = Ok (vertex_id, vertex) ∧
    goal_criterion env vertex = true ∧
    parent_chain (tree (snd r)) vertex_id chain ∧
    [[0; 0]; [3; 0]]%Z = rev chain ∧
    head [[0; 0]; [3; 0]]%Z = Some [0; 0]%Z ∧
    (∃ rest, [[0; 0]; [3; 0]]%Z = [0; 0]%Z :: rest ∧ [0; 0]%Z ∉ rest) ∧
    last [[0; 0]; [3; 0]]%Z = Some vertex ∧
    path_cost (tree (snd r))
      = Some (py_round4 (py_sum (segment_costs env [[0; 0]; [3; 0]]%Z))).
Proof.
  cbv zeta.
  assert (Hr : Plan (Demo.open_env Demo.manhattan 2)
                 (Demo.numpy (fun _ => [])) 1 1 1
                 Demo.grid_step_2d Demo.no_step_3d 10 [0; 0]%Z [3; 0]%Z 10
                 (Demo.start_state [])
               = (Ok (Some [[0; 0]; [3; 0]]%Z),
                  snd (Plan (Demo.open_env Demo.manhattan 2)
                         (Demo.numpy (fun _ => [])) 1 1 1
                         Demo.grid_step_2d Demo.no_step_3d 10 [0; 0]%Z
                         [3; 0]%Z 10 (Demo.start_state []))))
    by (vm_compute; reflexivity).
  split; [exact Hr |].
  exact (returned_path_and_cost (Demo.open_env Demo.manhattan 2)
           (Demo.numpy (fun _ => [])) 1 1 1 Demo.grid_step_2d
           Demo.no_step_3d 10 [0; 0]%Z [3; 0]%Z 10 _ _ _ Hr).
Defined.

Lemma exhausted_plan_raises_TypeError_witness :
  let r := Plan Demo.wall_env (Demo.numpy (fun _ => [])) 0 2 2
             Demo.grid_step_2d Demo.no_step_3d 10 [0; 0]%Z [9; 9]%Z 10
             (Demo.start_state [[0; 1]; [2; 0]]%Z) in
  fst r = Raise TypeError ∧
  vertices (tree (snd r)) = [[0; 0]; [0; 2]; [4; 0]]%Z ∧
  path_cost (tree (snd r)) = None.
Proof.
  cbv zeta.
  set (s0 := {| tree := snd (AddVertex [0; 0]%Z 0 (tree (Demo.start_state
                  [[0; 1]; [2; 0]]%Z)));
                np_random := np_random (Demo.start_state
                  [[0; 1]; [2; 0]]%Z) |}).
  set (loop := grow_loop Demo.wall_env (Demo.numpy (fun _ => [])) 0 2
                 Demo.grid_step_2d Demo.no_step_3d 10 2 1 [9; 9]%Z 10 s0).
  assert (Hloop : loop = (Ok false, snd loop)) by (vm_compute; reflexivity).
  assert (Hnear : nearest_vertex Demo.wall_env (tree (snd loop)) [9; 9]%Z
                  = Ok (2, [4; 0]%Z)) by (vm_compute; reflexivity).
  rewrite (exhausted_plan_raises_TypeError Demo.wall_env
             (Demo.numpy (fun _ => [])) 0 2 2 Demo.grid_step_2d
             Demo.no_step_3d 10 [0; 0]%Z [9; 9]%Z 10 _ _ _ _ Hloop Hnear
             eq_refl).
  split; [reflexivity |]. split; vm_compute; reflexivity.
Defined.

Section ClaimsOnObject.
Context {config rng : Type} `{EqDecision config}.
Variable numpy : NumpyRandom rng.
Variables polar_step_2d polar_step_3d : config → config → Q → config.

Local Abbreviation init := (RRTStarPlanner_init (config := config) numpy).
Local Abbreviation call := (call_Plan numpy polar_step_2d polar_step_3d).

(** C9 (as amended): when [c_space_dim] is neither 2 nor 3, constructing
    the planner succeeds, with an empty tree.  The failure comes from
    [extend], every call of which raises an unbound-local error: [Plan]
    raises it in the first Growing iteration, after the root was
    inserted, provided the sampling loop of that iteration has yielded a
    sample with a valid edge.  No [InvalidDimension] failure exists, and
    with [max_iter = 0] the dimension causes no failure at all. *)
Theorem bad_dimension_fails_in_extend
    (planning_env : PlanningEnv config rng) (bias eta : Q) :
  c_space_dim planning_env ≠ 2 → c_space_dim planning_env ≠ 3 →
  (∀ rand_seed max_iter g,
     init planning_env rand_seed bias eta max_iter g
     = (Ok {| self_env := planning_env; self_tree := empty_tree;
              self_bias := bias; self_max_iter := max_iter;
              self_eta := eta |},
        np_random_seed numpy rand_seed)) ∧
  (∀ x_nearest x_rand,
     extend planning_env eta polar_step_2d polar_step_3d x_nearest x_rand
     = Raise UnboundLocalError) ∧
  (∀ max_iter fuel start_config goal_config rad (s s2 : state config rng) x,
     sample_until_valid planning_env numpy bias fuel goal_config
       {| tree := snd (AddVertex start_config 0%Q (tree s));
          np_random := np_random s |} = (Ok x, s2) →
     Plan planning_env numpy bias eta (S max_iter) polar_step_2d
       polar_step_3d fuel start_config goal_config rad s
     = (Raise UnboundLocalError, s2) ∧
     tree s2 = snd (AddVertex start_config 0%Q (tree s))) ∧
  (∀ fuel start_config goal_config rad (s : state config rng),
     let o := fst (Plan planning_env numpy bias eta 0 polar_step_2d
                     polar_step_3d fuel start_config goal_config rad s) in
     o ≠ Raise UnboundLocalError ∧ o ≠ Raise InvalidDimension).
Proof.
  intros H2 H3.
  assert (Hext : ∀ x_nearest x_rand,
    extend planning_env eta polar_step_2d polar_step_3d x_nearest x_rand
    = Raise UnboundLocalError).
  { intros. unfold extend. by rewrite !decide_False. }
  split; [done |]. split; [exact Hext |]. split.
  - intros max_iter fuel start_config goal_config rad s s2
      [[x_rand id] x_nearest] Hs.
    pose proof (sample_until_valid_tree planning_env numpy bias fuel
                  goal_config
                  {| tree := snd (AddVertex start_config 0%Q (tree s));
                     np_random := np_random s |}) as Ht.
    rewrite Hs in Ht. simpl in Ht. split; [| done].
    unfold Plan. unfold bind at 1, on_tree at 1. cbn [fst snd].
    unfold bind at 1. cbn [grow_loop]. unfold bind at 1. unfold grow.
    unfold bind at 1. rewrite Hs. unfold bind at 1, lift at 1.
    by rewrite Hext.
  - intros fuel start_config goal_config rad s. cbv zeta.
    rewrite (Plan_after_loop planning_env numpy bias eta 0 polar_step_2d
               polar_step_3d fuel start_config goal_config rad s false
               {| tree := snd (AddVertex start_config 0%Q (tree s));
                  np_random := np_random s |}) by done.
    unfold nearest_vertex.
    destruct (GetNearestVertex _ _ _) as [[i d] |]; [| done].
    destruct (vertices _ !! i); [| done].
    destruct (goal_criterion planning_env c || false); [| done].
    assert (∀ fuel' t st vid v p,
      walk_to_start fuel' t st vid v p ≠ Raise UnboundLocalError ∧
      walk_to_start (config := config) fuel' t st vid v p
        ≠ Raise InvalidDimension) as Hw.
    { induction fuel' as [| fuel' IH]; intros; simpl.
      - by case_decide.
      - case_decide; [done |].
        destruct (edges t !! vid); [| done].
        destruct (vertices t !! _); [apply IH | done]. }
    specialize (Hw fuel (snd (AddVertex start_config 0%Q (tree s)))
                  start_config i c []).
    destruct (walk_to_start _ _ _ _ _ _); simpl; [done | | done].
    destruct Hw. split; congruence.
Qed.

(** C10: [Plan] never resets the tree.  The constructor creates it,
    empty; a call of [Plan] appends its start configuration and then only
    appends vertices and adds or overwrites parent edges.  So after a
    second call on the same planner the tree still holds every vertex of
    the first call under its id and a parent edge for every vertex that
    had one, and the second start configuration sits at the first free
    id, which is not 0. *)
Theorem plan_keeps_earlier_tree (self : RRTStarPlanner config rng)
    (fuel1 fuel2 : nat) (start1 goal1 start2 goal2 : config)
    (rad1 rad2 : Q) (g : rng) :
  let r1 := call self fuel1 start1 goal1 rad1 g in
  let self1 := fst (snd r1) in
  let r2 := call self1 fuel2 start2 goal2 rad2 (snd (snd r1)) in
  let self2 := fst (snd r2) in
  (∀ planning_env rand_seed bias eta max_iter g0 self0 g0',
     init planning_env rand_seed bias eta max_iter g0 = (Ok self0, g0') →
     self_tree self0 = empty_tree) ∧
  (∃ added, vertices (self_tree self1)
            = vertices (self_tree self) ++ start1 :: added) ∧
  dom (edges (self_tree self)) ⊆ dom (edges (self_tree self1)) ∧
  (∃ added, vertices (self_tree self2)
            = vertices (self_tree self1) ++ start2 :: added) ∧
  dom (edges (self_tree self1)) ⊆ dom (edges (self_tree self2)) ∧
  vertices (self_tree self2) !! length (vertices (self_tree self1))
    = Some start2 ∧
  length (vertices (self_tree self1)) ≠ 0.
Proof.
  cbv zeta. unfold call_Plan.
  destruct (Plan (self_env self) _ _ _ _ _ _ fuel1 _ _ _ _)
    as [o1 s1] eqn:HP1.
  cbn [fst snd self_env self_tree self_bias self_eta self_max_iter].
  destruct (Plan (self_env self) _ _ _ _ _ _ fuel2 _ _ _ _)
    as [o2 s2] eqn:HP2.
  cbn [fst snd self_tree].
  apply Plan_appends in HP1 as [[a1 Hv1] Hd1].
  apply Plan_appends in HP2 as [[a2 Hv2] Hd2].
  simpl in *.
  split; [by intros ? ? ? ? ? ? ? ? [= <- _] |].
  split; [eauto |]. split; [done |]. split; [eauto |]. split; [done |].
  split.
  - rewrite Hv2. by rewrite list_lookup_middle.
  - rewrite Hv1, length_app. simpl. lia.
Qed.

End ClaimsOnObject.

(** C9, nothing checks the dimension at construction: over a
    four-dimensional environment the planner is constructed, [Plan] inserts
    the root, and the first call of [extend] fails with an unbound local,
    not with [InvalidDimension]. *)
Lemma dimension_four_fails_late :
  let env := Demo.open_env Demo.manhattan 4 in
  let numpy := Demo.numpy (fun _ => []) in
  fst (RRTStarPlanner_init numpy env 7 1 1 3 [])
    ≠ Raise InvalidDimension ∧
  ∃ self,
    construct_and_plan numpy Demo.grid_step_2d Demo.no_step_3d env 7 1 1 3
      10 [0; 0]%Z [3; 0]%Z 10 []
    = (Raise UnboundLocalError, Some self) ∧
    vertices (self_tree self) = [[0; 0]%Z].
Proof.
  cbv zeta. split; [discriminate |].
  eexists. split; [vm_compute; reflexivity | reflexivity].
Qed.

Lemma bad_dimension_fails_in_extend_witness :
  let env := Demo.open_env Demo.manhattan 4 in
  c_space_dim env ≠ 2 ∧ c_space_dim env ≠ 3 ∧
  extend env 1 Demo.grid_step_2d Demo.no_step_3d [0; 0]%Z [3; 0]%Z
    = Raise UnboundLocalError.
Proof.
  cbv zeta.
  assert (H2 : c_space_dim (Demo.open_env Demo.manhattan 4) ≠ 2)
    by (simpl; lia).
  assert (H3 : c_space_dim (Demo.open_env Demo.manhattan 4) ≠ 3)
    by (simpl; lia).
  split; [exact H2 |]. split; [exact H3 |].
  apply (bad_dimension_fails_in_extend (Demo.numpy (fun _ => []))
           Demo.grid_step_2d Demo.no_step_3d
           (Demo.open_env Demo.manhattan 4) 1 1 H2 H3).
Defined.

(** ** [extend] and its rounding *)

Section ExtendFacts.
Local Open Scope R_scope.
Import Extend.
Local Ltac lra := Lra.lra.


Lemma np_round_IZR (z : Z) : np_round (IZR z) = z.
Proof.
  unfold np_round.
  assert (Int_part (IZR z) = z) as Hi.
  { symmetry. apply Int_part_spec. lra. }
  assert (frac_part (IZR z) = 0) as Hf.
  { unfold frac_part. rewrite Hi. lra. }
  rewrite Hi, Hf. destruct (Rlt_dec 0 (1 / 2)); [done | lra].
Qed.


Lemma astype_int_in_range (int_of_big : R → Z) (x : R) :
  (- 2 ^ 63 ≤ np_round x < 2 ^ 63)%Z →
  astype_int int_of_big x = np_round x.
Proof. intros Hx. unfold astype_int. by rewrite decide_True. Qed.

Lemma astype_int_IZR (int_of_big : R → Z) (z : Z) :
  (- 2 ^ 63 ≤ z < 2 ^ 63)%Z → astype_int int_of_big (IZR z) = z.
Proof.
  intros Hz. rewrite astype_int_in_range; rewrite np_round_IZR; done.
Qed.


Lemma atan2_east (x : R) : 0 < x → atan2 0 x = 0.
Proof.
  intros Hx. unfold atan2. destruct (Rlt_dec 0 x); [| done].
  replace (0 / x) with 0 by (field; lra). apply atan_0.
Qed.

Lemma atan2_north (y : R) : 0 < y → atan2 y 0 = PI / 2.
Proof.
  intros Hy. unfold atan2.
  destruct (Rlt_dec 0 0); [lra |]. destruct (Rlt_dec 0 0); [lra |].
  destruct (Rlt_dec 0 y); [done | lra].
Qed.



(** Without rounding error, [extend] along a grid row and along a grid
    column, for any distance function. *)
Lemma extend_along_row (cd : list R → list R → R) (eta n0 n1 r0 : R) :
  n0 < r0 →
  exact_extend cd 2 eta [n0; n1] [r0; n1]
  = Ok [astype_int (fun _ => 0%Z) (n0 + cd [n0; n1] [r0; n1] * eta);
        astype_int (fun _ => 0%Z) n1].
Proof.
  intros Hlt. unfold exact_extend, extend, raw_step, angle_2d,
    scaled_distance. simpl.
  replace (n1 - n1) with 0 by ring.
  rewrite atan2_east by lra. rewrite cos_0, sin_0.
  do 3 f_equal; [f_equal; ring | f_equal; f_equal; ring].
Qed.

Lemma extend_along_column (cd : list R → list R → R) (eta n0 n1 r1 : R) :
  n1 < r1 →
  exact_extend cd 2 eta [n0; n1] [n0; r1]
  = Ok [astype_int (fun _ => 0%Z) n0;
        astype_int (fun _ => 0%Z) (n1 + cd [n0; n1] [n0; r1] * eta)].
Proof.
  intros Hlt. unfold exact_extend, extend, raw_step, angle_2d,
    scaled_distance. simpl.
  replace (n0 - n0) with 0 by ring.
  rewrite atan2_north by lra. rewrite cos_PI2, sin_PI2.
  do 3 f_equal; [f_equal; ring | f_equal; f_equal; ring].
Qed.

(** The cells met in the example runs are the cells [extend] yields. *)
Lemma extend_cells_of_examples :
  exact_extend manhattan 2 2 [0; 0] [0; 1] = Ok [0; 2]%Z ∧
  exact_extend manhattan 2 2 [0; 0] [2; 0] = Ok [4; 0]%Z ∧
  exact_extend manhattan 2 1 [0; 0] [3; 0] = Ok [3; 0]%Z.
Proof.
  assert (Hm : ∀ a b : R, a <= b → Rabs (a - b) = b - a).
  { intros a b Hab. rewrite Rabs_left1; lra. }
  repeat split.
  - rewrite extend_along_column by lra. unfold manhattan.
    rewrite !Hm by lra.
    replace (0 + (0 - 0 + (1 - 0)) * 2) with (IZR 2) by (simpl; ring).
    by rewrite !astype_int_IZR by lia.
  - rewrite extend_along_row by lra. unfold manhattan.
    rewrite !Hm by lra.
    replace (0 + (2 - 0 + (0 - 0)) * 2) with (IZR 4) by (simpl; ring).
    by rewrite !astype_int_IZR by lia.
  - rewrite extend_along_row by lra. unfold manhattan.
    rewrite !Hm by lra.
    replace (0 + (3 - 0 + (0 - 0)) * 1) with (IZR 3) by (simpl; ring).
    by rewrite !astype_int_IZR by lia.
Qed.






End ExtendFacts.

(** The same cells from the step function of the example runs. *)
Lemma grid_step_cells_of_examples :
  Demo.grid_step_2d [0; 0]%Z [0; 1]%Z
    (float_mul (Demo.manhattan [0; 0]%Z [0; 1]%Z) 2) = [0; 2]%Z ∧
  Demo.grid_step_2d [0; 0]%Z [2; 0]%Z
    (float_mul (Demo.manhattan [0; 0]%Z [2; 0]%Z) 2) = [4; 0]%Z ∧
  Demo.grid_step_2d [0; 0]%Z [3; 0]%Z
    (float_mul (Demo.manhattan [0; 0]%Z [3; 0]%Z) 1) = [3; 0]%Z.
Proof. repeat split; vm_compute; reflexivity. Qed.

(** * Further properties of the planner *)

(** ** [compute_cost] *)

Section MoreOnCost.
Context {config rng : Type}.
Variable env : PlanningEnv config rng.

Local Abbreviation dist := (compute_distance env).
Local Abbreviation cc := (chain_cost env).
Implicit Types (t : RRTTree config).

(** X2: With non-negative distances no returned cost is negative. *)
Theorem cost_is_nonnegative (t : RRTTree config) (fuel v : nat) (c : Q) :
  metric_nonneg env →
  compute_cost env fuel t v = Ok c → (0 <= c)%Q.
Proof.
  intros Hnn Hc.
  destruct (compute_cost_ok env _ _ _ _ Hc) as (l & _ & _ & ->).
  by apply chain_cost_nonneg.
Qed.

(** X16: With non-negative distances the cost of a vertex is at least
    the cost of every vertex on its chain to the root, although both are
    float sums: rounding to the nearest float is monotone. *)
Theorem ancestor_cost_is_no_larger (t : RRTTree config) (v u : nat)
    (l : list (nat * config)) :
  metric_nonneg env →
  root_path t v l → u ∈ l.*1 →
  ∃ c_u c_v,
    compute_cost env (length (vertices t)) t u = Ok c_u ∧
    compute_cost env (length (vertices t)) t v = Ok c_v ∧
    (c_u <= c_v)%Q.
Proof.
  intros Hnn Hv Hu.
  destruct (root_path_suffix t v l u Hv Hu)
    as (pre & x & rest & -> & Hpu).
  pose proof (root_path_length _ _ _ Hv) as Hlv.
  pose proof (root_path_length _ _ _ Hpu) as Hlu.
  exists (cc 0 ((u, x) :: rest).*2), (cc 0 (pre ++ (u, x) :: rest).*2).
  split; [apply compute_cost_path; [done | lia] |].
  split; [apply compute_cost_path; [done | lia] |].
  rewrite fmap_app, !fmap_cons. cbn [snd].
  by apply chain_cost_suffix_le.
Qed.

(** *** A walk that has not ended within |tree| rounds never ends *)

Lemma parent_walk_head t v u l w : parent_walk t v (u :: l) w → v = u.
Proof. by inversion 1. Qed.

Lemma parent_walk_app t v l1 l2 w :
  parent_walk t v (l1 ++ l2) w →
  ∃ m, parent_walk t v l1 m ∧ parent_walk t m l2 w.
Proof.
  revert v. induction l1 as [| a l1 IH]; intros v; simpl.
  - intros Hw. exists v. split; [constructor | done].
  - inversion 1 as [| v' p xp l' w' Hv Hp Hxp Hrest]; subst.
    destruct (IH _ Hrest) as (m & H1 & H2).
    exists m. split; [by econstructor | done].
Qed.

Lemma parent_walk_in_range t v l w u :
  parent_walk t v l w → v < length (vertices t) → u ∈ l →
  u ≠ 0 ∧ u < length (vertices t).
Proof.
  induction 1 as [| v p xp l w Hv Hp Hxp Hrest IH]; intros Hlt Hin.
  - by apply elem_of_nil in Hin.
  - apply elem_of_cons in Hin as [-> | Hin]; [done |].
    apply IH; [by eapply lookup_lt_Some | done].
Qed.

(** Running out of fuel means standing on a vertex other than the root
    after as many edges as there was fuel. *)
Lemma diverge_parent_walk fuel t v (x : config) acc :
  compute_cost_loop env fuel t v x acc = Diverge →
  ∃ l w, parent_walk t v l w ∧ length l = fuel ∧ w ≠ 0.
Proof.
  revert v x acc. induction fuel as [| fuel IH]; intros v x acc; simpl.
  - case_decide as Hv; [done |]. intros _.
    exists [], v. split; [constructor | done].
  - case_decide as Hv; [done |].
    destruct (edges t !! v) as [p |] eqn:Hp; [| done].
    destruct (vertices t !! p) as [xp |] eqn:Hxp; [| done].
    intros Hd. destruct (IH _ _ _ Hd) as (l & w & Hw & Hlen & Hw0).
    exists (v :: l), w. split; [by econstructor |]. simpl. by rewrite Hlen.
Qed.

(** Along a walk the loop either runs out of fuel or goes on from the end
    of the walk. *)
Lemma parent_walk_run t v l w fuel (x : config) acc :
  parent_walk t v l w →
  (fuel < length l → compute_cost_loop env fuel t v x acc = Diverge) ∧
  (length l ≤ fuel → ∃ xw acc',
     compute_cost_loop env fuel t v x acc
     = compute_cost_loop env (fuel - length l) t w xw acc').
Proof.
  intros Hw. revert fuel x acc.
  induction Hw as [| v p xp l w Hv Hp Hxp Hrest IH]; intros fuel x acc.
  - split; [simpl; lia |]. intros _. exists x, acc. simpl.
    by rewrite Nat.sub_0_r.
  - destruct fuel as [| fuel]; simpl.
    + split; [| lia]. intros _. by rewrite decide_False.
    + rewrite decide_False by done. rewrite Hp, Hxp.
      destruct (IH fuel xp (float_add acc (dist x xp))) as [Hshort Hlong].
      split; [intros; apply Hshort; lia |].
      intros Hle. apply Hlong. lia.
Qed.

Lemma walk_on_cycle_diverges t u l fuel (x : config) acc :
  parent_walk t u l u → l ≠ [] →
  compute_cost_loop env fuel t u x acc = Diverge.
Proof.
  intros Hw Hne. revert x acc.
  induction fuel as [fuel IH] using lt_wf_ind. intros x acc.
  destruct (parent_walk_run t u l u fuel x acc Hw) as [Hshort Hlong].
  destruct (decide (fuel < length l)) as [Hlt | Hge]; [by apply Hshort |].
  destruct Hlong as (xw & acc' & ->); [lia |].
  assert (0 < length l) by (destruct l; [done | simpl; lia]).
  apply IH. lia.
Qed.

Lemma repeated_element (l : list nat) :
  ¬ NoDup l → ∃ l1 u l2 l3, l = l1 ++ u :: l2 ++ u :: l3.
Proof.
  induction l as [| a l IH]; intros Hnd.
  - destruct Hnd. constructor.
  - destruct (decide (a ∈ l)) as [Hin | Hout].
    + apply list_elem_of_split in Hin as (l2 & l3 & ->).
      by exists [], a, l2, l3.
    + destruct IH as (l1 & u & l2 & l3 & ->).
      { intros Hl. apply Hnd. by constructor. }
      by exists (a :: l1), u, l2, l3.
Qed.

(** X3: If the walk from an inserted vertex [v] has not ended after as many
    rounds as the tree has vertices, it is caught in a cycle of parent
    edges and never ends.  Otherwise its outcome is final: the cost, or
    [KeyError] for a missing parent edge, or [IndexError] for a parent
    that is not a vertex. *)
Theorem cost_walk_ends_within_tree_size_or_never (t : RRTTree config)
    (v : nat) :
  let o := compute_cost env (length (vertices t)) t v in
  (o = Diverge → ∀ fuel, compute_cost env fuel t v = Diverge) ∧
  (o ≠ Diverge →
     ∀ fuel, length (vertices t) ≤ fuel → compute_cost env fuel t v = o) ∧
  (∀ e, o = Raise e → e = KeyError ∨ e = IndexError).
Proof.
  cbv zeta. split; [| split].
  - unfold compute_cost.
    destruct (vertices t !! v) as [x |] eqn:Hx; [| done].
    intros Hd fuel.
    destruct (diverge_parent_walk _ _ _ _ _ Hd) as (l & w & Hw & Hlen & _).
    assert (¬ NoDup l) as Hdup.
    { intros Hnd.
      assert (l ⊆+ seq 1 (length (vertices t) - 1)) as Hsub.
      { apply NoDup_submseteq; [done |].
        intros u Hu. apply elem_of_seq.
        destruct (parent_walk_in_range _ _ _ _ u Hw) as [Hu0 Hult];
          [by eapply lookup_lt_Some | done |].
        lia. }
      apply submseteq_length in Hsub. rewrite length_seq in Hsub.
      apply lookup_lt_Some in Hx. lia. }
    destruct (repeated_element l Hdup) as (l1 & u & l2 & l3 & ->).
    destruct (parent_walk_app _ _ _ _ _ Hw) as (m & H1 & H2).
    pose proof (parent_walk_head _ _ _ _ _ H2) as ->.
    change (u :: l2 ++ u :: l3) with ((u :: l2) ++ u :: l3) in H2.
    destruct (parent_walk_app _ _ _ _ _ H2) as (m & Hcyc & H3).
    pose proof (parent_walk_head _ _ _ _ _ H3) as ->.
    destruct (parent_walk_run t v l1 u fuel x 0%Q H1) as [Hshort Hlong].
    destruct (decide (fuel < length l1)) as [Hlt | Hge]; [by apply Hshort |].
    destruct Hlong as (xw & acc' & ->); [lia |].
    by eapply walk_on_cycle_diverges.
  - intros Hfin fuel Hle. by apply compute_cost_mono.
  - intros e. unfold compute_cost.
    destruct (vertices t !! v) as [x |]; [| intros [= <-]; by right].
    generalize (length (vertices t)) at 1. intros fuel. generalize 0%Q.
    revert v x. induction fuel as [| fuel IH]; intros v x acc; simpl.
    + by case_decide.
    + case_decide; [done |].
      destruct (edges t !! v); [| intros [= <-]; by left].
      destruct (vertices t !! _); [apply IH | intros [= <-]; by right].
Qed.

End MoreOnCost.

Lemma cost_is_nonnegative_witness :
  metric_nonneg Demo.wall_env ∧
  compute_cost Demo.wall_env 1 Demo.two_tree 1 = Ok 2%Q ∧ (0 <= 2)%Q.
Proof.
  split; [exact wall_env_nonneg |]. split; [reflexivity |].
  apply (cost_is_nonnegative Demo.wall_env Demo.two_tree 1 1 2
           wall_env_nonneg).
  reflexivity.
Defined.

Lemma cost_walk_ends_within_tree_size_or_never_witness :
  compute_cost Demo.wall_env 3 Demo.cyclic_tree 1 = Diverge ∧
  compute_cost Demo.wall_env 1000 Demo.cyclic_tree 1 = Diverge ∧
  compute_cost Demo.wall_env 2 Demo.two_tree 1 ≠ Diverge ∧
  compute_cost Demo.wall_env 1000 Demo.two_tree 1
    = compute_cost Demo.wall_env 2 Demo.two_tree 1.
Proof.
  split; [reflexivity |]. split.
  - apply (proj1 (cost_walk_ends_within_tree_size_or_never Demo.wall_env
                    Demo.cyclic_tree 1)).
    reflexivity.
  - split; [discriminate |].
    apply (proj1 (proj2 (cost_walk_ends_within_tree_size_or_never
                           Demo.wall_env Demo.two_tree 1)));
      [discriminate | simpl; lia].
Defined.

Lemma ancestor_cost_is_no_larger_witness :
  let env := Demo.open_env Demo.manhattan_tenth 2 in
  let t := tree (snd (Plan env (Demo.numpy (fun _ => [])) 0 10 3
                        Demo.grid_step_2d Demo.no_step_3d 10 [0; 0]%Z
                        [50; 0]%Z 10
                        (Demo.start_state [[2; 0]; [5; 0]; [9; 0]]%Z))) in
  metric_nonneg env ∧
  root_path t 3 [(3, [9; 0]%Z); (2, [5; 0]%Z); (1, [2; 0]%Z);
                 (0, [0; 0]%Z)] ∧
  ∃ c_u c_v,
    compute_cost env (length (vertices t)) t 2 = Ok c_u ∧
    compute_cost env (length (vertices t)) t 3 = Ok c_v ∧
    (c_u <= c_v)%Q.
Proof.
  cbv zeta.
  set (t := tree (snd (Plan _ _ _ _ _ _ _ _ _ _ _ _))).
  assert (Hnn : metric_nonneg (Demo.open_env Demo.manhattan_tenth 2)).
  { intros a b. apply binary64_nonneg.
    apply Qmult_le_0_compat; [| apply manhattan_nonneg].
    vm_compute. discriminate. }
  assert (Hp : root_path t 3 [(3, [9; 0]%Z); (2, [5; 0]%Z); (1, [2; 0]%Z);
                              (0, [0; 0]%Z)]).
  { apply root_path_step with (p := 2);
      [lia | vm_compute; reflexivity | vm_compute; reflexivity |].
    apply root_path_step with (p := 1);
      [lia | vm_compute; reflexivity | vm_compute; reflexivity |].
    apply root_path_step with (p := 0);
      [lia | vm_compute; reflexivity | vm_compute; reflexivity |].
    apply root_path_root. vm_compute. reflexivity. }
  split; [exact Hnn |]. split; [exact Hp |].
  apply (ancestor_cost_is_no_larger (Demo.open_env Demo.manhattan_tenth 2)
           t 3 2 _ Hnn Hp).
  simpl. apply list_elem_of_further, list_elem_of_here.
Defined.

(** ** [Plan]: results, budget and the tree it leaves *)

Section MoreOnPlan.
Context {config rng : Type} `{EqDecision config}.
Variable env : PlanningEnv config rng.
Variable numpy : NumpyRandom rng.
Variables (bias eta : Q).
Variables polar_step_2d polar_step_3d : config → config → Q → config.

Local Abbreviation St := (state config rng).
Local Abbreviation grow' :=
  (grow env numpy bias eta polar_step_2d polar_step_3d).
Local Abbreviation grow_loop' :=
  (grow_loop env numpy bias eta polar_step_2d polar_step_3d).
Local Abbreviation Plan' max_iter :=
  (Plan env numpy bias eta max_iter polar_step_2d polar_step_3d).
Local Abbreviation seeded start_config s :=
  ({| tree := snd (AddVertex start_config 0%Q (tree s));
      np_random := np_random s |}).
Implicit Types (t : RRTTree config) (s : St).

(** X4: [Plan] never returns [None]: it returns a path, raises, or does not
    end. *)
Theorem plan_never_returns_none (max_iter fuel : nat)
    (start_config goal_config : config) (rad : Q) (s : St) :
  fst (Plan env numpy bias eta max_iter polar_step_2d polar_step_3d fuel
         start_config goal_config rad s) ≠ Ok None.
Proof.
  destruct (grow_loop' fuel max_iter 1 goal_config rad
              (seeded start_config s)) as [o s1] eqn:Hloop.
  destruct o as [early | e |]; cycle 1.
  { destruct (Plan_loop_fails env numpy bias eta max_iter polar_step_2d
                polar_step_3d _ _ _ _ _ _ _ Hloop) as (o' & -> & Hno);
      [done |]. apply Hno. }
  { destruct (Plan_loop_fails env numpy bias eta max_iter polar_step_2d
                polar_step_3d _ _ _ _ _ _ _ Hloop) as (o' & -> & Hno);
      [done |]. apply Hno. }
  rewrite (Plan_after_loop env numpy bias eta max_iter polar_step_2d
             polar_step_3d _ _ _ _ _ _ _ Hloop).
  destruct (nearest_vertex env (tree s1) goal_config) as [[vid v] | e |];
    [| done ..].
  destruct (goal_criterion env v || early); [| done].
  by destruct (walk_to_start _ _ _ _ _ _).
Qed.

(** *** The path cost attribute *)

Lemma rewire_step_path_cost fuel n (x_new : config) nb t :
  path_cost (snd (rewire_step env fuel n x_new nb t)) = path_cost t.
Proof.
  unfold rewire_step. destruct nb as [v xv].
  repeat (case_match; simpl; try done).
Qed.

Lemma rewire_path_cost fuel n (x_new : config) near t :
  path_cost (snd (rewire env fuel n x_new near t)) = path_cost t.
Proof.
  revert t. induction near as [| nb near IH]; intros t; [done |].
  cbn [rewire].
  pose proof (rewire_step_path_cost fuel n x_new nb t) as Hs.
  destruct (rewire_step env fuel n x_new nb t) as [[[] | e |] t'];
    simpl in *; [| done ..].
  by rewrite IH.
Qed.

Lemma connect_path_cost fuel branch_id rad id0 (x0 x_new : config) t :
  path_cost (snd (connect env fuel branch_id rad id0 x0 x_new t))
  = path_cost t.
Proof.
  unfold connect.
  destruct (compute_cost env fuel t id0); simpl; try done.
  destruct (select_parent _ _ _ _ _ _ _ _) as [[[id x] c] | |]; simpl;
    try done.
  by rewrite rewire_path_cost.
Qed.

Lemma grow_path_cost fuel branch_id goal rad s :
  path_cost (tree (snd (grow' fuel branch_id goal rad s)))
  = path_cost (tree s).
Proof.
  unfold grow. unfold bind at 1.
  pose proof (sample_until_valid_tree env numpy bias fuel goal s) as Hs.
  destruct (sample_until_valid env numpy bias fuel goal s)
    as [[[[x_rand id] x_nearest] | e |] s1]; simpl in Hs;
    [| simpl; by rewrite Hs ..].
  unfold bind, lift.
  destruct (extend env eta polar_step_2d polar_step_3d x_nearest x_rand)
    as [x_new | e |]; [| simpl; by rewrite Hs ..].
  unfold on_tree. rewrite <- Hs.
  pose proof (connect_path_cost fuel branch_id rad id x_nearest x_new
                (tree s1)) as Hc.
  by destruct (connect _ _ _ _ _ _ _ _).
Qed.

Lemma grow_loop_path_cost fuel n branch_id goal rad s :
  path_cost (tree (snd (grow_loop' fuel n branch_id goal rad s)))
  = path_cost (tree s).
Proof.
  revert branch_id s. induction n as [| n IH]; intros branch_id s; [done |].
  cbn [grow_loop]. unfold bind at 1.
  pose proof (grow_path_cost fuel branch_id goal rad s) as Hg.
  destruct (grow' fuel branch_id goal rad s) as [[[] | e |] s1];
    simpl in Hg; [| done ..].
  case_decide; [| by rewrite IH].
  unfold bind, get_tree, lift. simpl.
  destruct (nearest_vertex env (tree s1) goal) as [[vid v] | e |];
    simpl; [| done ..].
  destruct (goal_criterion env v); [done | by rewrite IH].
Qed.

(** X5: [Plan] assigns the path cost only when it returns a path: when it
    raises, or does not end, the tree keeps the path cost it had before
    the call. *)
Theorem path_cost_kept_unless_path_returned (max_iter fuel : nat)
    (start_config goal_config : config) (rad : Q) (s s' : St)
    (o : outcome (option (list config))) :
  Plan env numpy bias eta max_iter polar_step_2d polar_step_3d fuel
    start_config goal_config rad s = (o, s') →
  (∀ p, o ≠ Ok p) →
  path_cost (tree s') = path_cost (tree s).
Proof.
  pose proof (grow_loop_path_cost fuel max_iter 1 goal_config rad
                (seeded start_config s)) as Hpc.
  destruct (grow_loop' fuel max_iter 1 goal_config rad
              (seeded start_config s)) as [o1 s1] eqn:Hloop.
  simpl in Hpc.
  destruct o1 as [early | e |]; cycle 1.
  { destruct (Plan_loop_fails env numpy bias eta max_iter polar_step_2d
                polar_step_3d _ _ _ _ _ _ _ Hloop) as (o' & -> & _);
      [done |]. by intros [= _ <-] _. }
  { destruct (Plan_loop_fails env numpy bias eta max_iter polar_step_2d
                polar_step_3d _ _ _ _ _ _ _ Hloop) as (o' & -> & _);
      [done |]. by intros [= _ <-] _. }
  rewrite (Plan_after_loop env numpy bias eta max_iter polar_step_2d
             polar_step_3d _ _ _ _ _ _ _ Hloop).
  destruct (nearest_vertex env (tree s1) goal_config) as [[vid v] | e |];
    [| by intros [= _ <-] _ ..].
  destruct (goal_criterion env v || early); [| by intros [= _ <-] _].
  destruct (walk_to_start _ _ _ _ _ _) as [chain | e |];
    [| by intros [= _ <-] _ ..].
  intros [= <- _] Hno. by destruct (Hno (Some (rev chain))).
Qed.

(** *** The iteration budget *)

Lemma connect_adds_one fuel branch_id rad id0 (x0 x_new : config) t t' :
  connect env fuel branch_id rad id0 x0 x_new t = (Ok tt, t') →
  vertices t' = vertices t ++ [x_new].
Proof.
  unfold connect.
  destruct (compute_cost env fuel t id0); [| done ..].
  destruct (select_parent _ _ _ _ _ _ _ _) as [[[id x] c] | |]; [| done ..].
  intros Hr.
  replace t' with (snd (rewire env fuel branch_id x_new
                          (GetNNInRad env t x_new rad)
                          (insert_vertex env id x x_new branch_id t)))
    by (by rewrite Hr).
  by rewrite rewire_vertices.
Qed.

Lemma grow_adds_one fuel branch_id goal rad s s' :
  grow' fuel branch_id goal rad s = (Ok tt, s') →
  length (vertices (tree s')) = S (length (vertices (tree s))).
Proof.
  unfold grow. unfold bind at 1.
  pose proof (sample_until_valid_tree env numpy bias fuel goal s) as Hs.
  destruct (sample_until_valid env numpy bias fuel goal s)
    as [[[[x_rand id] x_nearest] | e |] s1]; simpl in Hs; [| done ..].
  unfold bind, lift.
  destruct (extend env eta polar_step_2d polar_step_3d x_nearest x_rand)
    as [x_new | e |]; [| done ..].
  unfold on_tree.
  destruct (connect env fuel branch_id rad id x_nearest x_new (tree s1))
    as [o t'] eqn:Hc.
  intros [= -> <-]. simpl.
  rewrite (connect_adds_one _ _ _ _ _ _ _ _ Hc), length_app, Hs. simpl. lia.
Qed.

(** Over branch ids that are no multiples of 600 the loop makes no goal
    check: it runs all its rounds, one new vertex each. *)
Lemma grow_loop_runs_all fuel n branch_id goal rad s early s' :
  grow_loop' fuel n branch_id goal rad s = (Ok early, s') →
  (∀ k, branch_id ≤ k < branch_id + n → k mod 600 ≠ 0) →
  early = false ∧
  length (vertices (tree s')) = length (vertices (tree s)) + n.
Proof.
  revert branch_id s. induction n as [| n IH]; intros branch_id s.
  - simpl. unfold ret. intros [= <- <-] _. split; [done | lia].
  - cbn [grow_loop]. unfold bind at 1.
    destruct (grow' fuel branch_id goal rad s) as [[[] | e |] s1] eqn:Hg;
      [| done ..].
    intros Hl Hk. rewrite decide_False in Hl by (apply Hk; lia).
    apply IH in Hl as [-> Hlen]; [| intros k ?; apply Hk; lia].
    split; [done |]. rewrite Hlen, (grow_adds_one _ _ _ _ _ _ Hg). lia.
Qed.

(** X6: With a budget below 600 the goal is checked only after the loop: when
    [Plan] returns a path it has run all [max_iter] iterations, however
    early a vertex met the goal criterion, and the tree has grown by the
    start vertex and one vertex per iteration. *)
Theorem small_budget_is_always_used_up (max_iter fuel : nat)
    (start_config goal_config : config) (rad : Q) (s s' : St)
    (path : list config) :
  max_iter < 600 →
  Plan env numpy bias eta max_iter polar_step_2d polar_step_3d fuel
    start_config goal_config rad s = (Ok (Some path), s') →
  length (vertices (tree s'))
    = length (vertices (tree s)) + 1 + max_iter.
Proof.
  intros Hsmall.
  destruct (grow_loop' fuel max_iter 1 goal_config rad
              (seeded start_config s)) as [o1 s1] eqn:Hloop.
  destruct o1 as [early | e |]; cycle 1.
  { destruct (Plan_loop_fails env numpy bias eta max_iter polar_step_2d
                polar_step_3d _ _ _ _ _ _ _ Hloop) as (o' & -> & Hno);
      [done |]. intros [= -> _]. by destruct (Hno (Some path)). }
  { destruct (Plan_loop_fails env numpy bias eta max_iter polar_step_2d
                polar_step_3d _ _ _ _ _ _ _ Hloop) as (o' & -> & Hno);
      [done |]. intros [= -> _]. by destruct (Hno (Some path)). }
  rewrite (Plan_after_loop env numpy bias eta max_iter polar_step_2d
             polar_step_3d _ _ _ _ _ _ _ Hloop).
  apply grow_loop_runs_all in Hloop as [-> Hlen].
  2: { intros k Hk. rewrite Nat.mod_small; lia. }
  destruct (nearest_vertex env (tree s1) goal_config) as [[vid v] | e |];
    [| done ..].
  destruct (goal_criterion env v || false); [| done].
  destruct (walk_to_start _ _ _ _ _ _) as [chain | e |]; [| done ..].
  intros [= _ <-]. simpl in *. rewrite Hlen, length_app. simpl. lia.
Qed.

(** X7: With [max_iter = 0] on a new planner the question is only whether the
    start meets the goal criterion: if so [Plan] returns the path made of
    the start alone, with cost 0, and if not it raises [TypeError]. *)
Theorem empty_budget_plan (fuel : nat) (start_config goal_config : config)
    (rad : Q) (s : St) :
  vertices (tree s) = [] →
  let r := Plan env numpy bias eta 0 polar_step_2d polar_step_3d fuel
             start_config goal_config rad s in
  vertices (tree (snd r)) = [start_config] ∧
  if goal_criterion env start_config
  then fst r = Ok (Some [start_config]) ∧
       path_cost (tree (snd r)) = Some 0%Q
  else fst r = Raise TypeError.
Proof.
  intros Hv. cbv beta zeta.
  rewrite (Plan_after_loop env numpy bias eta 0 polar_step_2d
             polar_step_3d fuel start_config goal_config rad s false
             (seeded start_config s)) by done.
  unfold nearest_vertex, GetNearestVertex. simpl. rewrite Hv. simpl.
  destruct (goal_criterion env start_config); simpl; [| done].
  assert (walk_to_start fuel
            {| vertices := [start_config]; edges := edges (tree s);
               path_cost := path_cost (tree s) |}
            start_config 0 start_config [] = Ok [start_config]) as ->.
  { destruct fuel; simpl; by rewrite decide_True. }
  done.
Qed.

End MoreOnPlan.

Lemma path_cost_kept_unless_path_returned_witness :
  let s := Demo.start_state [[0; 1]; [2; 0]]%Z in
  let r := Plan Demo.wall_env (Demo.numpy (fun _ => [])) 0 2 2
             Demo.grid_step_2d Demo.no_step_3d 10 [0; 0]%Z [9; 9]%Z 10 s in
  fst r = Raise TypeError ∧ path_cost (tree (snd r)) = path_cost (tree s).
Proof.
  cbv zeta. split; [vm_compute; reflexivity |].
  apply (path_cost_kept_unless_path_returned Demo.wall_env
           (Demo.numpy (fun _ => [])) 0 2 Demo.grid_step_2d Demo.no_step_3d
           2 10 [0; 0]%Z [9; 9]%Z 10
           (Demo.start_state [[0; 1]; [2; 0]]%Z) _ (Raise TypeError)).
  - vm_compute. reflexivity.
  - discriminate.
Defined.

Lemma small_budget_is_always_used_up_witness :
  let s := Demo.start_state [] in
  let r := Plan (Demo.open_env Demo.manhattan 2) (Demo.numpy (fun _ => []))
             1 1 2 Demo.grid_step_2d Demo.no_step_3d 10 [0; 0]%Z [3; 0]%Z
             10 s in
  2 < 600 ∧ fst r = Ok (Some [[0; 0]; [3; 0]]%Z) ∧
  length (vertices (tree (snd r))) = length (vertices (tree s)) + 1 + 2.
Proof.
  cbv zeta. split; [lia |]. split; [vm_compute; reflexivity |].
  apply (small_budget_is_always_used_up (Demo.open_env Demo.manhattan 2)
           (Demo.numpy (fun _ => [])) 1 1 Demo.grid_step_2d Demo.no_step_3d
           2 10 [0; 0]%Z [3; 0]%Z 10 (Demo.start_state []) _
           [[0; 0]; [3; 0]]%Z).
  - lia.
  - vm_compute. reflexivity.
Defined.

Lemma empty_budget_plan_witness :
  let s := Demo.start_state [] in
  let r := Plan (Demo.open_env Demo.manhattan 2) (Demo.numpy (fun _ => []))
             1 1 0 Demo.grid_step_2d Demo.no_step_3d 10 [2; 0]%Z [3; 0]%Z
             10 s in
  vertices (tree s) = [] ∧
  vertices (tree (snd r)) = [[2; 0]%Z] ∧
  fst r = Ok (Some [[2; 0]%Z]) ∧
  path_cost (tree (snd r)) = Some 0%Q.
Proof.
  cbv zeta. split; [reflexivity |].
  exact (empty_budget_plan (Demo.open_env Demo.manhattan 2)
           (Demo.numpy (fun _ => [])) 1 1 Demo.grid_step_2d Demo.no_step_3d
           10 [2; 0]%Z [3; 0]%Z 10 (Demo.start_state []) eq_refl).
Defined.

(** ** The sampling loop, a blocked environment, a planner used twice *)

Section MoreOnLoops.
Context {config rng : Type} `{EqDecision config}.
Variable env : PlanningEnv config rng.
Variable numpy : NumpyRandom rng.
Variables (bias eta : Q).
Variables polar_step_2d polar_step_3d : config → config → Q → config.

Local Abbreviation St := (state config rng).
Local Abbreviation valid := (edge_validity_checker env).
Local Abbreviation retry := (sample_until_valid env numpy bias).
Local Abbreviation grow' :=
  (grow env numpy bias eta polar_step_2d polar_step_3d).
Local Abbreviation grow_loop' :=
  (grow_loop env numpy bias eta polar_step_2d polar_step_3d).
Local Abbreviation Plan' max_iter :=
  (Plan env numpy bias eta max_iter polar_step_2d polar_step_3d).
Local Abbreviation seeded start_config s :=
  ({| tree := snd (AddVertex start_config 0%Q (tree s));
      np_random := np_random s |}).
Implicit Types (t : RRTTree config) (s : St).

Lemma nearest_scan_bound q (vs : list config) i best :
  let r := nearest_scan env q vs i best in
  fst r = fst best ∨ i ≤ fst r < i + length vs.
Proof.
  revert i best. induction vs as [| v vs IH]; intros i best; simpl;
    [by left |].
  destruct (IH (S i) (if Qltb (compute_distance env q v) (snd best)
                      then (i, compute_distance env q v) else best))
    as [Heq | Hin]; [| right; lia].
  rewrite Heq. destruct (Qltb _ _); [right; simpl; lia | by left].
Qed.

Lemma nearest_vertex_returns t q :
  vertices t ≠ [] →
  ∃ id x, nearest_vertex env t q = Ok (id, x) ∧ vertices t !! id = Some x.
Proof.
  intros Hne. unfold nearest_vertex, GetNearestVertex.
  destruct (vertices t) as [| v vs] eqn:Hv; [done |].
  pose proof (nearest_scan_bound q vs 1 (0, compute_distance env q v)) as Hb.
  destruct (nearest_scan env q vs 1 (0, compute_distance env q v))
    as [id d].
  simpl in Hb.
  destruct (lookup_lt_is_Some_2 (v :: vs) id) as [x Hx]; [simpl; lia |].
  exists id, x. by rewrite Hx.
Qed.

Lemma sample_returns goal s :
  ∃ x s1, sample env numpy bias goal s = (Ok x, s1) ∧ tree s1 = tree s.
Proof.
  unfold sample. destruct (np_random_uniform numpy _) as [u r].
  destruct (Qltb u bias); [eauto |].
  destruct (env_sample env r). eauto.
Qed.

(** X8: What the loop of lines 53-63 hands over when it ends: a sample, the
    vertex the tree reports as nearest to it, which is a vertex of the
    tree, and a valid edge between the two; the tree is untouched. *)
Theorem sampling_loop_yields_valid_edge (fuel : nat) (goal : config)
    (s s' : St) (x_rand x_nearest : config) (x_nearest_id : nat) :
  sample_until_valid env numpy bias fuel goal s
    = (Ok (x_rand, x_nearest_id, x_nearest), s') →
  valid x_rand x_nearest = true ∧
  vertices (tree s) !! x_nearest_id = Some x_nearest ∧
  nearest_vertex env (tree s) x_rand = Ok (x_nearest_id, x_nearest) ∧
  tree s' = tree s.
Proof.
  revert s. induction fuel as [| fuel IH]; intros s; [done |]. simpl.
  unfold bind at 1.
  destruct (sample_returns goal s) as (x & s1 & -> & Ht).
  unfold bind, get_tree, lift. simpl.
  destruct (nearest_vertex env (tree s1) x) as [[id xn] | e |] eqn:Hn;
    [| done ..].
  destruct (valid x xn) eqn:Hval.
  - unfold ret. intros [= <- <- <- <-]. rewrite <- Ht.
    split; [done |]. split; [| done].
    by eapply nearest_vertex_lookup.
  - intros Hr. apply IH in Hr as (H1 & H2 & H3 & H4).
    rewrite Ht in *. done.
Qed.

Lemma retry_blocked fuel goal s :
  (∀ a b, valid a b = false) → vertices (tree s) ≠ [] →
  fst (retry fuel goal s) = Diverge.
Proof.
  intros Hblocked. revert s. induction fuel as [| fuel IH]; intros s Hne;
    [done |].
  simpl. unfold bind at 1.
  destruct (sample_returns goal s) as (x & s1 & -> & Ht).
  unfold bind, get_tree, lift. simpl.
  destruct (nearest_vertex_returns (tree s1) x) as (id & xn & -> & _);
    [by rewrite Ht |].
  rewrite Hblocked. apply IH. by rewrite Ht.
Qed.

Lemma Plan_loop_outcome max_iter fuel start_config goal_config rad s o s1 :
  grow_loop' fuel max_iter 1 goal_config rad (seeded start_config s)
    = (o, s1) →
  (∀ early, o ≠ Ok early) →
  ∃ o', Plan' max_iter fuel start_config goal_config rad s = (o', s1) ∧
        match o with
        | Ok _ => False
        | Raise e => o' = Raise e
        | Diverge => o' = Diverge
        end.
Proof.
  intros Hloop Hno. cbv beta. unfold Plan. unfold bind at 1, on_tree at 1.
  cbn [fst snd]. unfold bind at 1. rewrite Hloop.
  destruct o as [early | e |]; [by destruct (Hno early) | |]; eauto.
Qed.

Lemma grow_loop_first_round fuel n branch_id goal rad s o s1 :
  grow' fuel branch_id goal rad s = (o, s1) →
  o ≠ Ok tt →
  grow_loop' fuel (S n) branch_id goal rad s
  = (match o with
     | Ok _ => Diverge
     | Raise e => Raise e
     | Diverge => Diverge
     end, s1).
Proof.
  intros Hg Hno. cbn [grow_loop]. unfold bind at 1. rewrite Hg.
  by destruct o as [[] | e |].
Qed.

(** X9: The retry loop has no bound: in an environment whose checker accepts
    no edge, [Plan] with a budget of at least one iteration never ends. *)
Theorem blocked_environment_plan_never_ends (max_iter fuel : nat)
    (start_config goal_config : config) (rad : Q) (s : St) :
  (∀ a b, edge_validity_checker env a b = false) →
  fst (Plan env numpy bias eta (S max_iter) polar_step_2d polar_step_3d
         fuel start_config goal_config rad s) = Diverge.
Proof.
  intros Hblocked.
  assert (fst (grow' fuel 1 goal_config rad (seeded start_config s))
          = Diverge) as Hg.
  { unfold grow. unfold bind at 1.
    pose proof (retry_blocked fuel goal_config (seeded start_config s)
                  Hblocked) as Hr.
    destruct (retry fuel goal_config (seeded start_config s)) as [o s1].
    simpl in Hr. rewrite Hr; [done |]. simpl. by destruct (vertices (tree s)). }
  destruct (grow' fuel 1 goal_config rad (seeded start_config s))
    as [o s1] eqn:Hgrow.
  simpl in Hg. subst o.
  pose proof (grow_loop_first_round fuel max_iter 1 goal_config rad
                (seeded start_config s) Diverge s1 Hgrow) as Hloop.
  destruct (Plan_loop_outcome (S max_iter) fuel start_config goal_config
              rad s _ _ (Hloop ltac:(done))) as (o' & -> & ->); done.
Qed.

(** X10: A planner that has planned before fails when used again: the new
    start vertex is appended without a parent edge, and as soon as it is
    the vertex nearest to the first accepted sample, the cost walk from it
    raises [KeyError].  The tree then holds the old vertices and the new
    start. *)
Theorem reused_planner_raises_KeyError (max_iter fuel : nat)
    (start_config goal_config : config) (rad : Q) (s s2 : St)
    (x_rand x_nearest : config) :
  tree_ok (tree s) →
  c_space_dim env = 2 ∨ c_space_dim env = 3 →
  sample_until_valid env numpy bias fuel goal_config
    (seeded start_config s)
    = (Ok (x_rand, length (vertices (tree s)), x_nearest), s2) →
  Plan env numpy bias eta (S max_iter) polar_step_2d polar_step_3d fuel
    start_config goal_config rad s = (Raise KeyError, s2) ∧
  tree s2 = snd (AddVertex start_config 0%Q (tree s)).
Proof.
  intros Hok Hdim Hretry.
  pose proof (sample_until_valid_tree env numpy bias fuel goal_config
                (seeded start_config s)) as Ht.
  rewrite Hretry in Ht. simpl in Ht.
  split; [| done].
  assert (compute_cost env fuel (tree s2) (length (vertices (tree s)))
          = Raise KeyError) as Hcost.
  { unfold compute_cost. rewrite Ht. simpl.
    rewrite lookup_app_r by done. rewrite Nat.sub_diag. simpl.
    destruct fuel as [| fuel]; [done |]. simpl.
    pose proof (ok_root _ Hok).
    rewrite decide_False by (unfold GetRootID; lia).
    destruct (edges (tree s) !! length (vertices (tree s))) as [p |] eqn:Hp;
      [| done].
    destruct (ok_edges _ Hok _ _ Hp). lia. }
  assert (grow' fuel 1 goal_config rad (seeded start_config s)
          = (Raise KeyError, s2)) as Hg.
  { unfold grow. unfold bind at 1. rewrite Hretry. unfold bind, lift.
    assert (∃ x_new, extend env eta polar_step_2d polar_step_3d
                       x_nearest x_rand = Ok x_new) as [x_new ->].
    { unfold extend. destruct Hdim as [-> | ->]; simpl; eauto. }
    unfold on_tree, connect. rewrite Hcost. by destruct s2. }
  pose proof (grow_loop_first_round fuel max_iter 1 goal_config rad
                (seeded start_config s) _ s2 Hg ltac:(done)) as Hloop.
  destruct (Plan_loop_outcome (S max_iter) fuel start_config goal_config
              rad s _ _ (Hloop) ltac:(done)) as (o' & -> & ->).
  done.
Qed.

(** *** The path search on a new planner *)

Lemma walk_reaches_start fuel t (start_config : config) vid v l path :
  root_path t vid ((vid, v) :: l) →
  vertices t !! 0 = Some start_config →
  length l ≤ fuel →
  ∃ chain, walk_to_start fuel t start_config vid v path = Ok chain.
Proof.
  revert vid v l path. induction fuel as [| fuel IH];
    intros vid v l path Hp Hroot Hlen.
  - destruct l; [| simpl in Hlen; lia].
    inversion Hp as [x Hx | ? ? ? ? ? ? ? Hrest]; subst.
    + simpl. rewrite decide_True by congruence. eauto.
    + inversion Hrest.
  - simpl. case_decide; [eauto |].
    inversion Hp as [x Hx | v' p x l' Hv Hx Hpar Hrest]; subst;
      [congruence |].
    destruct (root_path_head _ _ _ Hrest) as (xp & l'' & -> & Hxp).
    rewrite Hpar, Hxp. eapply IH; [exact Hrest | done |].
    simpl in Hlen. lia.
Qed.

(** X11: On a new planner, with non-negative distances, the last part of
    [Plan] (lines 102-126) neither loops nor misses a key: once the growing
    loop has ended, [Plan] returns a path or raises the [TypeError] of
    line 121.  The walk back meets the start configuration at the root at
    the latest, within as many steps as the tree has vertices. *)
Theorem path_search_ends_on_new_planner (max_iter fuel : nat)
    (start_config goal_config : config) (rad : Q) (s s1 : St)
    (early : bool) :
  metric_nonneg env →
  vertices (tree s) = [] → edges (tree s) = ∅ →
  grow_loop env numpy bias eta polar_step_2d polar_step_3d fuel max_iter 1
    goal_config rad (seeded start_config s) = (Ok early, s1) →
  length (vertices (tree s1)) ≤ S fuel →
  (∃ path s',
     Plan env numpy bias eta max_iter polar_step_2d polar_step_3d fuel
       start_config goal_config rad s = (Ok (Some path), s')) ∨
  Plan env numpy bias eta max_iter polar_step_2d polar_step_3d fuel
    start_config goal_config rad s = (Raise TypeError, s1).
Proof.
  intros Hnn Hv He Hloop Hfuel. cbv beta.
  rewrite (Plan_after_loop env numpy bias eta max_iter polar_step_2d
             polar_step_3d _ _ _ _ _ _ _ Hloop).
  assert (tree_ok (tree s1)) as Hok.
  { pose proof (tree_ok_seed start_config 0%Q (tree s) Hv He) as Hok0.
    remember (seeded start_config s) as s0 eqn:Hs0.
    assert (length (vertices (tree s0)) = 1) as Hlen0
      by (subst s0; simpl; by rewrite Hv).
    assert (tree_ok (tree s0)) as Hok0' by (by subst s0).
    pose proof (grow_loop_tree_ok env numpy bias eta polar_step_2d
                  polar_step_3d Hnn fuel max_iter goal_config rad s0 Hok0')
      as H1.
    by rewrite Hlen0, Hloop in H1. }
  assert (vertices (tree s1) !! 0 = Some start_config) as Hroot.
  { pose proof (tree_extends_grow_loop env numpy bias eta polar_step_2d
                  polar_step_3d fuel max_iter 1 goal_config rad
                  (seeded start_config s)) as [[added Hadd] _].
    rewrite Hloop in Hadd. simpl in Hadd. rewrite Hadd, Hv. done. }
  destruct (nearest_vertex_returns (tree s1) goal_config)
    as (vid & v & -> & Hvid).
  { intros Hnil. by rewrite Hnil in Hroot. }
  destruct (goal_criterion env v || early); [| by right].
  left.
  destruct (ok_reach _ Hok vid) as [l Hl]; [by eapply lookup_lt_Some |].
  pose proof (root_path_length _ _ _ Hl) as Hlen.
  destruct (root_path_head _ _ _ Hl) as (x & l' & -> & Hx).
  assert (x = v) as -> by congruence.
  destruct (walk_reaches_start fuel (tree s1) start_config vid v l' []
              Hl Hroot) as [chain ->]; [simpl in Hlen; lia |].
  eauto.
Qed.

End MoreOnLoops.

Lemma sampling_loop_yields_valid_edge_witness :
  let s := {| tree := snd (AddVertex [0; 0]%Z 0 empty_tree);
              np_random := [[5; 0]; [0; 1]]%Z |} in
  let r := sample_until_valid Demo.wall_env (Demo.numpy (fun _ => [])) 0 5
             [9; 9]%Z s in
  fst r = Ok ([0; 1]%Z, 0, [0; 0]%Z) ∧
  edge_validity_checker Demo.wall_env [0; 1]%Z [0; 0]%Z = true ∧
  vertices (tree s) !! 0 = Some [0; 0]%Z ∧
  nearest_vertex Demo.wall_env (tree s) [0; 1]%Z = Ok (0, [0; 0]%Z) ∧
  tree (snd r) = tree s.
Proof.
  cbv zeta. split; [vm_compute; reflexivity |].
  apply (sampling_loop_yields_valid_edge Demo.wall_env
           (Demo.numpy (fun _ => [])) 0 5 [9; 9]%Z
           {| tree := snd (AddVertex [0; 0]%Z 0 empty_tree);
              np_random := [[5; 0]; [0; 1]]%Z |}).
  vm_compute. reflexivity.
Defined.

Lemma blocked_environment_plan_never_ends_witness :
  (∀ a b, edge_validity_checker blocked_env a b = false) ∧
  fst (Plan blocked_env (Demo.numpy (fun _ => [])) 0 1 1
         Demo.grid_step_2d Demo.no_step_3d 50 [0; 0]%Z [3; 0]%Z 10
         (Demo.start_state [[1; 0]; [2; 0]]%Z)) = Diverge.
Proof.
  split; [reflexivity |].
  apply (blocked_environment_plan_never_ends blocked_env
           (Demo.numpy (fun _ => [])) 0 1 Demo.grid_step_2d
           Demo.no_step_3d 0 50 [0; 0]%Z [3; 0]%Z 10
           (Demo.start_state [[1; 0]; [2; 0]]%Z)).
  reflexivity.
Defined.

Lemma reused_planner_raises_KeyError_witness :
  let env := Demo.open_env Demo.manhattan 2 in
  let first := Plan env (Demo.numpy (fun _ => [])) 1 1 1
                 Demo.grid_step_2d Demo.no_step_3d 10 [0; 0]%Z [3; 0]%Z 10
                 (Demo.start_state []) in
  let second := Plan env (Demo.numpy (fun _ => [])) 1 1 1
                  Demo.grid_step_2d Demo.no_step_3d 10 [9; 9]%Z [9; 8]%Z 10
                  (snd first) in
  fst first = Ok (Some [[0; 0]; [3; 0]]%Z) ∧
  tree_ok (tree (snd first)) ∧
  fst second = Raise KeyError ∧
  vertices (tree (snd second)) = [[0; 0]; [3; 0]; [9; 9]]%Z.
Proof.
  cbv zeta.
  set (env := Demo.open_env Demo.manhattan 2).
  set (first := Plan env (Demo.numpy (fun _ => [])) 1 1 1
                  Demo.grid_step_2d Demo.no_step_3d 10 [0; 0]%Z [3; 0]%Z 10
                  (Demo.start_state [])).
  assert (Hok : tree_ok (tree (snd first))).
  { apply Plan_tree_ok; [| reflexivity | reflexivity].
    intros a b. apply manhattan_nonneg. }
  split; [vm_compute; reflexivity |]. split; [exact Hok |].
  destruct (reused_planner_raises_KeyError env (Demo.numpy (fun _ => []))
              1 1 Demo.grid_step_2d Demo.no_step_3d 0 10 [9; 9]%Z [9; 8]%Z
              10 (snd first)
              (snd (sample_until_valid env (Demo.numpy (fun _ => [])) 1 10
                      [9; 8]%Z
                      {| tree := snd (AddVertex [9; 9]%Z 0
                                        (tree (snd first)));
                         np_random := np_random (snd first) |}))
              [9; 8]%Z [9; 9]%Z Hok)
    as [Hplan Htree].
  - left. reflexivity.
  - vm_compute. reflexivity.
  - rewrite Hplan. split; [reflexivity |].
    cbn [snd]. rewrite Htree. vm_compute. reflexivity.
Defined.

Lemma path_search_ends_on_new_planner_witness :
  let s := Demo.start_state [[0; 1]; [2; 0]]%Z in
  let loop := grow_loop Demo.wall_env (Demo.numpy (fun _ => [])) 0 2
                Demo.grid_step_2d Demo.no_step_3d 10 2 1 [9; 9]%Z 10
                {| tree := snd (AddVertex [0; 0]%Z 0 (tree s));
                   np_random := np_random s |} in
  let plan := Plan Demo.wall_env (Demo.numpy (fun _ => [])) 0 2 2
                Demo.grid_step_2d Demo.no_step_3d 10 [0; 0]%Z [9; 9]%Z 10
                s in
  metric_nonneg Demo.wall_env ∧
  fst loop = Ok false ∧
  length (vertices (tree (snd loop))) ≤ 11 ∧
  ((∃ path s', plan = (Ok (Some path), s')) ∨
   plan = (Raise TypeError, snd loop)).
Proof.
  cbv zeta. split; [exact wall_env_nonneg |].
  split; [vm_compute; reflexivity |].
  split; [vm_compute; lia |].
  apply (path_search_ends_on_new_planner Demo.wall_env
           (Demo.numpy (fun _ => [])) 0 2 Demo.grid_step_2d
           Demo.no_step_3d 2 10 [0; 0]%Z [9; 9]%Z 10
           (Demo.start_state [[0; 1]; [2; 0]]%Z) _ false wall_env_nonneg);
    [reflexivity | reflexivity | vm_compute; reflexivity | vm_compute; lia].
Defined.

(** ** Parent selection and rewiring: costs only go down *)

Section MoreOnRewiring.
Context {config rng : Type}.
Variable env : PlanningEnv config rng.

Local Abbreviation dist := (compute_distance env).
Local Abbreviation valid := (edge_validity_checker env).
Local Abbreviation cc := (chain_cost env).
Implicit Types (t : RRTTree config) (near : list (nat * config)).

(** X12: The selection loop replaces the vertex it starts from, the nearest
    one, only by a neighbour with a valid edge that is strictly cheaper:
    on a tie the nearest vertex, or the earlier neighbour, stays. *)
Theorem nearest_replaced_only_by_cheaper (fuel : nat) (t : RRTTree config)
    (x_new : config) (near : list (nat * config)) (x_nearest_id : nat)
    (x_nearest : config) (c0 : Q) (x_min_id : nat) (x_min : config)
    (cost_min : Q) :
  select_parent env fuel t x_new near x_nearest_id x_nearest c0
    = Ok (x_min_id, x_min, cost_min) →
  (x_min_id, x_min, cost_min) = (x_nearest_id, x_nearest, c0) ∨
  ((x_min_id, x_min) ∈ near ∧ valid x_new x_min = true ∧
   (cost_min < c0)%Q).
Proof.
  revert x_nearest_id x_nearest c0.
  induction near as [| [v xv] near IH]; intros id0 x0 c0; simpl.
  - intros [= <- <- <-]. by left.
  - destruct (valid x_new xv) eqn:Hval.
    + destruct (compute_cost env fuel t v) as [cv | |]; simpl; [| done ..].
      destruct (Qltb (float_add cv (dist xv x_new)) c0) eqn:Hlt.
      * apply Qltb_lt in Hlt. intros Hs. right.
        destruct (IH _ _ _ Hs) as [[= -> -> ->] | (Hin & Hv & Hc)].
        -- split; [apply list_elem_of_here | done].
        -- split; [by apply list_elem_of_further |]. split; [done | lra].
      * intros Hs. destruct (IH _ _ _ Hs) as [Heq | (Hin & Hv & Hc)];
          [by left |].
        right. split; [by apply list_elem_of_further | done].
    + intros Hs. destruct (IH _ _ _ Hs) as [Heq | (Hin & Hv & Hc)];
        [by left |].
      right. split; [by apply list_elem_of_further | done].
Qed.

End MoreOnRewiring.

Lemma nearest_replaced_only_by_cheaper_witness :
  let near := GetNNInRad Demo.wall_env Demo.detour_tree [2; 0]%Z 10 in
  select_parent Demo.wall_env 10 Demo.detour_tree [2; 0]%Z near 3
    [2; 1]%Z 6 = Ok (0, [0; 0]%Z, 2%Q) ∧
  ((0, [0; 0]%Z, 2%Q) = (3, [2; 1]%Z, 6%Q) ∨
   ((0, [0; 0]%Z) ∈ near ∧
    edge_validity_checker Demo.wall_env [2; 0]%Z [0; 0]%Z = true ∧
    (2 < 6)%Q)).
Proof.
  cbv zeta. split; [vm_compute; reflexivity |].
  apply (nearest_replaced_only_by_cheaper Demo.wall_env 10 Demo.detour_tree
           [2; 0]%Z (GetNNInRad Demo.wall_env Demo.detour_tree [2; 0]%Z 10)
           3 [2; 1]%Z 6 0 [0; 0]%Z 2).
  vm_compute. reflexivity.
Defined.
